(** * Table-sink wrapper and partition-consumer resolve loop

    A shallow embedding of
      - cdc/processor/sinkmanager/table_sink_wrapper.go
      - cmd/pulsar-consumer/main.go
    and the properties of the checkpoint cache, the range-event-count
    ledger, the event groups and the driver loop.

    Conventions.  Go's [uint64] and [int]/[int64] values are integers in [Z];
    every arithmetic operation of the source is followed by the wrap-around
    of its type ([to_uint64], [to_int64]).  A Go slice is a [list]; indexing is
    stdpp's [!!], in-place update is stdpp's [<[i:=x]>].  A nil-able pointer
    is an [option].  Locks are not modelled: a critical section of the source
    (what a method does while it holds its locks, or one atomic operation) is
    one step.  A method that releases its locks between two critical sections
    is given as the run with nothing in between and, where a property depends
    on it, among the steps of other goroutines ([asyncStopAmong],
    [sinkMaybeStuckAmong], [interleaving]). *)

From Stdlib Require Import ZArith List Lia Bool Ascii Permutation Sorted.
From stdpp Require Import base option list sorting gmap strings pretty.

Local Open Scope Z_scope.

(** ** Machine integers *)

Module GoInt.

Definition two64 : Z := 2 ^ 64.
Definition two63 : Z := 2 ^ 63.

(** Conversion to [uint64]: the value modulo 2^64. *)
Definition to_uint64 (x : Z) : Z := x mod two64.

(** Conversion to [int64] (and to [int] on the 64-bit targets the program is
    built for): two's complement. *)
Definition to_int64 (x : Z) : Z := (x + two63) mod two64 - two63.

Definition is_uint64 (x : Z) : Prop := 0 <= x < two64.
Definition is_int64 (x : Z) : Prop := - two63 <= x < two63.

(** [a + b] and [a - b] on [int]. *)
Definition add_int (a b : Z) : Z := to_int64 (a + b).
Definition sub_int (a b : Z) : Z := to_int64 (a - b).

End GoInt.
Import GoInt.

(** ** Packages [oracle], [sorter] and [model] *)

Module oracle.

(** [oracle.ExtractPhysical(ts)] is [int64(ts >> 18)]; [oracle.ComposeTS] is
    [(physical << 18) | logical] (the timestamp oracle's composition). *)
Definition physicalShiftBits : Z := 18.
Definition ExtractPhysical (ts : Z) : Z := to_int64 (Z.shiftr ts physicalShiftBits).
Definition ComposeTS (physical logical : Z) : Z :=
  to_uint64 (Z.lor (Z.shiftl physical physicalShiftBits) logical).

End oracle.
Import oracle.

Module sorter.

(** Modelled from the spec: [sorter.Position] and its [Compare] (package
    [sorter] is not among the sources).  A position is "commit-ts + start-ts",
    "totally ordered": the order is lexicographic, commit-ts first.
    [Compare] answers -1, 0 or 1. *)
Record Position := mkPosition { StartTs : Z; CommitTs : Z }.

Definition Compare (p q : Position) : Z :=
  if CommitTs p <? CommitTs q then -1
  else if (CommitTs p =? CommitTs q) && (StartTs p <? StartTs q) then -1
  else if (CommitTs p =? CommitTs q) && (StartTs p =? StartTs q) then 0
  else 1.

End sorter.

Module model.

(** Modelled from the spec: [model.ResolvedTs] (package [model] is not among
    the sources): "a pair (commit-ts, batch-ts, mode)", "mode in {normal,
    batched}", and "[Less(a,b)] and [Greater(a,b)] return the natural total
    order over (commit-ts, batch-ts), treating normal mode as batch-ts =
    infinity".  [NewResolvedTs] builds the normal-mode value. *)
Inductive ResolvedMode := NormalResolvedMode | BatchResolvedMode.

Record ResolvedTs := mkResolvedTs {
  Mode : ResolvedMode;
  Ts : Z;
  BatchID : Z
}.

Definition NewResolvedTs (t : Z) : ResolvedTs :=
  {| Mode := NormalResolvedMode; Ts := t; BatchID := two64 - 1 |}.

(** The order on batch-ts, with normal mode as infinity. *)
Definition batchLess (a b : ResolvedTs) : bool :=
  match Mode a, Mode b with
  | NormalResolvedMode, _ => false
  | BatchResolvedMode, NormalResolvedMode => true
  | BatchResolvedMode, BatchResolvedMode => BatchID a <? BatchID b
  end.

Definition Less (a b : ResolvedTs) : bool :=
  (Ts a <? Ts b) || ((Ts a =? Ts b) && batchLess a b).

Definition Greater (a b : ResolvedTs) : bool := Less b a.

Definition EqualOrGreater (a b : ResolvedTs) : bool := negb (Less a b).

(** [model.RowChangedEvent], with the fields the program reads, and
    [model.PolymorphicEvent] with its nil-able [Row]. *)
Record RowChangedEvent := mkRowChangedEvent {
  StartTs : Z;
  CommitTs : Z;
  TableID : Z;
  Columns : list string;
  PreColumns : list string
}.

Record PolymorphicEvent := mkPolymorphicEvent {
  CRTs : Z;
  Row : option RowChangedEvent
}.

End model.

(** ** [sort.Search] *)

Module GoSort.

(** Go's [sort.Search(n, f)]: binary search for the smallest index in
    [[0, n]] at which [f] is true, [f] being false on a prefix and true on the
    rest.
<<
    i, j := 0, n
    for i < j {
        h := int(uint(i+j) >> 1)
        if !f(h) { i = h + 1 } else { j = h }
    }
    return i
>>
    The loop runs at most [j - i] times: that is the fuel. *)
Fixpoint searchLoop (fuel : nat) (f : nat -> bool) (i j : nat) : nat :=
  match fuel with
  | O => i
  | S fuel' =>
      if Nat.ltb i j then
        let h := Nat.div2 (i + j) in
        if negb (f h) then searchLoop fuel' f (h + 1) j
        else searchLoop fuel' f i h
      else i
  end.

Definition Search (n : nat) (f : nat -> bool) : nat := searchLoop n f 0 n.

End GoSort.
Import GoSort.

(** ** The range-event-count ledger *)

Module Ledger.
Import sorter.

Record rangeEventCount := mkRangeEventCount {
  firstPos : Position;
  lastPos : Position;
  events : Z
}.

Definition newRangeEventCount (pos : Position) (events : Z) : rangeEventCount :=
  {| firstPos := pos; lastPos := pos; events := events |}.

(** [tableSinkWrapper.updateRangeEventCounts], on the slice
    [t.rangeEventCounts.c].  The index [countsLen-1] is in range whenever
    [countsLen] is not 0, so the [None] branch is never taken. *)
Definition updateRangeEventCounts
    (c : list rangeEventCount) (eventCount : rangeEventCount) : list rangeEventCount :=
  let countsLen := length c in
  if Nat.eqb countsLen 0 then c ++ [eventCount]
  else
    match c !! (countsLen - 1)%nat with
    | None => c
    | Some lastRec =>
        if Compare (lastPos lastRec) (lastPos eventCount) <? 0 then
          let lastPhy := ExtractPhysical (CommitTs (firstPos lastRec)) in
          let currPhy := ExtractPhysical (CommitTs (lastPos eventCount)) in
          if sub_int currPhy lastPhy >=? 1000 then c ++ [eventCount]
          else
            <[(countsLen - 1)%nat :=
                {| firstPos := firstPos lastRec;
                   lastPos := lastPos eventCount;
                   events := add_int (events lastRec) (events eventCount) |}]> c
        else c
    end.

(** The loop [for _, events := range c[0:idx] { count += events.events }]. *)
Definition countEvents (c : list rangeEventCount) : Z :=
  fold_left (fun count r => add_int count (events r)) c 0.

(** [tableSinkWrapper.cleanRangeEventCounts]: the new slice and the returned
    boolean.  [sort.Search] probes indices below [len(c)] only, and [idx-1] is
    in range when [idx] is not 0. *)
Definition cleanRangeEventCounts
    (c : list rangeEventCount) (upperBound : Position) (minEvents : Z)
    : list rangeEventCount * bool :=
  let idx :=
    Search (length c)
      (fun i => match c !! i with
                | Some r => Compare (lastPos r) upperBound >? 0
                | None => false
                end) in
  if Nat.eqb (length c) 0 || Nat.eqb idx 0 then (c, false)
  else
    let count := countEvents (take idx c) in
    let shouldClean := count >=? minEvents in
    if negb shouldClean then
      match c !! (idx - 1)%nat with
      | None => (c, shouldClean)
      | Some r =>
          (drop (idx - 1)
             (<[(idx - 1)%nat :=
                 {| firstPos := firstPos r; lastPos := lastPos r; events := count |}]> c),
           shouldClean)
      end
    else (drop idx c, shouldClean).

(** The ledger invariant: last positions strictly ascending. *)
Definition ascending (c : list rangeEventCount) : Prop :=
  forall i j ri rj,
    c !! i = Some ri -> c !! j = Some rj -> (i < j)%nat ->
    Compare (lastPos ri) (lastPos rj) < 0.

(** The sum of the event counts, as a mathematical integer. *)
Definition sumEvents (c : list rangeEventCount) : Z :=
  foldr (fun r acc => events r + acc) 0 c.

(** Physical milliseconds and positions used by the scenarios. *)
Definition posAtMs (ms : Z) : Position :=
  {| StartTs := 0; CommitTs := ComposeTS ms 0 |}.

(** The calls the wrapper receives on its ledger, and the ledger they leave
    when made in order on [c]. *)
Inductive ledgerCall :=
| CallUpdateRangeEventCounts (eventCount : rangeEventCount)
| CallCleanRangeEventCounts (upperBound : Position) (minEvents : Z).

Definition ledgerStep (c : list rangeEventCount) (call : ledgerCall)
    : list rangeEventCount :=
  match call with
  | CallUpdateRangeEventCounts eventCount => updateRangeEventCounts c eventCount
  | CallCleanRangeEventCounts upperBound minEvents =>
      fst (cleanRangeEventCounts c upperBound minEvents)
  end.

Definition ledgerAfter (calls : list ledgerCall) (c : list rangeEventCount)
    : list rangeEventCount :=
  fold_left ledgerStep calls c.

(** Whether [updateRangeEventCounts] takes a record into the ledger [c]: the
    ledger is empty or the record's last position is beyond the ledger's. *)
Definition advancesLedger (c : list rangeEventCount) (eventCount : rangeEventCount)
    : bool :=
  match last c with
  | None => true
  | Some lastRec => Compare (lastPos lastRec) (lastPos eventCount) <? 0
  end.

(** The ledger invariant as a test. *)
Fixpoint ascendingb (c : list rangeEventCount) : bool :=
  match c with
  | [] => true
  | r :: c =>
      forallb (fun r' => Compare (lastPos r) (lastPos r') <? 0) c && ascendingb c
  end.

End Ledger.

(** ** The downstream sink *)

Module tablesink.
Import model.

(** Errors.  [SinkInternalError cause] is
    [tablesink.NewSinkInternalError(errors.New(cause))]; [OtherError] stands
    for every error built outside the modelled files (downstream sink,
    timestamp oracle, context). *)
Inductive error :=
| SinkInternalError (cause : string)
| OtherError (cause : string).

(** Modelled from the spec: the downstream [tablesink.TableSink], an external
    collaborator known by its interface only ([AppendRowChangedEvents],
    [UpdateResolvedTs] returning an error, [GetCheckpointTs],
    [GetLastSyncedTs], [AsyncClose] returning a bool, [Close]).  A value of
    this record is what the sink object shows at one instant: what it has
    been handed so far and what each of its getters answers now.  The sink
    works in the background, so these answers change between two calls of
    the program; that is an environment step wherever a sink is held. *)
Record TableSink := mkTableSink {
  appended : list RowChangedEvent;
  frontier : option ResolvedTs;
  updateResolvedTsErr : option error;
  checkpointTs : ResolvedTs;
  lastSyncedTs : Z;
  asyncClosed : bool
}.

Definition AppendRowChangedEvents (s : TableSink) (events : list RowChangedEvent)
    : TableSink :=
  {| appended := appended s ++ events;
     frontier := frontier s;
     updateResolvedTsErr := updateResolvedTsErr s;
     checkpointTs := checkpointTs s;
     lastSyncedTs := lastSyncedTs s;
     asyncClosed := asyncClosed s |}.

Definition UpdateResolvedTs (s : TableSink) (ts : ResolvedTs)
    : TableSink * option error :=
  ({| appended := appended s;
      frontier := Some ts;
      updateResolvedTsErr := updateResolvedTsErr s;
      checkpointTs := checkpointTs s;
      lastSyncedTs := lastSyncedTs s;
      asyncClosed := asyncClosed s |},
   updateResolvedTsErr s).

Definition GetCheckpointTs (s : TableSink) : ResolvedTs := checkpointTs s.
Definition GetLastSyncedTs (s : TableSink) : Z := lastSyncedTs s.
Definition AsyncClose (s : TableSink) : bool := asyncClosed s.

End tablesink.

(** ** The table-sink wrapper *)

Module sinkmanager.
Import model tablesink.

(** Modelled from the spec: [tablepb.TableState], "enum {Preparing, Prepared,
    Replicating, Stopping, Stopped}". *)
Inductive TableState :=
| TableStatePreparing
| TableStatePrepared
| TableStateReplicating
| TableStateStopping
| TableStateStopped.

Definition TableState_eqb (a b : TableState) : bool :=
  match a, b with
  | TableStatePreparing, TableStatePreparing
  | TableStatePrepared, TableStatePrepared
  | TableStateReplicating, TableStateReplicating
  | TableStateStopping, TableStateStopping
  | TableStateStopped, TableStateStopped => true
  | _, _ => false
  end.

(** [tableSinkWrapper].  The fields used for logging only ([id],
    [changefeed], [span]) and [lastCleanTime] are left out; the two function
    fields [tableSinkCreator] and [genReplicateTs] are external calls, whose
    answer is an argument of the method that makes the call.  [time.Time] is
    an integer. *)
Record tableSinkWrapper := mkTableSinkWrapper {
  tableSink_s : option TableSink;
  tableSink_version : Z;
  state_advanced : Z;
  state_resolvedTs : ResolvedTs;
  state_checkpointTs : ResolvedTs;
  state_lastSyncedTs : Z;
  state : TableState;
  startTs : Z;
  barrierTs : Z;
  receivedSorterResolvedTs : Z;
  replicateTs : Z
}.

Definition with_sink (t : tableSinkWrapper) (s : option TableSink) (version : Z) :=
  {| tableSink_s := s; tableSink_version := version;
     state_advanced := state_advanced t; state_resolvedTs := state_resolvedTs t;
     state_checkpointTs := state_checkpointTs t;
     state_lastSyncedTs := state_lastSyncedTs t; state := state t;
     startTs := startTs t; barrierTs := barrierTs t;
     receivedSorterResolvedTs := receivedSorterResolvedTs t;
     replicateTs := replicateTs t |}.

Definition with_advanced (t : tableSinkWrapper) (now : Z) :=
  {| tableSink_s := tableSink_s t; tableSink_version := tableSink_version t;
     state_advanced := now; state_resolvedTs := state_resolvedTs t;
     state_checkpointTs := state_checkpointTs t;
     state_lastSyncedTs := state_lastSyncedTs t; state := state t;
     startTs := startTs t; barrierTs := barrierTs t;
     receivedSorterResolvedTs := receivedSorterResolvedTs t;
     replicateTs := replicateTs t |}.

Definition with_resolvedTs (t : tableSinkWrapper) (ts : ResolvedTs) :=
  {| tableSink_s := tableSink_s t; tableSink_version := tableSink_version t;
     state_advanced := state_advanced t; state_resolvedTs := ts;
     state_checkpointTs := state_checkpointTs t;
     state_lastSyncedTs := state_lastSyncedTs t; state := state t;
     startTs := startTs t; barrierTs := barrierTs t;
     receivedSorterResolvedTs := receivedSorterResolvedTs t;
     replicateTs := replicateTs t |}.

Definition with_checkpointTs (t : tableSinkWrapper) (ts : ResolvedTs) :=
  {| tableSink_s := tableSink_s t; tableSink_version := tableSink_version t;
     state_advanced := state_advanced t; state_resolvedTs := state_resolvedTs t;
     state_checkpointTs := ts;
     state_lastSyncedTs := state_lastSyncedTs t; state := state t;
     startTs := startTs t; barrierTs := barrierTs t;
     receivedSorterResolvedTs := receivedSorterResolvedTs t;
     replicateTs := replicateTs t |}.

Definition with_lastSyncedTs (t : tableSinkWrapper) (ts : Z) :=
  {| tableSink_s := tableSink_s t; tableSink_version := tableSink_version t;
     state_advanced := state_advanced t; state_resolvedTs := state_resolvedTs t;
     state_checkpointTs := state_checkpointTs t;
     state_lastSyncedTs := ts; state := state t;
     startTs := startTs t; barrierTs := barrierTs t;
     receivedSorterResolvedTs := receivedSorterResolvedTs t;
     replicateTs := replicateTs t |}.

Definition with_state (t : tableSinkWrapper) (st : TableState) :=
  {| tableSink_s := tableSink_s t; tableSink_version := tableSink_version t;
     state_advanced := state_advanced t; state_resolvedTs := state_resolvedTs t;
     state_checkpointTs := state_checkpointTs t;
     state_lastSyncedTs := state_lastSyncedTs t; state := st;
     startTs := startTs t; barrierTs := barrierTs t;
     receivedSorterResolvedTs := receivedSorterResolvedTs t;
     replicateTs := replicateTs t |}.

Definition with_barrierTs (t : tableSinkWrapper) (ts : Z) :=
  {| tableSink_s := tableSink_s t; tableSink_version := tableSink_version t;
     state_advanced := state_advanced t; state_resolvedTs := state_resolvedTs t;
     state_checkpointTs := state_checkpointTs t;
     state_lastSyncedTs := state_lastSyncedTs t; state := state t;
     startTs := startTs t; barrierTs := ts;
     receivedSorterResolvedTs := receivedSorterResolvedTs t;
     replicateTs := replicateTs t |}.

Definition with_receivedSorterResolvedTs (t : tableSinkWrapper) (ts : Z) :=
  {| tableSink_s := tableSink_s t; tableSink_version := tableSink_version t;
     state_advanced := state_advanced t; state_resolvedTs := state_resolvedTs t;
     state_checkpointTs := state_checkpointTs t;
     state_lastSyncedTs := state_lastSyncedTs t; state := state t;
     startTs := startTs t; barrierTs := barrierTs t;
     receivedSorterResolvedTs := ts;
     replicateTs := replicateTs t |}.

Definition with_replicateTs (t : tableSinkWrapper) (ts : Z) :=
  {| tableSink_s := tableSink_s t; tableSink_version := tableSink_version t;
     state_advanced := state_advanced t; state_resolvedTs := state_resolvedTs t;
     state_checkpointTs := state_checkpointTs t;
     state_lastSyncedTs := state_lastSyncedTs t; state := state t;
     startTs := startTs t; barrierTs := barrierTs t;
     receivedSorterResolvedTs := receivedSorterResolvedTs t;
     replicateTs := ts |}.

(** The error of a wrapper whose sink field is nil. *)
Definition sinkCleared : error := SinkInternalError "table sink cleared".

(** [newTableSinkWrapper]; [now] is [time.Now()]. *)
Definition newTableSinkWrapper (st : TableState) (startTs now : Z) : tableSinkWrapper :=
  {| tableSink_s := None; tableSink_version := 0;
     state_advanced := now;
     state_resolvedTs := NewResolvedTs startTs;
     state_checkpointTs := NewResolvedTs startTs;
     state_lastSyncedTs := 0;
     state := st;
     startTs := startTs; barrierTs := startTs;
     receivedSorterResolvedTs := startTs;
     replicateTs := 0 |}.

(** [start].  [None] is [log.Panic].  [gen] is what [t.genReplicateTs(ctx)]
    returns; its first component is stored in [replicateTs] whether or not
    the second is an error.  The compare-and-swap loop on
    [receivedSorterResolvedTs] leaves the larger of the old value and
    [startTs]. *)
Definition start (t : tableSinkWrapper) (startTs : Z) (gen : Z * option error)
    (now : Z) : option (tableSinkWrapper * option error) :=
  if negb (replicateTs t =? 0) then None
  else
    let t := with_replicateTs t (fst gen) in
    match snd gen with
    | Some err => Some (t, Some err)
    | None =>
        let old := receivedSorterResolvedTs t in
        let t := if startTs <=? old then t
                 else with_receivedSorterResolvedTs t startTs in
        let t :=
          if Greater (NewResolvedTs startTs) (state_checkpointTs t) then
            with_advanced
              (with_resolvedTs
                 (with_checkpointTs t (NewResolvedTs startTs))
                 (NewResolvedTs startTs))
              now
          else t in
        Some (with_state t TableStateReplicating, None)
    end.

(** [appendRowChangedEvents]. *)
Definition appendRowChangedEvents (t : tableSinkWrapper)
    (events : list RowChangedEvent) : tableSinkWrapper * option error :=
  match tableSink_s t with
  | None => (t, Some sinkCleared)
  | Some s =>
      (with_sink t (Some (AppendRowChangedEvents s events)) (tableSink_version t),
       None)
  end.

(** [updateBarrierTs]: the compare-and-swap loop stores [ts] unless
    [ts <= old]. *)
Definition updateBarrierTs (t : tableSinkWrapper) (ts : Z) : tableSinkWrapper :=
  if ts <=? barrierTs t then t else with_barrierTs t ts.

(** [updateReceivedSorterResolvedTs]. *)
Definition updateReceivedSorterResolvedTs (t : tableSinkWrapper) (ts : Z)
    : tableSinkWrapper :=
  if ts <=? receivedSorterResolvedTs t then t
  else
    let t := with_receivedSorterResolvedTs t ts in
    if TableState_eqb (state t) TableStatePreparing
    then with_state t TableStatePrepared else t.

(** [updateResolvedTs]. *)
Definition updateResolvedTs (t : tableSinkWrapper) (ts : ResolvedTs)
    : tableSinkWrapper * option error :=
  match tableSink_s t with
  | None => (t, Some sinkCleared)
  | Some s =>
      let t := with_resolvedTs t ts in
      let '(s', err) := UpdateResolvedTs s ts in
      (with_sink t (Some s') (tableSink_version t), err)
  end.

(** [getLastSyncedTs]. *)
Definition getLastSyncedTs (t : tableSinkWrapper) : Z :=
  match tableSink_s t with
  | Some s => GetLastSyncedTs s
  | None => state_lastSyncedTs t
  end.

(** [getCheckpointTs]: the wrapper after the call and the returned value. *)
Definition getCheckpointTs (t : tableSinkWrapper) (now : Z)
    : tableSinkWrapper * ResolvedTs :=
  let t :=
    match tableSink_s t with
    | Some s =>
        let checkpointTs := GetCheckpointTs s in
        if Less (state_checkpointTs t) checkpointTs then
          with_advanced (with_checkpointTs t checkpointTs) now
        else if negb (Less checkpointTs (state_resolvedTs t)) then
          with_advanced t now
        else t
    | None => t
    end in
  (t, state_checkpointTs t).

Definition getReceivedSorterResolvedTs (t : tableSinkWrapper) : Z :=
  receivedSorterResolvedTs t.

Definition getState (t : tableSinkWrapper) : TableState := state t.

(** [getUpperBoundTs]. *)
Definition getUpperBoundTs (t : tableSinkWrapper) : Z :=
  let resolvedTs := getReceivedSorterResolvedTs t in
  let barrierTs := barrierTs t in
  if resolvedTs >? barrierTs then barrierTs else resolvedTs.

(** [markAsClosing]. *)
Definition markAsClosing (t : tableSinkWrapper) : tableSinkWrapper :=
  if TableState_eqb (state t) TableStateStopped then t
  else with_state t TableStateStopping.

(** [isReady].  [created] is what [t.tableSinkCreator()] returns; both
    components are stored, also when the sink is nil. *)
Definition isReady (t : tableSinkWrapper) (created : option TableSink * Z)
    (now : Z) : tableSinkWrapper * bool :=
  match tableSink_s t with
  | None =>
      let t := with_sink t (fst created) (snd created) in
      match tableSink_s t with
      | Some _ => (with_advanced t now, true)
      | None => (t, false)
      end
  | Some _ => (t, true)
  end.

(** [clear]. *)
Definition clear (t : tableSinkWrapper) (now : Z) : tableSinkWrapper :=
  match tableSink_s t with
  | None => t
  | Some s =>
      let checkpointTs := GetCheckpointTs s in
      let t := if Less (state_checkpointTs t) checkpointTs
               then with_checkpointTs t checkpointTs else t in
      let t := with_resolvedTs t checkpointTs in
      let t := with_lastSyncedTs t (GetLastSyncedTs s) in
      let t := with_advanced t now in
      with_sink t None 0
  end.

(** [asyncClose].  The sink is read and asked to close under the read lock,
    which is released before [clear] takes the write lock: this is the call
    with no other call between the two.  When the sink is nil the source
    returns without releasing the read lock; the locks are not modelled, so
    calls that take the write lock afterwards block in the source and go on
    here: what is proved of executions is what they never do, not that they
    go on. *)
Definition asyncClose (t : tableSinkWrapper) (now : Z) : tableSinkWrapper * bool :=
  match tableSink_s t with
  | None => (t, true)
  | Some s =>
      let closed := AsyncClose s in
      if closed then (clear t now, closed) else (t, closed)
  end.

(** What [asyncStop] does once [asyncClose] has returned true:
    [t.state.Store(tablepb.TableStateStopped)]. *)
Definition storeStopped (t : tableSinkWrapper) : tableSinkWrapper :=
  with_state t TableStateStopped.

(** [asyncStop], when no other call runs between its critical sections
    ([markAsClosing], the two of [asyncClose], the store of the state); see
    [asyncStopAmong] below for the call among other calls. *)
Definition asyncStop (t : tableSinkWrapper) (now : Z) : tableSinkWrapper * bool :=
  let t := markAsClosing t in
  let '(t, closed) := asyncClose t now in
  if closed then (with_state t TableStateStopped, true) else (t, false).

(** [Close].  The call [t.tableSink.s.Close()] blocks until the sink is
    closed; [closed] is what the sink shows when the call returns. *)
Definition Close (t : tableSinkWrapper) (closed : TableSink) : tableSinkWrapper :=
  match tableSink_s t with
  | None => t
  | Some _ => with_sink t (Some closed) (tableSink_version t)
  end.

(** [closeAndClear]. *)
Definition closeAndClear (t : tableSinkWrapper) (closed : TableSink) (now : Z)
    : tableSinkWrapper :=
  clear (Close t closed) now.

(** [restart]. *)
Definition restart (t : tableSinkWrapper) (gen : Z * option error)
    : tableSinkWrapper * option error :=
  (with_replicateTs t (fst gen), snd gen).

(** The second critical section of [sinkMaybeStuck], under the read locks.
    [since] is the clock [time.Since(advanced)] reads; durations are
    integers like the times. *)
Definition stuckSince (t : tableSinkWrapper) (stuckCheck since : Z) : bool * Z :=
  let version := tableSink_version t in
  let advanced := state_advanced t in
  if (version >? 0) && (since - advanced >? stuckCheck) then (true, version)
  else (false, 0).

(** [sinkMaybeStuck], when no other call runs between [getCheckpointTs] and
    the second critical section.  The clock is read twice: [now] is
    [time.Now()] inside [getCheckpointTs], [since] the later reading of
    [time.Since]. *)
Definition sinkMaybeStuck (t : tableSinkWrapper) (stuckCheck now since : Z)
    : tableSinkWrapper * (bool * Z) :=
  let '(t, _) := getCheckpointTs t now in
  (t, stuckSince t stuckCheck since).

(** [handleRowChangedEvents].  A [*model.PolymorphicEvent] is nil-able, and so
    is its [Row].  [ApproximateBytes] is the method of [model.RowChangedEvent]
    of that name (package [model] is not among the sources); it returns an
    [int]. *)
Section HandleRowChangedEvents.
Variable ApproximateBytes : RowChangedEvent -> Z.

Fixpoint handleRowChangedEventsLoop (events : list (option PolymorphicEvent))
    (size : Z) (rowChangedEvents : list RowChangedEvent)
    : list RowChangedEvent * Z :=
  match events with
  | [] => (rowChangedEvents, size)
  | e :: events =>
      match e with
      | None => handleRowChangedEventsLoop events size rowChangedEvents
      | Some e =>
          match Row e with
          | None => handleRowChangedEventsLoop events size rowChangedEvents
          | Some rowEvent =>
              if Nat.eqb (length (Columns rowEvent)) 0
                 && Nat.eqb (length (PreColumns rowEvent)) 0
              then handleRowChangedEventsLoop events size rowChangedEvents
              else handleRowChangedEventsLoop events
                     (add_int size (ApproximateBytes rowEvent))
                     (rowChangedEvents ++ [rowEvent])
          end
      end
  end.

Definition handleRowChangedEvents (events : list (option PolymorphicEvent))
    : list RowChangedEvent * Z :=
  let '(rowChangedEvents, size) := handleRowChangedEventsLoop events 0 [] in
  (rowChangedEvents, to_uint64 size).

End HandleRowChangedEvents.

(** The row an event contributes, if any. *)
Definition emittedRow (e : option PolymorphicEvent) : option RowChangedEvent :=
  match e with
  | Some {| Row := Some rowEvent |} =>
      match Columns rowEvent, PreColumns rowEvent with
      | [], [] => None
      | _, _ => Some rowEvent
      end
  | _ => None
  end.

(** The sum of the sizes of a list of rows, as a mathematical integer. *)
Definition sumBytes (ApproximateBytes : RowChangedEvent -> Z)
    (rows : list RowChangedEvent) : Z :=
  foldr (fun r acc => ApproximateBytes r + acc) 0 rows.

(** *** Executions of one wrapper

    The calls other goroutines make on one wrapper, in the order in which
    they take its locks, interleaved with the steps of the downstream sink
    ([SinkProgress]: the sink held by the wrapper, if any, now shows [s]).
    [asyncStop], [asyncClose], [closeAndClear] and [sinkMaybeStuck] release
    the locks between their critical sections.  Each of these sections that
    writes the wrapper is a call of its own here ([CallMarkAsClosing],
    [CallClear], [CallClose], [CallGetCheckpointTs], [CallStoreStopped]), so
    an execution in which other calls fall between the sections of one method
    is a list of calls as well; [CallAsyncStop], [CallAsyncClose],
    [CallCloseAndClear] and [CallSinkMaybeStuck] are the runs with nothing in
    between. *)
Inductive call :=
| CallStart (startTs : Z) (gen : Z * option error) (now : Z)
| CallAppendRowChangedEvents (events : list RowChangedEvent)
| CallUpdateBarrierTs (ts : Z)
| CallUpdateReceivedSorterResolvedTs (ts : Z)
| CallUpdateResolvedTs (ts : ResolvedTs)
| CallGetCheckpointTs (now : Z)
| CallMarkAsClosing
| CallAsyncStop (now : Z)
| CallIsReady (created : option TableSink * Z) (now : Z)
| CallAsyncClose (now : Z)
| CallClose (closed : TableSink)
| CallClear (now : Z)
| CallCloseAndClear (closed : TableSink) (now : Z)
| CallRestart (gen : Z * option error)
| CallSinkMaybeStuck (stuckCheck now since : Z)
| SinkProgress (s : TableSink)
| CallStoreStopped.

(** One call: [None] when the process panics, otherwise the wrapper after the
    call and, for [getCheckpointTs], the value returned. *)
Definition step (t : tableSinkWrapper) (c : call)
    : option (tableSinkWrapper * option ResolvedTs) :=
  match c with
  | CallStart startTs gen now =>
      match start t startTs gen now with
      | None => None
      | Some (t', _) => Some (t', None)
      end
  | CallAppendRowChangedEvents events => Some (fst (appendRowChangedEvents t events), None)
  | CallUpdateBarrierTs ts => Some (updateBarrierTs t ts, None)
  | CallUpdateReceivedSorterResolvedTs ts => Some (updateReceivedSorterResolvedTs t ts, None)
  | CallUpdateResolvedTs ts => Some (fst (updateResolvedTs t ts), None)
  | CallGetCheckpointTs now =>
      let '(t', r) := getCheckpointTs t now in Some (t', Some r)
  | CallMarkAsClosing => Some (markAsClosing t, None)
  | CallAsyncStop now => Some (fst (asyncStop t now), None)
  | CallIsReady created now => Some (fst (isReady t created now), None)
  | CallAsyncClose now => Some (fst (asyncClose t now), None)
  | CallClose closed => Some (Close t closed, None)
  | CallClear now => Some (clear t now, None)
  | CallCloseAndClear closed now => Some (closeAndClear t closed now, None)
  | CallRestart gen => Some (fst (restart t gen), None)
  | CallSinkMaybeStuck stuckCheck now since =>
      Some (fst (sinkMaybeStuck t stuckCheck now since), None)
  | SinkProgress s =>
      match tableSink_s t with
      | None => Some (t, None)
      | Some _ => Some (with_sink t (Some s) (tableSink_version t), None)
      end
  | CallStoreStopped => Some (storeStopped t, None)
  end.

(** The values [getCheckpointTs] returns along an execution, in order; the
    execution ends at a panic. *)
Fixpoint observedCheckpoints (t : tableSinkWrapper) (calls : list call)
    : list ResolvedTs :=
  match calls with
  | [] => []
  | c :: calls =>
      match step t c with
      | None => []
      | Some (t', Some r) => r :: observedCheckpoints t' calls
      | Some (t', None) => observedCheckpoints t' calls
      end
  end.

(** The wrapper at the end of an execution ([None] after a panic). *)
Fixpoint runCalls (t : tableSinkWrapper) (calls : list call) : option tableSinkWrapper :=
  match calls with
  | [] => Some t
  | c :: calls =>
      match step t c with
      | None => None
      | Some (t', _) => runCalls t' calls
      end
  end.

(** [asyncStop] among other calls.  [before] are the calls that run between
    [markAsClosing] and the reading of the sink in [asyncClose], [during]
    those between that reading and [clear] (or, when the sink was nil, the
    store of the state), [after] those between [clear] and the store of the
    state.  [None] when one of the other calls panics. *)
Definition asyncStopAmong (t : tableSinkWrapper) (now : Z)
    (before during after : list call) : option (tableSinkWrapper * bool) :=
  match runCalls (markAsClosing t) before with
  | None => None
  | Some t =>
      match tableSink_s t with
      | None =>
          match runCalls t (during ++ after) with
          | None => None
          | Some t => Some (storeStopped t, true)
          end
      | Some s =>
          if AsyncClose s then
            match runCalls t during with
            | None => None
            | Some t =>
                match runCalls (clear t now) after with
                | None => None
                | Some t => Some (storeStopped t, true)
                end
            end
          else Some (t, false)
      end
  end.

(** [sinkMaybeStuck] among other calls: [between] are the calls that run
    between [getCheckpointTs] and the second critical section. *)
Definition sinkMaybeStuckAmong (t : tableSinkWrapper) (stuckCheck now : Z)
    (between : list call) (since : Z) : option (tableSinkWrapper * (bool * Z)) :=
  match runCalls (fst (getCheckpointTs t now)) between with
  | None => None
  | Some t => Some (t, stuckSince t stuckCheck since)
  end.

(** *** Scenario S1: one wrapper, two sinks

    A sink that has made no progress beyond [ts], and a sink that fails to
    take a new frontier. *)
Definition freshSink (ts : Z) : TableSink :=
  {| appended := []; frontier := None; updateResolvedTsErr := None;
     checkpointTs := NewResolvedTs ts; lastSyncedTs := 0; asyncClosed := true |}.

Definition failingSink (ts : Z) : TableSink :=
  {| appended := []; frontier := None;
     updateResolvedTsErr := Some (OtherError "write failed");
     checkpointTs := NewResolvedTs ts; lastSyncedTs := 0; asyncClosed := true |}.

(** The wrapper is built with start-ts 100 and gets a first sink; the sink
    reports checkpoint 150; the wrapper is closed and cleared, and [isReady]
    attaches a second sink that starts over from 100. *)
Definition reconstructionCalls : list call :=
  [ CallIsReady (Some (freshSink 100), 1) 1;
    CallGetCheckpointTs 2;
    SinkProgress (freshSink 150);
    CallGetCheckpointTs 3;
    CallCloseAndClear (freshSink 150) 4;
    CallGetCheckpointTs 5;
    CallIsReady (Some (freshSink 100), 2) 6;
    CallGetCheckpointTs 7 ].

Definition reconstructedWrapper : tableSinkWrapper :=
  match runCalls (newTableSinkWrapper TableStatePreparing 100 0) reconstructionCalls with
  | Some t => t
  | None => newTableSinkWrapper TableStatePreparing 100 0
  end.

(** [genReplicateTs].  [retry.Do] (package [retry] is not among the sources)
    runs the closure one or more times: [attempts] are the answers of
    [pdClient.GetTS] in these runs, in order, and [doErr] is what [retry.Do]
    returns.  The closure assigns [replicateTs] in each run that succeeds. *)
Definition genReplicateTs (attempts : list (Z * Z * option error))
    (doErr : option error) : Z * option error :=
  let replicateTs :=
    fold_left (fun replicateTs attempt =>
                 match attempt with
                 | (phy, logic, None) => oracle.ComposeTS phy logic
                 | (_, _, Some _) => replicateTs
                 end) attempts 0 in
  match doErr with
  | Some err => (0, Some err)
  | None => (replicateTs, None)
  end.




(** The three fields no sink operation writes. *)
Definition timestamps (t : tableSinkWrapper) : Z * Z * Z :=
  (barrierTs t, receivedSorterResolvedTs t, startTs t).

End sinkmanager.

(** ** The consumer *)

Module consumer.
Import model tablesink.

(** [sort.Slice]: Go documents that it "sorts the slice x given the provided
    less function" and that "the sort is not guaranteed to be stable: equal
    elements may be reversed from their original order".  The program is
    modelled over every sorting function of that contract: the result is a
    rearrangement of the slice, in order for a [less] that compares a key. *)
Class SliceSorter := {
  sortSlice : forall A : Type, (A -> A -> bool) -> list A -> list A;
  sortSlice_Permutation :
    forall (A : Type) (less : A -> A -> bool) (x : list A),
      Permutation (sortSlice A less x) x;
  sortSlice_Sorted :
    forall (A : Type) (key : A -> Z) (x : list A),
      Sorted (fun a b => key a <= key b)
             (sortSlice A (fun a b => key a <? key b) x)
}.

(** *** Event groups *)

Record eventsGroup := mkEventsGroup { events : list RowChangedEvent }.

Definition newEventsGroup : eventsGroup := {| events := [] |}.

Definition Append (g : eventsGroup) (e : RowChangedEvent) : eventsGroup :=
  {| events := events g ++ [e] |}.

(** [eventsGroup.Resolve]: the returned slice and the group afterwards. *)
Definition Resolve `{SliceSorter} (g : eventsGroup) (resolveTs : Z)
    : list RowChangedEvent * eventsGroup :=
  let sorted := sortSlice RowChangedEvent
                  (fun a b => CommitTs a <? CommitTs b) (events g) in
  let i := Search (length sorted)
             (fun i => match sorted !! i with
                       | Some e => CommitTs e >? resolveTs
                       | None => false
                       end) in
  let result := take i sorted in
  (result, {| events := drop i sorted |}).

(** *** DDL queue *)

(** [model.DDLEvent]; the queue holds pointers, and [appendDDL] compares
    pointers: [ptr] is the address of the event. *)
Record DDLEvent := mkDDLEvent {
  ptr : Z;
  DDL_CommitTs : Z;
  Query : string
}.

(** *** Partition sinks *)

(** [partitionSinks].  [tablesCommitTsMap] is a [sync.Map] that the program
    only stores into and ranges over: it is the list of its entries in the
    order of [Range].  [tableSinksMap] maps a table id to its table sink. *)
Record partitionSinks := mkPartitionSinks {
  tablesCommitTsMap : list (Z * Z);
  tableSinksMap : gmap Z TableSink;
  resolvedTs : Z
}.

Definition with_tableSinksMap (sink : partitionSinks) (m : gmap Z TableSink) :=
  {| tablesCommitTsMap := tablesCommitTsMap sink;
     tableSinksMap := m;
     resolvedTs := resolvedTs sink |}.

Definition with_partitionResolvedTs (sink : partitionSinks) (ts : Z) :=
  {| tablesCommitTsMap := tablesCommitTsMap sink;
     tableSinksMap := tableSinksMap sink;
     resolvedTs := ts |}.

(** What a call of the program ends with: a value, or a [log.Panic]. *)
Inductive result (A : Type) :=
| Done (a : A)
| Panic (msg : string).
Arguments Done {A} a.
Arguments Panic {A} msg.

(** One [sink.tablesCommitTsMap.Range(...)] of [syncFlushRowChangedEvents]:
    the table sinks after the calls made on them and the final value of
    [flushedResolvedTs].  A failed [UpdateResolvedTs] ends the range (the
    callback returns false). *)
Fixpoint flushRange (entries : list (Z * Z)) (sinks : gmap Z TableSink)
    (resolvedTs : Z) (flushedResolvedTs : bool)
    : result (gmap Z TableSink * bool) :=
  match entries with
  | [] => Done (sinks, flushedResolvedTs)
  | (tableID, _) :: entries =>
      let resolved := NewResolvedTs resolvedTs in
      match sinks !! tableID with
      | None => Panic "Table sink not found"
      | Some tableSink =>
          let '(tableSink, err) := UpdateResolvedTs tableSink resolved in
          let sinks := <[tableID := tableSink]> sinks in
          match err with
          | Some _ => Done (sinks, flushedResolvedTs)
          | None =>
              let flushedResolvedTs :=
                if negb (EqualOrGreater (GetCheckpointTs tableSink) resolved)
                then false else flushedResolvedTs in
              flushRange entries sinks resolvedTs flushedResolvedTs
          end
      end
  end.

(** [syncFlushRowChangedEvents].  The loop has no bound of its own: [fuel]
    bounds the number of rounds and [None] is "still looping".  Round [k]
    begins by reading the context ([ctxDone k] is the error of a cancelled
    context) and sees the table sinks as the downstream left them
    ([progress k], an environment step on the sinks). *)
Fixpoint syncFlushRowChangedEventsFrom (fuel : nat) (k : nat)
    (ctxDone : nat -> option error)
    (progress : nat -> gmap Z TableSink -> gmap Z TableSink)
    (sink : partitionSinks) (resolvedTs : Z)
    : option (result (partitionSinks * option error)) :=
  match fuel with
  | O => None
  | S fuel =>
      match ctxDone k with
      | Some err => Some (Done (sink, Some err))
      | None =>
          match flushRange (tablesCommitTsMap sink)
                           (progress k (tableSinksMap sink)) resolvedTs true with
          | Panic msg => Some (Panic msg)
          | Done (sinks, flushedResolvedTs) =>
              let sink := with_tableSinksMap sink sinks in
              if flushedResolvedTs then Some (Done (sink, None))
              else syncFlushRowChangedEventsFrom fuel (S k) ctxDone progress
                     sink resolvedTs
          end
      end
  end.

Definition syncFlushRowChangedEvents (fuel : nat)
    (ctxDone : nat -> option error)
    (progress : nat -> gmap Z TableSink -> gmap Z TableSink)
    (sink : partitionSinks) (resolvedTs : Z) :=
  syncFlushRowChangedEventsFrom fuel 0 ctxDone progress sink resolvedTs.

(** *** Fake table ids *)

Record fakeTableIDGenerator := mkFakeTableIDGenerator {
  tableIDs : gmap string Z;
  currentTableID : Z
}.

(** The generator [NewConsumer] builds. *)
Definition newFakeTableIDGenerator : fakeTableIDGenerator :=
  {| tableIDs := ∅; currentTableID := 0 |}.

Section GenerateFakeTableID.
(** [quotes.QuoteSchema] (package [quotes] is not among the sources). *)
Variable QuoteSchema : string -> string -> string.

(** The key of a table: [fmt.Sprintf] with [%d] prints the decimal digits of
    the partition, with a minus sign if it is negative. *)
Definition tableKey (schema table : string) (partition : Z) : string :=
  let key := QuoteSchema schema table in
  if negb (partition =? 0) then key +:+ ".`" +:+ pretty partition +:+ "`"
  else key.

(** [generateFakeTableID]: the returned id and the generator afterwards. *)
Definition generateFakeTableID (g : fakeTableIDGenerator)
    (schema table : string) (partition : Z) : Z * fakeTableIDGenerator :=
  let key := tableKey schema table partition in
  match tableIDs g !! key with
  | Some tableID => (tableID, g)
  | None =>
      let current := to_int64 (currentTableID g + 1) in
      (current, {| tableIDs := <[key := current]> (tableIDs g);
                   currentTableID := current |})
  end.

(** The ids returned by a sequence of calls, and the generator afterwards. *)
Fixpoint generateAll (g : fakeTableIDGenerator) (calls : list (string * string * Z))
    : list Z * fakeTableIDGenerator :=
  match calls with
  | [] => ([], g)
  | (schema, table, partition) :: calls =>
      let '(tableID, g) := generateFakeTableID g schema table partition in
      let '(ids, g) := generateAll g calls in
      (tableID :: ids, g)
  end.

End GenerateFakeTableID.

(** A quoting function to run the generator with: each name between
    backquotes, a backquote inside a name doubled, a dot between the two. *)
Definition backquote : ascii := "`"%char.

Fixpoint escapeName (name : string) : string :=
  match name with
  | EmptyString => EmptyString
  | String c rest =>
      if Ascii.eqb c backquote
      then String backquote (String backquote (escapeName rest))
      else String c (escapeName rest)
  end.

Definition backquoteSchema (schema table : string) : string :=
  "`" +:+ escapeName schema +:+ "`.`" +:+ escapeName table +:+ "`".

(** *** The driver *)

(** [Consumer], with the fields [Run] and [appendDDL] use. *)
Record Consumer := mkConsumer {
  ddlList : list DDLEvent;
  ddlWithMaxCommitTs : option DDLEvent;
  sinks : list partitionSinks;
  globalResolvedTs : Z
}.

Definition with_ddl (c : Consumer) (l : list DDLEvent) (m : option DDLEvent) :=
  {| ddlList := l; ddlWithMaxCommitTs := m;
     sinks := sinks c; globalResolvedTs := globalResolvedTs c |}.

Definition with_sinks (c : Consumer) (l : list partitionSinks) :=
  {| ddlList := ddlList c; ddlWithMaxCommitTs := ddlWithMaxCommitTs c;
     sinks := l; globalResolvedTs := globalResolvedTs c |}.

Definition with_globalResolvedTs (c : Consumer) (ts : Z) :=
  {| ddlList := ddlList c; ddlWithMaxCommitTs := ddlWithMaxCommitTs c;
     sinks := sinks c; globalResolvedTs := ts |}.

(** The consumer [NewConsumer] builds for [partitionNum] partitions. *)
Definition newConsumer (partitionNum : nat) : Consumer :=
  {| ddlList := []; ddlWithMaxCommitTs := None;
     sinks := replicate partitionNum
                {| tablesCommitTsMap := []; tableSinksMap := ∅; resolvedTs := 0 |};
     globalResolvedTs := 0 |}.

(** [appendDDL]. *)
Definition appendDDL (c : Consumer) (ddl : DDLEvent) : result Consumer :=
  let fallback :=
    match ddlWithMaxCommitTs c with
    | Some m => DDL_CommitTs ddl <? DDL_CommitTs m
    | None => false
    end in
  if fallback then Panic "DDL CommitTs < maxCommitTsDDL.CommitTs"
  else
    let redundant :=
      match ddlWithMaxCommitTs c with
      | Some m => ptr ddl =? ptr m
      | None => false
      end in
    if redundant then Done c
    else Done (with_ddl c (ddlList c ++ [ddl]) (Some ddl)).

Definition getFrontDDL (c : Consumer) : option DDLEvent :=
  match ddlList c with
  | ddl :: _ => Some ddl
  | [] => None
  end.

Definition popDDL (c : Consumer) : Consumer * option DDLEvent :=
  match ddlList c with
  | ddl :: rest => (with_ddl c rest (ddlWithMaxCommitTs c), Some ddl)
  | [] => (c, None)
  end.

(** [getMinPartitionResolvedTs]; its error is always nil. *)
Definition getMinPartitionResolvedTs (c : Consumer) : Z :=
  fold_left (fun result sink =>
               let a := resolvedTs sink in
               if a <? result then a else result)
            (sinks c) (two64 - 1).

(** What one round of the loop of [Run] asks of the outside, in order. *)
Inductive action :=
| FlushEverySink (resolvedTs : Z)
| WriteDDLEvent (ddl : DDLEvent).

(** How one round of the loop of [Run] ends. *)
Inductive round :=
| NextRound (c : Consumer)
| Return (c : Consumer) (err : error)
| Panicked (msg : string).

(** One round of the loop of [Run], after the ticker fired.  The two
    [forEachSink(... syncFlushRowChangedEvents ...)] and [WriteDDLEvent]
    write neither [globalResolvedTs] nor the DDL queue; the round takes the
    error each of them returns ([ctx] is the error of a cancelled context at
    the [select]) and lists what it asked for. *)
Definition runRound (c : Consumer)
    (ctx flushDDL writeDDL flushGlobal : option error) : round * list action :=
  match ctx with
  | Some err => (Return c err, [])
  | None =>
      let minPartitionResolvedTs := getMinPartitionResolvedTs c in
      let todoDDL := getFrontDDL c in
      let ddlPhase : (Consumer * Z * list action) + (error * list action) :=
        match todoDDL with
        | Some ddl =>
            if DDL_CommitTs ddl <=? minPartitionResolvedTs then
              match flushDDL with
              | Some err => inr (err, [FlushEverySink (DDL_CommitTs ddl)])
              | None =>
                  match writeDDL with
                  | Some err =>
                      inr (err, [FlushEverySink (DDL_CommitTs ddl); WriteDDLEvent ddl])
                  | None =>
                      inl (fst (popDDL c), DDL_CommitTs ddl,
                           [FlushEverySink (DDL_CommitTs ddl); WriteDDLEvent ddl])
                  end
              end
            else inl (c, minPartitionResolvedTs, [])
        | None => inl (c, minPartitionResolvedTs, [])
        end in
      match ddlPhase with
      | inr (err, log) => (Return c err, log)
      | inl (c, minPartitionResolvedTs, log) =>
          if globalResolvedTs c >? minPartitionResolvedTs then
            (Panicked "global ResolvedTs fallback", log)
          else
            let c := if globalResolvedTs c <? minPartitionResolvedTs
                     then with_globalResolvedTs c minPartitionResolvedTs else c in
            let log := log ++ [FlushEverySink (globalResolvedTs c)] in
            match flushGlobal with
            | Some err => (Return c err, log)
            | None => (NextRound c, log)
            end
      end
  end.

(** The value [minPartitionResolvedTs] has when [Run] compares it with
    [globalResolvedTs]: the commit-ts of the front DDL if that DDL is
    executed in this round. *)
Definition adjustedMinPartitionResolvedTs (c : Consumer) : Z :=
  match getFrontDDL c with
  | Some ddl =>
      if DDL_CommitTs ddl <=? getMinPartitionResolvedTs c
      then DDL_CommitTs ddl else getMinPartitionResolvedTs c
  | None => getMinPartitionResolvedTs c
  end.

(** *** Executions of the consumer

    The driver runs beside the goroutines that consume messages.  These
    store a partition's resolved-ts ([StoreResolvedTs i ts] is
    [atomic.StoreUint64(&sink.resolvedTs, ts)] on partition [i]) and append
    DDLs.  Here a round of the driver is one event ([Tick]): these are the
    executions in which no message is consumed while a round runs.  The
    executions in which messages are consumed between the statements of a
    round are below ([interleaving]). *)
Inductive event :=
| StoreResolvedTs (partition : nat) (ts : Z)
| ReceiveDDL (ddl : DDLEvent)
| Tick (ctx flushDDL writeDDL flushGlobal : option error).

Definition storeResolvedTs (c : Consumer) (partition : nat) (ts : Z) : Consumer :=
  match sinks c !! partition with
  | Some sink =>
      with_sinks c (<[partition := with_partitionResolvedTs sink ts]> (sinks c))
  | None => c
  end.

Definition stepEvent (c : Consumer) (e : event) : round :=
  match e with
  | StoreResolvedTs partition ts => NextRound (storeResolvedTs c partition ts)
  | ReceiveDDL ddl =>
      match appendDDL c ddl with
      | Done c => NextRound c
      | Panic msg => Panicked msg
      end
  | Tick ctx flushDDL writeDDL flushGlobal =>
      fst (runRound c ctx flushDDL writeDDL flushGlobal)
  end.

(** The consumers an execution goes through (the one it starts from
    included), and how it ends if it ends. *)
Fixpoint execution (c : Consumer) (events : list event)
    : list Consumer * option round :=
  match events with
  | [] => ([c], None)
  | e :: events =>
      match stepEvent c e with
      | NextRound c' =>
          let '(cs, ending) := execution c' events in (c :: cs, ending)
      | ending => ([c], Some ending)
      end
  end.

(** *** The driver among the consumers of messages

    [Run] holds no lock across a round: it takes [ddlListMu] inside
    [getFrontDDL] and inside [popDDL], and no lock for [globalResolvedTs],
    which it alone writes.  [getMinPartitionResolvedTs] holds [sinksMu] while
    it reads the partitions one after the other, but a partition's
    resolved-ts is stored by [atomic.StoreUint64] without that lock.  A
    message can therefore be consumed between any two statements of a round,
    and a resolved-ts stored between the readings of two partitions.
    [position] is the statement of [Run] the driver is about to execute,
    with the local variables it holds there: in [getMinPartitionResolvedTs]
    the index of the partition to read and [result]; afterwards
    [minPartitionResolvedTs] and [todoDDL].  After the test at line 679 the
    value read into [minPartitionResolvedTs] is used by the log at 693-697
    only, and line 698 overwrites it. *)
Inductive position :=
| AtSelect
| AtGetMin (partition : nat) (result : Z)
| AtGetFrontDDL (minPartitionResolvedTs : Z)
| AtFlushDDL (todoDDL : DDLEvent)
| AtWriteDDL (todoDDL : DDLEvent)
| AtPopDDL (todoDDL : DDLEvent)
| AtCompare (minPartitionResolvedTs : Z)
| AtFlushGlobal.

Record driver := mkDriver {
  shared : Consumer;
  pos : position
}.

Definition startDriver (c : Consumer) : driver := {| shared := c; pos := AtSelect |}.

(** What a step leads to: the driver goes on, [Run] returns an error, or the
    process panics. *)
Inductive stepResult :=
| Goes (d : driver)
| Returns (c : Consumer) (err : error)
| Panics (msg : string).

(** The next statement of [Run].  [answer] is what the outside answers where
    the statement asks it: the context's error at the [select], the error of
    the flushes and of [WriteDDLEvent]; the other statements do not look at
    it.  The flushes and [WriteDDLEvent] change the table sinks and the
    downstream only, which no statement of [Run] reads; a flush that panics
    ("Table sink not found", see [flushRange]) is not among the steps: they
    are the steps of runs whose flushes return.  The comparison and the
    assignment of lines 702-710 are one step: no other goroutine writes
    [globalResolvedTs]. *)
Definition drive (d : driver) (answer : option error) : stepResult :=
  let c := shared d in
  match pos d with
  | AtSelect =>
      match answer with
      | Some err => Returns c err
      | None => Goes {| shared := c; pos := AtGetMin 0 (two64 - 1) |}
      end
  | AtGetMin partition result =>
      match sinks c !! partition with
      | Some sink =>
          let a := resolvedTs sink in
          let result := if a <? result then a else result in
          Goes {| shared := c; pos := AtGetMin (S partition) result |}
      | None => Goes {| shared := c; pos := AtGetFrontDDL result |}
      end
  | AtGetFrontDDL minPartitionResolvedTs =>
      match getFrontDDL c with
      | Some todoDDL =>
          if DDL_CommitTs todoDDL <=? minPartitionResolvedTs
          then Goes {| shared := c; pos := AtFlushDDL todoDDL |}
          else Goes {| shared := c; pos := AtCompare minPartitionResolvedTs |}
      | None => Goes {| shared := c; pos := AtCompare minPartitionResolvedTs |}
      end
  | AtFlushDDL todoDDL =>
      match answer with
      | Some err => Returns c err
      | None => Goes {| shared := c; pos := AtWriteDDL todoDDL |}
      end
  | AtWriteDDL todoDDL =>
      match answer with
      | Some err => Returns c err
      | None => Goes {| shared := c; pos := AtPopDDL todoDDL |}
      end
  | AtPopDDL todoDDL =>
      Goes {| shared := fst (popDDL c); pos := AtCompare (DDL_CommitTs todoDDL) |}
  | AtCompare minPartitionResolvedTs =>
      if globalResolvedTs c >? minPartitionResolvedTs then
        Panics "global ResolvedTs fallback"
      else
        let c := if globalResolvedTs c <? minPartitionResolvedTs
                 then with_globalResolvedTs c minPartitionResolvedTs else c in
        Goes {| shared := c; pos := AtFlushGlobal |}
  | AtFlushGlobal =>
      match answer with
      | Some err => Returns c err
      | None => Goes {| shared := c; pos := AtSelect |}
      end
  end.

(** What happens next: a consumer of messages stores a partition's
    resolved-ts or appends a DDL, or the driver executes its next
    statement. *)
Inductive driverEvent :=
| Store (partition : nat) (ts : Z)
| Receive (ddl : DDLEvent)
| Drive (answer : option error).

Definition stepDriver (d : driver) (e : driverEvent) : stepResult :=
  match e with
  | Store partition ts =>
      Goes {| shared := storeResolvedTs (shared d) partition ts; pos := pos d |}
  | Receive ddl =>
      match appendDDL (shared d) ddl with
      | Done c => Goes {| shared := c; pos := pos d |}
      | Panic msg => Panics msg
      end
  | Drive answer => drive d answer
  end.

(** The states an interleaving goes through (the one it starts from
    included), and how it ends if it ends. *)
Fixpoint interleaving (d : driver) (events : list driverEvent)
    : list driver * option stepResult :=
  match events with
  | [] => ([d], None)
  | e :: events =>
      match stepDriver d e with
      | Goes d' =>
          let '(ds, ending) := interleaving d' events in (d :: ds, ending)
      | ending => ([d], Some ending)
      end
  end.

(** One round with no message consumed while it runs: the statements one
    after the other, from the [select] until the driver is back at it; each
    gets the answer meant for it.  A round has at most eight statements
    beside the readings of the partitions. *)
Definition answerAt (p : position) (ctx flushDDL writeDDL flushGlobal : option error)
    : option error :=
  match p with
  | AtSelect => ctx
  | AtFlushDDL _ => flushDDL
  | AtWriteDDL _ => writeDDL
  | AtFlushGlobal => flushGlobal
  | _ => None
  end.

Fixpoint driveRoundFrom (fuel : nat) (d : driver)
    (ctx flushDDL writeDDL flushGlobal : option error) : round :=
  match fuel with
  | O => NextRound (shared d)
  | S fuel =>
      match drive d (answerAt (pos d) ctx flushDDL writeDDL flushGlobal) with
      | Goes d' =>
          match pos d' with
          | AtSelect => NextRound (shared d')
          | _ => driveRoundFrom fuel d' ctx flushDDL writeDDL flushGlobal
          end
      | Returns c err => Return c err
      | Panics msg => Panicked msg
      end
  end.

Definition driveRound (c : Consumer)
    (ctx flushDDL writeDDL flushGlobal : option error) : round :=
  driveRoundFrom (length (sinks c) + 8) (startDriver c)
    ctx flushDDL writeDDL flushGlobal.

(** Per-partition monotonicity along an interleaving: every store on a
    partition writes a resolved-ts that is not below the one it replaces. *)
Fixpoint partitionsMonotonic (d : driver) (events : list driverEvent) : Prop :=
  match events with
  | [] => True
  | e :: events =>
      match e with
      | Store partition ts =>
          forall sink, sinks (shared d) !! partition = Some sink -> resolvedTs sink <= ts
      | _ => True
      end
      /\ match stepDriver d e with
         | Goes d' => partitionsMonotonic d' events
         | _ => True
         end
  end.

(** No DDL is received behind the partitions: its commit-ts is not below the
    minimum of the partitions' resolved-ts when [appendDDL] runs. *)
Fixpoint ddlsNotBehind (d : driver) (events : list driverEvent) : Prop :=
  match events with
  | [] => True
  | e :: events =>
      match e with
      | Receive ddl => getMinPartitionResolvedTs (shared d) <= DDL_CommitTs ddl
      | _ => True
      end
      /\ match stepDriver d e with
         | Goes d' => ddlsNotBehind d' events
         | _ => True
         end
  end.

(** The flush has caught up in a round: every entry has a table sink that
    accepts the target and shows a checkpoint equal to or greater than it. *)
Definition caughtUp (entries : list (Z * Z)) (sinks : gmap Z TableSink)
    (resolvedTs : Z) : Prop :=
  forall tableID cts, (tableID, cts) ∈ entries ->
    exists s, sinks !! tableID = Some s
              /\ updateResolvedTsErr s = None
              /\ EqualOrGreater (checkpointTs s) (NewResolvedTs resolvedTs) = true.

(** *** Consuming decoded messages

    The body of the decoding loop of [ConsumeMsg], one decoded message at a
    time.  What is outside this file is an argument: the decoder (its answers
    are the decoded messages), [c.eventRouter] ([target] is the partition it
    computes for a row, [None] when the router is nil),
    [c.sinkFactory.CreateTableSinkForConsumer] and [quotes.QuoteSchema].
    [partition] is not declared in the file; it is a parameter too.  Marking
    messages and logging are left out, and so are the panics on a decoding
    error and on the limits [maxMessageBytes] and [maxBatchSize]: the
    messages are those of a run that stays within them. *)

(** A row as decoded: the event, and the fields of [row.Table] that
    [RowChangedEvent] above does not carry. *)
Record decodedRow := mkDecodedRow {
  rowEvent : RowChangedEvent;
  rowSchema : string;
  rowTable : string;
  rowIsPartition : bool
}.

Inductive decodedMessage :=
| MessageTypeDDL (ddl : DDLEvent)
| MessageTypeRow (row : decodedRow) (target : option Z)
| MessageTypeResolved (ts : Z).

(** The state the loop works on: the consumer, its generator of table ids,
    and the local map [eventGroups]. *)
Record consuming := mkConsuming {
  consumer : Consumer;
  generator : fakeTableIDGenerator;
  eventGroups : gmap Z eventsGroup
}.

(** [sync.Map.Load] and [sync.Map.Store] on [tablesCommitTsMap]. *)
Fixpoint loadCommitTs (m : list (Z * Z)) (tableID : Z) : option Z :=
  match m with
  | [] => None
  | (k, v) :: m => if k =? tableID then Some v else loadCommitTs m tableID
  end.

Fixpoint storeCommitTs (m : list (Z * Z)) (tableID commitTs : Z) : list (Z * Z) :=
  match m with
  | [] => [(tableID, commitTs)]
  | (k, v) :: m =>
      if k =? tableID then (k, commitTs) :: m
      else (k, v) :: storeCommitTs m tableID commitTs
  end.

Definition setTableID (row : RowChangedEvent) (tableID : Z) : RowChangedEvent :=
  {| StartTs := StartTs row; CommitTs := CommitTs row; TableID := tableID;
     Columns := Columns row; PreColumns := PreColumns row |}.

Section ConsumeMsg.
Context `{SliceSorter}.
Variable QuoteSchema : string -> string -> string.
Variable CreateTableSinkForConsumer : Z -> Z -> TableSink.
Variable partition : Z.

(** The body of [for tableID, group := range eventGroups] for one table, on
    the partition's sinks. *)
Definition resolveTable (ts : Z) (sink : partitionSinks)
    (entry : Z * eventsGroup) : partitionSinks :=
  let '(tableID, group) := entry in
  let events := fst (Resolve group ts) in
  match head events, last events with
  | Some first, Some lastEvent =>
      let sinks :=
        match tableSinksMap sink !! tableID with
        | Some _ => tableSinksMap sink
        | None =>
            <[tableID := CreateTableSinkForConsumer tableID (CommitTs first)]>
              (tableSinksMap sink)
        end in
      let sinks :=
        match sinks !! tableID with
        | Some s => <[tableID := AppendRowChangedEvents s events]> sinks
        | None => sinks
        end in
      let commitTs := CommitTs lastEvent in
      let commits :=
        match loadCommitTs (tablesCommitTsMap sink) tableID with
        | Some lastCommitTs =>
            if lastCommitTs <? commitTs
            then storeCommitTs (tablesCommitTsMap sink) tableID commitTs
            else tablesCommitTsMap sink
        | None => storeCommitTs (tablesCommitTsMap sink) tableID commitTs
        end in
      {| tablesCommitTsMap := commits; tableSinksMap := sinks;
         resolvedTs := resolvedTs sink |}
  | _, _ => sink
  end.

(** One decoded message.  The partition's sinks are [c.sinks[0]], read when
    [ConsumeMsg] begins; the slice [c.sinks] never changes its length, so
    the test for a missing one is made with each message. *)
Definition consumeMessage (st : consuming) (m : decodedMessage) : result consuming :=
  match sinks (consumer st) !! 0%nat with
  | None => Panic "sink should initialized"
  | Some sink =>
      match m with
      | MessageTypeDDL ddl =>
          if partition =? 0 then
            match appendDDL (consumer st) ddl with
            | Done c => Done {| consumer := c; generator := generator st;
                                eventGroups := eventGroups st |}
            | Panic msg => Panic msg
            end
          else Done st
      | MessageTypeRow row target =>
          let wrong := match target with
                       | Some target => negb (partition =? target)
                       | None => false
                       end in
          if wrong then Panic "RowChangedEvent dispatched to wrong partition"
          else
            let globalResolvedTs := globalResolvedTs (consumer st) in
            let partitionResolvedTs := resolvedTs sink in
            let commitTs := CommitTs (rowEvent row) in
            if (commitTs <=? globalResolvedTs) || (commitTs <=? partitionResolvedTs)
            then Done st
            else
              let partitionID :=
                if rowIsPartition row then TableID (rowEvent row) else 0 in
              let '(tableID, g) :=
                generateFakeTableID QuoteSchema (generator st)
                  (rowSchema row) (rowTable row) partitionID in
              let rowEvent := setTableID (rowEvent row) tableID in
              let group := match eventGroups st !! tableID with
                           | Some group => group
                           | None => newEventsGroup
                           end in
              Done {| consumer := consumer st; generator := g;
                      eventGroups := <[tableID := Append group rowEvent]> (eventGroups st) |}
      | MessageTypeResolved ts =>
          let globalResolvedTs := globalResolvedTs (consumer st) in
          let partitionResolvedTs := resolvedTs sink in
          if (ts <? globalResolvedTs) || (ts <? partitionResolvedTs)
          then Done st
          else
            let sink := fold_left (resolveTable ts) (map_to_list (eventGroups st)) sink in
            let sink := with_partitionResolvedTs sink ts in
            Done {| consumer := with_sinks (consumer st) (<[0%nat := sink]> (sinks (consumer st)));
                    generator := generator st;
                    eventGroups := (fun group => snd (Resolve group ts)) <$> eventGroups st |}
      end
  end.

(** The messages of a list, in order, until a panic. *)
Fixpoint consumeMessages (st : consuming) (ms : list decodedMessage) : result consuming :=
  match ms with
  | [] => Done st
  | m :: ms =>
      match consumeMessage st m with
      | Done st => consumeMessages st ms
      | Panic msg => Panic msg
      end
  end.

End ConsumeMsg.

(** The state [ConsumeMsg] starts from on a consumer: no event buffered. *)
Definition startConsuming (c : Consumer) (g : fakeTableIDGenerator) : consuming :=
  {| consumer := c; generator := g; eventGroups := ∅ |}.

(** *** Definitions used by the statements and proofs *)

(** A sorting function of the contract of [sort.Slice] that leaves events of
    equal key in the reverse of their arrival order: merge sort on the
    reversed slice. *)
Definition reversingSort (A : Type) (less : A -> A -> bool) (x : list A) : list A :=
  @merge_sort A (fun a b => less b a = false)
    (fun a b => bool_eq_dec (less b a) false) (reverse x).

(** The loop of [getMinPartitionResolvedTs], from any starting value. *)
Definition minResolvedTs (l : list partitionSinks) (init : Z) : Z :=
  fold_left (fun result sink =>
               let a := resolvedTs sink in
               if a <? result then a else result) l init.

(** What the driver relies on: [globalResolvedTs] is not above any partition
    nor above any queued DDL, and the queue is in commit-ts order, below the
    DDL of maximal commit-ts. *)
Definition driverInv (c : Consumer) : Prop :=
  globalResolvedTs c <= getMinPartitionResolvedTs c
  /\ Forall (fun d => globalResolvedTs c <= DDL_CommitTs d) (ddlList c)
  /\ StronglySorted (fun a b => DDL_CommitTs a <= DDL_CommitTs b) (ddlList c)
  /\ match ddlWithMaxCommitTs c with
     | Some m => Forall (fun d => DDL_CommitTs d <= DDL_CommitTs m) (ddlList c)
     | None => ddlList c = []
     end.

(** Scenario S5: two partitions at 500 and a DDL of commit-ts 400.  The first
    round flushes to 400, writes the DDL, and flushes to the new global
    resolved-ts 400; the second round reaches 500. *)
Definition ddl400 : DDLEvent := {| ptr := 1; DDL_CommitTs := 400; Query := "create table t" |}.
Definition ddl450 : DDLEvent := {| ptr := 2; DDL_CommitTs := 450; Query := "alter table t" |}.

Definition interleaveEvents : list event :=
  [ StoreResolvedTs 0 500; StoreResolvedTs 1 500; ReceiveDDL ddl400;
    Tick None None None None; Tick None None None None ].

(** What the driver relies on while a round runs: the invariant of the
    consumer, and that the local variables of the round are not above the
    partitions nor, once the front DDL is dealt with, above the queued
    DDLs. *)
Definition driverSafe (d : driver) : Prop :=
  let c := shared d in
  driverInv c
  /\ match pos d with
     | AtGetMin partition result =>
         globalResolvedTs c <= result
         /\ result <= minResolvedTs (take partition (sinks c)) (two64 - 1)
     | AtGetFrontDDL m =>
         globalResolvedTs c <= m /\ m <= getMinPartitionResolvedTs c
     | AtFlushDDL todoDDL | AtWriteDDL todoDDL | AtPopDDL todoDDL =>
         head (ddlList c) = Some todoDDL
         /\ DDL_CommitTs todoDDL <= getMinPartitionResolvedTs c
     | AtCompare m =>
         globalResolvedTs c <= m /\ m <= getMinPartitionResolvedTs c
         /\ Forall (fun ddl => m <= DDL_CommitTs ddl) (ddlList c)
     | _ => True
     end.

(** The statements of a round that executes no DDL, and of one that executes
    the front DDL, for [partitionNum] partitions, every answer of the outside
    being nil. *)
Definition plainRound (partitionNum : nat) : list driverEvent :=
  replicate (partitionNum + 5) (Drive None).
Definition ddlRound (partitionNum : nat) : list driverEvent :=
  replicate (partitionNum + 8) (Drive None).

(** Scenario S5 with messages consumed while the rounds run: the DDL of
    commit-ts 400 is received first; the first round reads the first
    partition at 0, both partitions move to 500, and the round reads the
    second partition at 500. *)
Definition interleavedEvents : list driverEvent :=
  [ Receive ddl400; Drive None; Drive None; Store 0 500; Store 1 500;
    Drive None; Drive None; Drive None; Drive None; Drive None ]
  ++ ddlRound 2 ++ plainRound 2.

(** One partition that only moves forward (0, then 500), a round that lifts
    the global resolved-ts to 500, then a DDL of commit-ts 450, accepted by
    [appendDDL]: the next round panics. *)
Definition lateDDLEvents : list driverEvent :=
  [ Store 0 500 ] ++ plainRound 1 ++ [ Receive ddl450 ] ++ ddlRound 1.

(** The same DDL received while the first round runs, after the round has
    read the partition and the queue: [globalResolvedTs] is still 0 then. *)
Definition ddlInsideRoundEvents : list driverEvent :=
  [ Store 0 500; Drive None; Drive None; Drive None; Drive None;
    Receive ddl450; Drive None; Drive None ] ++ ddlRound 1.

(** The generator's invariant: ids are between 1 and the counter, and no id
    is given to two keys. *)
Definition generatorInv (g : fakeTableIDGenerator) : Prop :=
  0 <= currentTableID g
  /\ (forall k id, tableIDs g !! k = Some id -> 1 <= id <= currentTableID g)
  /\ (forall k1 k2 id,
        tableIDs g !! k1 = Some id -> tableIDs g !! k2 = Some id -> k1 = k2).

(** What may follow a closing backquote in a key: nothing, or a character
    other than a backquote. *)
Definition noBackquoteAhead (r : string) : Prop :=
  match r with
  | EmptyString => True
  | String c _ => c <> backquote
  end.

(** What [generateFakeTableID] appends to the quoted name. *)
Definition partitionSuffix (partition : Z) : string :=
  if negb (partition =? 0) then ".`" +:+ pretty partition +:+ "`" else "".

(** What the consumer keeps for the flushes of a partition: every table with
    a last-committed-ts has a table sink, and no last-committed-ts is above
    the partition's resolved-ts. *)
Definition flushable (sink : partitionSinks) : Prop :=
  forall tableID commitTs, (tableID, commitTs) ∈ tablesCommitTsMap sink ->
    is_Some (tableSinksMap sink !! tableID) /\ commitTs <= resolvedTs sink.

(** Every buffered event is above the partition's resolved-ts and carries the
    id of the table it is buffered for. *)
Definition bufferedAbove (st : consuming) : Prop :=
  forall sink tableID group e,
    sinks (consumer st) !! 0%nat = Some sink ->
    eventGroups st !! tableID = Some group ->
    e ∈ events group ->
    resolvedTs sink < CommitTs e /\ TableID e = tableID.

(** The invariant of the loop over the tables, against the resolved-ts that
    is stored when the loop is over. *)
Definition flushableAt (ts : Z) (sink : partitionSinks) : Prop :=
  forall tableID commitTs, (tableID, commitTs) ∈ tablesCommitTsMap sink ->
    is_Some (tableSinksMap sink !! tableID) /\ commitTs <= ts.

(** The DDL queue is in commit-ts order and below the DDL of maximal
    commit-ts. *)
Definition ddlOrdered (c : Consumer) : Prop :=
  StronglySorted (fun a b => DDL_CommitTs a <= DDL_CommitTs b) (ddlList c)
  /\ match ddlWithMaxCommitTs c with
     | Some m => Forall (fun d => DDL_CommitTs d <= DDL_CommitTs m) (ddlList c)
     | None => ddlList c = []
     end.

(** The counter of the generator counts the keys, and every id up to the
    counter is in use. *)
Definition generatorDense (g : fakeTableIDGenerator) : Prop :=
  currentTableID g = Z.of_nat (size (tableIDs g))
  /\ forall id, 1 <= id <= currentTableID g ->
       exists k, tableIDs g !! k = Some id.

(** Two rows of table [test.t1], a resolved-ts between them, and a late row
    of [test.t2]. *)
Definition consumedMessages : list decodedMessage :=
  [ MessageTypeRow (mkDecodedRow (mkRowChangedEvent 1 5 0 ["id"] []) "test" "t1" false) None;
    MessageTypeRow (mkDecodedRow (mkRowChangedEvent 2 7 0 ["id"] []) "test" "t1" false) None;
    MessageTypeResolved 6;
    MessageTypeRow (mkDecodedRow (mkRowChangedEvent 3 4 0 ["id"] []) "test" "t2" false) None ].

End consumer.

(** * Properties *)

(** ** Machine integers, positions and binary search *)

Import sorter.

Lemma to_int64_small x : is_int64 x -> to_int64 x = x.
Proof.
  unfold is_int64, to_int64, two63, two64. intros H.
  rewrite Z.mod_small; lia.
Qed.

Lemma to_uint64_small x : is_uint64 x -> to_uint64 x = x.
Proof. unfold is_uint64, to_uint64. intros H. now apply Z.mod_small. Qed.

(** Wrapping is a ring morphism up to wrapping: an inner wrap can be dropped. *)
Lemma to_int64_add_l a b : to_int64 (to_int64 a + b) = to_int64 (a + b).
Proof.
  unfold to_int64.
  replace ((a + two63) mod two64 - two63 + b + two63)
    with ((a + two63) mod two64 + b) by lia.
  replace (a + b + two63) with ((a + two63) + b) by lia.
  now rewrite Zplus_mod_idemp_l.
Qed.

Lemma to_uint64_to_int64 x : to_uint64 (to_int64 x) = to_uint64 x.
Proof.
  unfold to_uint64, to_int64.
  rewrite Zminus_mod_idemp_l.
  replace (x + two63 - two63) with x by lia. reflexivity.
Qed.

(** [Compare] is a chain of tests on two pairs of integers: every fact about
    it used below follows by running through the tests. *)
Ltac Compare_cases :=
  unfold Compare;
  repeat (match goal with
          | |- context [if ?c then _ else _] => destruct c eqn:?
          | H : context [if ?c then _ else _] |- _ => destruct c eqn:?
          end; simpl in *);
  try lia.

Lemma Compare_lt_trans p q r :
  Compare p q < 0 -> Compare q r < 0 -> Compare p r < 0.
Proof.
  Compare_cases.
Qed.

(** When [f] is false on [[i, m)] and true on [[m, j)], the loop started on
    [[i, j]] with enough fuel stops at [m]. *)
Lemma searchLoop_first f m : forall fuel i j,
  (i <= m <= j)%nat -> (j - i <= fuel)%nat ->
  (forall k, (i <= k < m)%nat -> f k = false) ->
  (forall k, (m <= k < j)%nat -> f k = true) ->
  searchLoop fuel f i j = m.
Proof.
  induction fuel as [|fuel IH]; intros i j Hm Hfuel Hlo Hhi; simpl.
  - lia.
  - destruct (Nat.ltb_spec i j) as [Hij|Hij]; [|lia].
    rewrite Nat.div2_div.
    assert (Hh : (i <= (i + j) / 2 < j)%nat).
    { split.
      - apply Nat.div_le_lower_bound; lia.
      - apply Nat.Div0.div_lt_upper_bound; lia. }
    set (h := ((i + j) / 2)%nat) in *.
    destruct (f h) eqn:Hf; simpl.
    + assert (m <= h)%nat.
      { destruct (Nat.le_gt_cases m h) as [|Hlt]; [assumption|].
        rewrite Hlo in Hf by lia. discriminate. }
      apply IH; try lia; intros k Hk; [apply Hlo | apply Hhi]; lia.
    + assert (h < m)%nat.
      { destruct (Nat.le_gt_cases m h) as [Hle|]; [|assumption].
        rewrite Hhi in Hf by lia. discriminate. }
      apply IH; try lia; intros k Hk; [apply Hlo | apply Hhi]; lia.
Qed.

Lemma Search_first n f m :
  (m <= n)%nat ->
  (forall k, (k < m)%nat -> f k = false) ->
  (forall k, (m <= k < n)%nat -> f k = true) ->
  Search n f = m.
Proof.
  intros Hm Hlo Hhi. unfold Search.
  apply searchLoop_first; try lia; auto.
  intros k Hk. apply Hlo. lia.
Qed.


(** ** The ledger *)

Import Ledger.

Lemma Compare_gt_mono p q u :
  Compare p q < 0 -> Compare p u > 0 -> Compare q u > 0.
Proof.
  Compare_cases.
Qed.

Lemma ExtractPhysical_uint64 ts :
  is_uint64 ts -> ExtractPhysical ts = ts / 2 ^ 18 /\ 0 <= ts / 2 ^ 18 < 2 ^ 46.
Proof.
  unfold is_uint64, two64, ExtractPhysical, physicalShiftBits. intros H.
  rewrite Z.shiftr_div_pow2 by lia.
  assert (Hb : 0 <= ts / 2 ^ 18 < 2 ^ 46).
  { split.
    - apply Z.div_pos; lia.
    - apply Z.div_lt_upper_bound; lia. }
  split; [|exact Hb].
  apply to_int64_small. unfold is_int64, two63. lia.
Qed.

Lemma countEvents_from (c : list rangeEventCount) : forall a,
  fold_left (fun count r => add_int count (events r)) c (to_int64 a)
  = to_int64 (a + sumEvents c).
Proof.
  induction c as [|r c IH]; intros a; simpl.
  - now rewrite Z.add_0_r.
  - unfold add_int at 2. rewrite to_int64_add_l, IH.
    f_equal. lia.
Qed.

Lemma countEvents_sum (c : list rangeEventCount) :
  countEvents c = to_int64 (sumEvents c).
Proof.
  unfold countEvents.
  change 0 with (to_int64 0) at 1.
  now rewrite countEvents_from.
Qed.

Lemma drop_insert_here {A} (l : list A) (i : nat) (x : A) :
  (i < length l)%nat -> drop i (<[i:=x]> l) = x :: drop (S i) l.
Proof.
  revert i. induction l as [|y l IH]; intros [|i] Hi; simpl in *; try lia.
  - now rewrite drop_0.
  - apply IH. lia.
Qed.

(** Scenario S3: two batches 500 ms apart are merged, a third one 1500 ms
    after the first opens a new record. *)
Example ledger_merge_scenario :
  let c1 := updateRangeEventCounts [] (newRangeEventCount (posAtMs 1000000000) 5) in
  let c2 := updateRangeEventCounts c1 (newRangeEventCount (posAtMs 1000000500) 3) in
  let c3 := updateRangeEventCounts c2 (newRangeEventCount (posAtMs 1000001500) 2) in
  c2 = [ {| firstPos := posAtMs 1000000000; lastPos := posAtMs 1000000500; events := 8 |} ] /\
  c3 = [ {| firstPos := posAtMs 1000000000; lastPos := posAtMs 1000000500; events := 8 |};
         newRangeEventCount (posAtMs 1000001500) 2 ].
Proof. vm_compute. split; reflexivity. Qed.

(** Scenario S4 on the ledger of S3. *)
Example ledger_clean_scenario :
  let c3 := [ {| firstPos := posAtMs 1000000000; lastPos := posAtMs 1000000500; events := 8 |};
              newRangeEventCount (posAtMs 1000001500) 2 ] in
  cleanRangeEventCounts c3 (posAtMs 1000001000) 10
  = ([ {| firstPos := posAtMs 1000000000; lastPos := posAtMs 1000000500; events := 8 |};
       newRangeEventCount (posAtMs 1000001500) 2 ], false) /\
  cleanRangeEventCounts c3 (posAtMs 1000002000) 5 = ([], true).
Proof. vm_compute. split; reflexivity. Qed.

(** C5. On a non-empty ledger [init ++ [lastRec]], [updateRangeEventCounts]
    leaves the ledger unchanged when the new last position does not strictly
    exceed the last record's; otherwise it merges into the last record (last
    position replaced, events added in Go's [int]) when the physical-ms
    difference between the last record's first position and the new last
    position is below 1000, and appends a new record when the difference is
    1000 or more. *)
Theorem updateRangeEventCounts_nonempty
    (init : list rangeEventCount) (lastRec eventCount : rangeEventCount) :
  is_uint64 (CommitTs (firstPos lastRec)) ->
  is_uint64 (CommitTs (lastPos eventCount)) ->
  let c := init ++ [lastRec] in
  let diff := CommitTs (lastPos eventCount) / 2 ^ 18
              - CommitTs (firstPos lastRec) / 2 ^ 18 in
  (Compare (lastPos lastRec) (lastPos eventCount) >= 0 ->
     updateRangeEventCounts c eventCount = c) /\
  (Compare (lastPos lastRec) (lastPos eventCount) < 0 -> diff < 1000 ->
     updateRangeEventCounts c eventCount =
       init ++ [ {| firstPos := firstPos lastRec;
                    lastPos := lastPos eventCount;
                    events := to_int64 (events lastRec + events eventCount) |} ]) /\
  (Compare (lastPos lastRec) (lastPos eventCount) < 0 -> diff >= 1000 ->
     updateRangeEventCounts c eventCount = init ++ [lastRec; eventCount]).
Proof.
  intros Hfirst Hlast c diff.
  destruct (ExtractPhysical_uint64 _ Hfirst) as [Ef Bf].
  destruct (ExtractPhysical_uint64 _ Hlast) as [El Bl].
  assert (Hlen : length c = S (length init)).
  { unfold c. rewrite length_app. simpl. lia. }
  assert (Hlook : c !! (length c - 1)%nat = Some lastRec).
  { rewrite Hlen. replace (S (length init) - 1)%nat with (length init) by lia.
    unfold c. now rewrite list_lookup_middle. }
  assert (Hsub : sub_int (ExtractPhysical (CommitTs (lastPos eventCount)))
                         (ExtractPhysical (CommitTs (firstPos lastRec))) = diff).
  { rewrite Ef, El. unfold sub_int. apply to_int64_small.
    unfold is_int64, two63. lia. }
  unfold updateRangeEventCounts.
  rewrite Hlook, Hsub.
  replace (Nat.eqb (length c) 0) with false by (rewrite Hlen; reflexivity).
  repeat split.
  - intros Hge. destruct (Z.ltb_spec (Compare (lastPos lastRec) (lastPos eventCount)) 0); [lia|reflexivity].
  - intros Hlt Hd.
    destruct (Z.ltb_spec (Compare (lastPos lastRec) (lastPos eventCount)) 0); [|lia].
    destruct (Z.geb_spec diff 1000); [lia|].
    rewrite Hlen. replace (S (length init) - 1)%nat with (length init + 0)%nat by lia.
    unfold c. rewrite insert_app_r. reflexivity.
  - intros Hlt Hd.
    destruct (Z.ltb_spec (Compare (lastPos lastRec) (lastPos eventCount)) 0); [|lia].
    destruct (Z.geb_spec diff 1000); [|lia].
    unfold c. now rewrite <- app_assoc.
Qed.

(** The three cases of C5 at the numbers of scenario S3 and at the 1000 ms
    boundary. *)
Lemma updateRangeEventCounts_nonempty_witness :
  updateRangeEventCounts [newRangeEventCount (posAtMs 1000000000) 5]
                         (newRangeEventCount (posAtMs 1000000999) 3)
  = [ {| firstPos := posAtMs 1000000000; lastPos := posAtMs 1000000999; events := 8 |} ]
  /\
  updateRangeEventCounts [newRangeEventCount (posAtMs 1000000000) 5]
                         (newRangeEventCount (posAtMs 1000001000) 3)
  = [ newRangeEventCount (posAtMs 1000000000) 5; newRangeEventCount (posAtMs 1000001000) 3 ].
Proof.
  split.
  - pose proof (updateRangeEventCounts_nonempty []
                  (newRangeEventCount (posAtMs 1000000000) 5)
                  (newRangeEventCount (posAtMs 1000000999) 3)) as H.
    destruct H as (_ & Hmerge & _).
    + vm_compute. split; [discriminate | reflexivity].
    + vm_compute. split; [discriminate | reflexivity].
    + apply Hmerge; vm_compute; reflexivity.
  - pose proof (updateRangeEventCounts_nonempty []
                  (newRangeEventCount (posAtMs 1000000000) 5)
                  (newRangeEventCount (posAtMs 1000001000) 3)) as H.
    destruct H as (_ & _ & Happ).
    + vm_compute. split; [discriminate | reflexivity].
    + vm_compute. split; [discriminate | reflexivity].
    + apply Happ; vm_compute; [reflexivity | discriminate].
Defined.

(** The invariant of the ledger (spec, testable property 6) is kept by
    [updateRangeEventCounts]: the precondition of the cleanup holds on every
    ledger the program builds. *)
Lemma updateRangeEventCounts_shape
    (init : list rangeEventCount) (lastRec eventCount : rangeEventCount) :
  let c := init ++ [lastRec] in
  updateRangeEventCounts c eventCount = c
  \/ (Compare (lastPos lastRec) (lastPos eventCount) < 0
      /\ (updateRangeEventCounts c eventCount = c ++ [eventCount]
          \/ exists merged,
               lastPos merged = lastPos eventCount
               /\ updateRangeEventCounts c eventCount = init ++ [merged])).
Proof.
  intros c.
  assert (Hlen : length c = S (length init)).
  { unfold c. rewrite length_app. simpl. lia. }
  assert (Hlook : c !! (length c - 1)%nat = Some lastRec).
  { rewrite Hlen. replace (S (length init) - 1)%nat with (length init) by lia.
    unfold c. now rewrite list_lookup_middle. }
  unfold updateRangeEventCounts. rewrite Hlook.
  replace (Nat.eqb (length c) 0) with false by (rewrite Hlen; reflexivity).
  destruct (Z.ltb_spec (Compare (lastPos lastRec) (lastPos eventCount)) 0);
    [|now left].
  right. split; [assumption|].
  match goal with |- context [?d >=? 1000] => destruct (d >=? 1000) end;
    [now left|].
  right. eexists. split; [|unfold c].
  2:{ rewrite length_app. simpl.
      replace (length init + 1 - 1)%nat with (length init + 0)%nat by lia.
      rewrite insert_app_r. simpl. reflexivity. }
  reflexivity.
Qed.

Lemma ascending_snoc (c : list rangeEventCount) (r : rangeEventCount) :
  ascending c ->
  (forall i ri, c !! i = Some ri -> Compare (lastPos ri) (lastPos r) < 0) ->
  ascending (c ++ [r]).
Proof.
  intros Hasc Hlast i j ri rj Hi Hj Hij.
  assert (Hj' : (j < length (c ++ [r]))%nat) by (eapply lookup_lt_Some; eauto).
  rewrite length_app in Hj'. simpl in Hj'.
  rewrite lookup_app_l in Hi by lia.
  destruct (decide (j < length c)%nat) as [Hlt|Hge].
  - rewrite lookup_app_l in Hj by lia. eapply Hasc; eauto.
  - rewrite lookup_app_r in Hj by lia.
    replace (j - length c)%nat with 0%nat in Hj by lia.
    injection Hj as <-. eapply Hlast; eauto.
Qed.

Lemma updateRangeEventCounts_ascending
    (c : list rangeEventCount) (eventCount : rangeEventCount) :
  ascending c -> ascending (updateRangeEventCounts c eventCount).
Proof.
  destruct c as [|r0 c0] using rev_ind; intros Hasc.
  - intros i j ri rj Hi Hj Hij. simpl in *.
    destruct i, j; simpl in *; try lia; discriminate.
  - clear IHc0. rename r0 into lastRec, c0 into init.
    assert (Hbelow : forall i ri, init !! i = Some ri ->
                       Compare (lastPos ri) (lastPos lastRec) < 0).
    { intros i ri Hi. apply (Hasc i (length init) ri lastRec).
      - rewrite lookup_app_l; [exact Hi | eapply lookup_lt_Some; eauto].
      - now rewrite list_lookup_middle.
      - eapply lookup_lt_Some; eauto. }
    assert (Hinit : ascending init).
    { intros i j ri rj Hi Hj Hij. apply (Hasc i j); auto.
      - rewrite lookup_app_l; [exact Hi | eapply lookup_lt_Some; eauto].
      - rewrite lookup_app_l; [exact Hj | eapply lookup_lt_Some; eauto]. }
    destruct (updateRangeEventCounts_shape init lastRec eventCount)
      as [->|[Hlt [->|(merged & Hm & ->)]]]; [exact Hasc| |].
    + apply ascending_snoc; [exact Hasc|].
      intros i ri Hi.
      destruct (decide (i < length init)%nat) as [Hi'|Hi'].
      * rewrite lookup_app_l in Hi by lia.
        eapply Compare_lt_trans; [eapply Hbelow; eauto | exact Hlt].
      * assert (i < length (init ++ [lastRec]))%nat by (eapply lookup_lt_Some; eauto).
        rewrite length_app in *. simpl in *.
        rewrite lookup_app_r in Hi by lia.
        replace (i - length init)%nat with 0%nat in Hi by lia.
        injection Hi as <-. exact Hlt.
    + apply ascending_snoc; [exact Hinit|].
      intros i ri Hi. rewrite Hm.
      eapply Compare_lt_trans; [eapply Hbelow; eauto | exact Hlt].
Qed.

(** On an ascending ledger [sort.Search] finds the first record beyond the
    upper bound. *)
Lemma clean_search_first (c : list rangeEventCount) (upperBound : Position) (idx : nat) :
  ascending c ->
  (idx <= length c)%nat ->
  (forall i r, (i < idx)%nat -> c !! i = Some r -> Compare (lastPos r) upperBound <= 0) ->
  (forall r, c !! idx = Some r -> Compare (lastPos r) upperBound > 0) ->
  Search (length c)
    (fun i => match c !! i with
              | Some r => Compare (lastPos r) upperBound >? 0
              | None => false
              end) = idx.
Proof.
  intros Hasc Hidx Hbelow Hat.
  apply Search_first; [exact Hidx | |].
  - intros k Hk.
    destruct (c !! k) as [r|] eqn:Hr; [|reflexivity].
    specialize (Hbelow k r Hk Hr).
    destruct (Z.gtb_spec (Compare (lastPos r) upperBound) 0); [lia|reflexivity].
  - intros k [Hk1 Hk2].
    destruct (lookup_lt_is_Some_2 c k Hk2) as [rk Hrk].
    destruct (lookup_lt_is_Some_2 c idx ltac:(lia)) as [ri Hri].
    rewrite Hrk.
    specialize (Hat ri Hri).
    assert (Compare (lastPos rk) upperBound > 0).
    { destruct (Nat.eq_dec k idx) as [->|Hne].
      - congruence.
      - apply (Compare_gt_mono (lastPos ri)); [|exact Hat].
        apply (Hasc idx k); auto. lia. }
    destruct (Z.gtb_spec (Compare (lastPos rk) upperBound) 0); [reflexivity|lia].
Qed.

(** C4. On a ledger with strictly ascending last positions, with [idx] the
    first index whose last position exceeds [upperBound] (the length of the
    ledger when there is none) and [idx > 0]: when the events of the records
    [[0, idx)], added in Go's [int], reach [minEvents], these records are
    dropped and the call returns true; otherwise the sum is stored in record
    [idx-1], the records before it are dropped, and the call returns false. *)
Theorem cleanRangeEventCounts_first_index
    (c : list rangeEventCount) (upperBound : Position) (minEvents : Z)
    (idx : nat) (r : rangeEventCount) :
  ascending c ->
  (0 < idx <= length c)%nat ->
  (forall i ri, (i < idx)%nat -> c !! i = Some ri ->
                Compare (lastPos ri) upperBound <= 0) ->
  (forall ri, c !! idx = Some ri -> Compare (lastPos ri) upperBound > 0) ->
  c !! (idx - 1)%nat = Some r ->
  let total := to_int64 (sumEvents (take idx c)) in
  (total >= minEvents ->
     cleanRangeEventCounts c upperBound minEvents = (drop idx c, true)) /\
  (total < minEvents ->
     cleanRangeEventCounts c upperBound minEvents =
       ({| firstPos := firstPos r; lastPos := lastPos r; events := total |}
          :: drop idx c, false)).
Proof.
  intros Hasc [Hpos Hidx] Hbelow Hat Hr total.
  unfold cleanRangeEventCounts.
  rewrite (clean_search_first c upperBound idx Hasc Hidx Hbelow Hat).
  rewrite countEvents_sum. fold total.
  replace (Nat.eqb (length c) 0) with false
    by (symmetry; apply Nat.eqb_neq; lia).
  replace (Nat.eqb idx 0) with false
    by (symmetry; apply Nat.eqb_neq; lia).
  simpl. rewrite Hr.
  split; intros Htot.
  - destruct (Z.geb_spec total minEvents); [reflexivity|lia].
  - destruct (Z.geb_spec total minEvents); [lia|]. simpl.
    rewrite drop_insert_here by lia.
    replace (S (idx - 1)) with idx by lia. reflexivity.
Qed.

(** C4 at the ledger of scenario S4, once below and once above the
    threshold. *)
Lemma cleanRangeEventCounts_first_index_witness :
  let rec0 := {| firstPos := posAtMs 1000000000; lastPos := posAtMs 1000000500; events := 8 |} in
  let rec1 := newRangeEventCount (posAtMs 1000001500) 2 in
  cleanRangeEventCounts [rec0; rec1] (posAtMs 1000001000) 10 = ([rec0; rec1], false) /\
  cleanRangeEventCounts [rec0; rec1] (posAtMs 1000002000) 5 = ([], true).
Proof.
  intros rec0 rec1.
  assert (Hasc : ascending [rec0; rec1]).
  { intros i j ri rj Hi Hj Hij.
    destruct i as [|[|i]], j as [|[|j]]; simpl in *; try lia; try discriminate.
    inversion Hi; inversion Hj; subst. vm_compute. reflexivity. }
  split.
  - apply (cleanRangeEventCounts_first_index [rec0; rec1] (posAtMs 1000001000) 10 1 rec0).
    + exact Hasc.
    + simpl. lia.
    + intros i ri Hi Hl. destruct i; [|lia]. inversion Hl; subst. vm_compute. discriminate.
    + intros ri Hl. inversion Hl; subst. vm_compute. reflexivity.
    + reflexivity.
    + vm_compute. reflexivity.
  - apply (cleanRangeEventCounts_first_index [rec0; rec1] (posAtMs 1000002000) 5 2 rec1).
    + exact Hasc.
    + simpl. lia.
    + intros i ri Hi Hl.
      destruct i as [|[|i]]; [| |lia]; inversion Hl; subst; vm_compute; discriminate.
    + intros ri Hl. discriminate.
    + reflexivity.
    + vm_compute. discriminate.
Defined.

(** ** The order on resolved timestamps *)

Import model tablesink sinkmanager.

Lemma Less_irrefl a : Less a a = false.
Proof.
  unfold Less, batchLess. destruct a as [[] t b]; simpl;
    rewrite !Z.ltb_irrefl; rewrite ?andb_false_r; reflexivity.
Qed.

Lemma Less_spec a b :
  Less a b = true <->
  Ts a < Ts b \/ (Ts a = Ts b /\ batchLess a b = true).
Proof.
  unfold Less. rewrite orb_true_iff, andb_true_iff, Z.ltb_lt, Z.eqb_eq. tauto.
Qed.

Lemma batchLess_trans_neg a b c :
  batchLess b a = false -> batchLess c b = false -> batchLess c a = false.
Proof.
  unfold batchLess. destruct a as [[] ? ?], b as [[] ? ?], c as [[] ? ?]; simpl;
    try congruence.
  rewrite !Z.ltb_ge. lia.
Qed.

(** "Not less" is transitive: the order is a total preorder. *)
Lemma not_Less_trans a b c :
  Less b a = false -> Less c b = false -> Less c a = false.
Proof.
  intros Hba Hcb.
  destruct (Less c a) eqn:Hca; [|reflexivity].
  apply Less_spec in Hca.
  assert (Hba' : ~ (Ts b < Ts a \/ Ts b = Ts a /\ batchLess b a = true))
    by (rewrite <- Less_spec; congruence).
  assert (Hcb' : ~ (Ts c < Ts b \/ Ts c = Ts b /\ batchLess c b = true))
    by (rewrite <- Less_spec; congruence).
  destruct (batchLess b a) eqn:E1, (batchLess c b) eqn:E2;
    try (exfalso; lia);
    try (destruct Hca as [Hca|[Hca Hca']]; exfalso; lia).
  pose proof (batchLess_trans_neg a b c E1 E2) as E3.
  destruct Hca as [Hca|[Hca Hca']]; [exfalso; lia | congruence].
Qed.

Lemma Less_asym a b : Less a b = true -> Less b a = false.
Proof.
  intros H. apply Less_spec in H.
  destruct (Less b a) eqn:E; [|reflexivity].
  apply Less_spec in E.
  assert (batchLess a b = true -> batchLess b a = true -> False).
  { unfold batchLess. destruct a as [[] ? ?], b as [[] ? ?]; simpl; try congruence.
    rewrite !Z.ltb_lt. lia. }
  exfalso. destruct H as [H|[H H']], E as [E|[E E']]; try lia. auto.
Qed.

(** ** The checkpoint cache of the wrapper *)

(** The only two assignments to the cached checkpoint that read a new value
    are guarded; each leaves a value that is not less than the old one. *)
Lemma getCheckpointTs_cache t now :
  Less (state_checkpointTs (fst (getCheckpointTs t now))) (state_checkpointTs t) = false
  /\ snd (getCheckpointTs t now) = state_checkpointTs (fst (getCheckpointTs t now)).
Proof.
  unfold getCheckpointTs. simpl. split; [|reflexivity].
  destruct (tableSink_s t) as [s|]; [|apply Less_irrefl].
  destruct (Less (state_checkpointTs t) (GetCheckpointTs s)) eqn:E; simpl.
  - now apply Less_asym.
  - destruct (negb _); simpl; apply Less_irrefl.
Qed.

Lemma clear_cache t now :
  Less (state_checkpointTs (clear t now)) (state_checkpointTs t) = false.
Proof.
  unfold clear.
  destruct (tableSink_s t) as [s|]; [|apply Less_irrefl].
  destruct (Less (state_checkpointTs t) (GetCheckpointTs s)) eqn:E; simpl.
  - now apply Less_asym.
  - apply Less_irrefl.
Qed.

Lemma start_cache t startTs gen now t' err :
  start t startTs gen now = Some (t', err) ->
  Less (state_checkpointTs t') (state_checkpointTs t) = false.
Proof.
  unfold start. destruct (negb (replicateTs t =? 0)); [discriminate|].
  destruct (snd gen).
  - intros [= <- _]. apply Less_irrefl.
  - simpl. destruct (startTs <=? receivedSorterResolvedTs t); simpl;
      match goal with
      | |- context [Greater ?a ?b] => destruct (Greater a b) eqn:E
      end; intros [= <- _]; simpl;
      try apply Less_irrefl; unfold Greater in E; now apply Less_asym.
Qed.

Lemma asyncClose_cache t now :
  Less (state_checkpointTs (fst (asyncClose t now))) (state_checkpointTs t) = false.
Proof.
  unfold asyncClose.
  destruct (tableSink_s t) as [s|] eqn:Es; [|apply Less_irrefl].
  destruct (AsyncClose s); simpl; [apply clear_cache | apply Less_irrefl].
Qed.

Lemma markAsClosing_cache t :
  state_checkpointTs (markAsClosing t) = state_checkpointTs t.
Proof. unfold markAsClosing. now destruct (TableState_eqb _ _). Qed.

Lemma Close_cache t closed :
  state_checkpointTs (Close t closed) = state_checkpointTs t.
Proof. unfold Close. now destruct (tableSink_s t). Qed.


(** Every call leaves a cached checkpoint that is not less than the one it
    found, and [getCheckpointTs] returns the cache it leaves. *)
Lemma step_cache t c t' o :
  step t c = Some (t', o) ->
  Less (state_checkpointTs t') (state_checkpointTs t) = false
  /\ (forall r, o = Some r -> r = state_checkpointTs t').
Proof.
  destruct c as [ts gen now| | | | |now| |now| |now| | | | |stuckCheck now since| | ];
    unfold step.
  - destruct (start t ts gen now) as [[t1 e]|] eqn:E; [|discriminate].
    intros [= <- <-]. split; [|discriminate]. eapply start_cache; eauto.
  - intros [= <- <-]. split; [|discriminate].
    unfold appendRowChangedEvents. destruct (tableSink_s t); apply Less_irrefl.
  - intros [= <- <-]. split; [|discriminate].
    unfold updateBarrierTs. destruct (_ <=? _); apply Less_irrefl.
  - intros [= <- <-]. split; [|discriminate].
    unfold updateReceivedSorterResolvedTs.
    destruct (_ <=? _); [apply Less_irrefl|].
    destruct (TableState_eqb _ _); apply Less_irrefl.
  - intros [= <- <-]. split; [|discriminate].
    unfold updateResolvedTs. destruct (tableSink_s t); apply Less_irrefl.
  - pose proof (getCheckpointTs_cache t now) as [H1 H2].
    destruct (getCheckpointTs t now) as [t1 r]. simpl in H1, H2.
    intros [= <- <-].
    split; [exact H1|]. intros r' [= <-]. exact H2.
  - intros [= <- <-]. split; [|discriminate].
    rewrite markAsClosing_cache. apply Less_irrefl.
  - intros [= <- <-]. split; [|discriminate].
    unfold asyncStop.
    pose proof (asyncClose_cache (markAsClosing t) now) as H.
    rewrite markAsClosing_cache in H.
    destruct (asyncClose (markAsClosing t) now) as [t1 [|]]; exact H.
  - intros [= <- <-]. split; [|discriminate].
    unfold isReady. destruct (tableSink_s t); [apply Less_irrefl|].
    simpl. destruct (fst created); apply Less_irrefl.
  - intros [= <- <-]. split; [|discriminate]. apply asyncClose_cache.
  - intros [= <- <-]. split; [|discriminate].
    rewrite Close_cache. apply Less_irrefl.
  - intros [= <- <-]. split; [|discriminate]. apply clear_cache.
  - intros [= <- <-]. split; [|discriminate].
    unfold closeAndClear.
    pose proof (clear_cache (Close t closed) now) as H.
    now rewrite Close_cache in H.
  - intros [= <- <-]. split; [|discriminate]. apply Less_irrefl.
  - intros [= <- <-]. split; [|discriminate].
    exact (proj1 (getCheckpointTs_cache t now)).
  - destruct (tableSink_s t); intros [= <- <-]; (split; [|discriminate]);
      apply Less_irrefl.
  - intros [= <- <-]. split; [|discriminate]. apply Less_irrefl.
Qed.

(** Every value observed along an execution is not less than the cache the
    execution starts from. *)
Lemma observedCheckpoints_above_cache calls : forall t r,
  r ∈ observedCheckpoints t calls ->
  Less r (state_checkpointTs t) = false.
Proof.
  induction calls as [|c calls IH]; intros t r Hr; simpl in Hr.
  - inversion Hr.
  - destruct (step t c) as [[t' o]|] eqn:E; [|inversion Hr].
    destruct (step_cache _ _ _ _ E) as [Hmono Hobs].
    destruct o as [r0|].
    + apply elem_of_cons in Hr as [->|Hr].
      * rewrite (Hobs r0 eq_refl). exact Hmono.
      * eapply not_Less_trans; [exact Hmono | now apply IH].
    + eapply not_Less_trans; [exact Hmono | now apply IH].
Qed.

(** C1. Along every execution of a wrapper, from any wrapper state, whatever
    the downstream sinks answer and whatever sinks the creator hands out, a
    later result of [getCheckpointTs] is never [Less] than an earlier one. *)
Theorem getCheckpointTs_monotonic (t : tableSinkWrapper) (calls : list call)
    (i j : nat) (earlier later : ResolvedTs) :
  (i < j)%nat ->
  observedCheckpoints t calls !! i = Some earlier ->
  observedCheckpoints t calls !! j = Some later ->
  Less later earlier = false.
Proof.
  revert t i j. induction calls as [|c calls IH]; intros t i j Hij Hi Hj; simpl in *.
  - rewrite lookup_nil in Hi. discriminate.
  - destruct (step t c) as [[t' o]|] eqn:E; [|rewrite lookup_nil in Hi; discriminate].
    destruct o as [r0|]; [|eapply IH; eauto].
    destruct i as [|i], j as [|j]; try lia; simpl in *.
    + injection Hi as <-.
      destruct (step_cache _ _ _ _ E) as [_ Hobs].
      rewrite (Hobs r0 eq_refl).
      apply (observedCheckpoints_above_cache calls).
      apply list_elem_of_lookup. eauto.
    + eapply (IH t' i j); eauto. lia.
Qed.

(** C1 on scenario S1: the checkpoint read before the first sink made
    progress and the one read after the second sink was attached. *)
Lemma getCheckpointTs_monotonic_witness :
  observedCheckpoints (newTableSinkWrapper TableStatePreparing 100 0) reconstructionCalls
  = [NewResolvedTs 100; NewResolvedTs 150; NewResolvedTs 150; NewResolvedTs 150]
  /\ Less (NewResolvedTs 150) (NewResolvedTs 100) = false.
Proof.
  split; [reflexivity|].
  apply (getCheckpointTs_monotonic
           (newTableSinkWrapper TableStatePreparing 100 0) reconstructionCalls 0 3).
  - lia.
  - reflexivity.
  - reflexivity.
Defined.

(** ** [clear] *)

(** The wrapper of scenario S1 after its second sink was attached caches
    checkpoint 150 while its sink reports 100: [clear] keeps 150. *)
Lemma clear_cache_not_sink_checkpoint :
  tableSink_s reconstructedWrapper = Some (freshSink 100)
  /\ state_checkpointTs (clear reconstructedWrapper 8) = NewResolvedTs 150
  /\ state_checkpointTs (clear reconstructedWrapper 8)
     <> GetCheckpointTs (freshSink 100).
Proof. vm_compute. repeat split; discriminate. Qed.

(** C3, amended. When the sink field holds [s], after [clear] the cached
    checkpoint is the checkpoint [s] reports if the cache was [Less] than it
    and the old cache otherwise; the cached resolved-ts and last-synced-ts
    are those [s] reports; the sink field is nil and the version is 0. *)
Theorem clear_snapshot (t : tableSinkWrapper) (s : TableSink) (now : Z) :
  tableSink_s t = Some s ->
  state_checkpointTs (clear t now)
    = (if Less (state_checkpointTs t) (GetCheckpointTs s)
       then GetCheckpointTs s else state_checkpointTs t)
  /\ state_resolvedTs (clear t now) = GetCheckpointTs s
  /\ state_lastSyncedTs (clear t now) = GetLastSyncedTs s
  /\ tableSink_s (clear t now) = None
  /\ tableSink_version (clear t now) = 0.
Proof.
  intros Hs. unfold clear. rewrite Hs.
  destruct (Less (state_checkpointTs t) (GetCheckpointTs s)); simpl; auto.
Qed.

Lemma clear_snapshot_witness :
  let t := fst (isReady (newTableSinkWrapper TableStatePreparing 100 0)
                        (Some (freshSink 150), 1) 1) in
  state_checkpointTs (clear t 2) = NewResolvedTs 150
  /\ tableSink_s (clear t 2) = None
  /\ tableSink_version (clear t 2) = 0.
Proof.
  intros t.
  destruct (clear_snapshot t (freshSink 150) 2) as (H1 & _ & _ & H4 & H5).
  - reflexivity.
  - rewrite H1, H4, H5. repeat split.
Defined.

(** ** [appendRowChangedEvents] and [updateResolvedTs] *)

(** A wrapper that holds a sink returns the error of that sink. *)
Lemma updateResolvedTs_error_with_sink :
  let t := fst (isReady (newTableSinkWrapper TableStatePreparing 100 0)
                        (Some (failingSink 100), 1) 1) in
  tableSink_s t = Some (failingSink 100)
  /\ snd (updateResolvedTs t (NewResolvedTs 120)) = Some (OtherError "write failed").
Proof. vm_compute. split; reflexivity. Qed.

(** C6, amended. With a nil sink field both methods return the
    "table sink cleared" sink-internal error and change nothing.  With a sink
    [s], [appendRowChangedEvents] hands the events to [s] and returns nil;
    [updateResolvedTs] caches the new resolved-ts, hands it to [s], and
    returns what [s] returns, nil or an error. *)
Theorem append_update_sink_closed
    (t : tableSinkWrapper) (events : list RowChangedEvent) (ts : ResolvedTs) :
  match tableSink_s t with
  | None =>
      appendRowChangedEvents t events = (t, Some (SinkInternalError "table sink cleared"))
      /\ updateResolvedTs t ts = (t, Some (SinkInternalError "table sink cleared"))
  | Some s =>
      appendRowChangedEvents t events
        = (with_sink t (Some (AppendRowChangedEvents s events)) (tableSink_version t), None)
      /\ updateResolvedTs t ts
        = (with_sink (with_resolvedTs t ts)
                     (Some (fst (UpdateResolvedTs s ts))) (tableSink_version t),
           updateResolvedTsErr s)
      /\ appended (AppendRowChangedEvents s events) = appended s ++ events
      /\ frontier (fst (UpdateResolvedTs s ts)) = Some ts
  end.
Proof.
  unfold appendRowChangedEvents, updateResolvedTs.
  destruct (tableSink_s t) as [s|]; simpl; auto.
Qed.

(** ** [handleRowChangedEvents] *)

Lemma emittedRow_Some e r :
  emittedRow e = Some r <->
  exists pe, e = Some pe /\ Row pe = Some r
             /\ (Columns r <> [] \/ PreColumns r <> []).
Proof.
  unfold emittedRow. split.
  - destruct e as [[crts [row|]]|]; try discriminate.
    destruct (Columns row) eqn:Ec, (PreColumns row) eqn:Ep; try discriminate;
      intros [= <-]; eexists; (split; [reflexivity|]); simpl;
      (split; [reflexivity|]); rewrite ?Ec, ?Ep; auto.
  - intros (pe & -> & Hrow & Hcols). destruct pe as [crts row]. simpl in Hrow.
    subst row.
    destruct (Columns r), (PreColumns r); try reflexivity.
    destruct Hcols; congruence.
Qed.

Lemma handleRowChangedEventsLoop_spec ApproximateBytes events : forall a rows,
  handleRowChangedEventsLoop ApproximateBytes events (to_int64 a) rows
  = (rows ++ omap emittedRow events,
     to_int64 (a + sumBytes ApproximateBytes (omap emittedRow events))).
Proof.
  induction events as [|e events IH]; intros a rows; simpl.
  - now rewrite app_nil_r, Z.add_0_r.
  - destruct e as [[crts [row|]]|]; simpl; try apply IH.
    destruct (Columns row) eqn:Ec, (PreColumns row) eqn:Ep; simpl;
      try apply IH;
      unfold add_int; rewrite to_int64_add_l, IH, <- app_assoc; simpl;
      now rewrite Z.add_assoc.
Qed.

(** C9. [handleRowChangedEvents] returns, in input order, the [Row] of every
    event that is non-nil, has a non-nil row, and has a column or a
    pre-column; the size is the sum of [ApproximateBytes] over these rows in
    Go's 64-bit arithmetic, hence the sum itself when that fits a [uint64];
    an input of nil or empty-row events only gives the empty list and 0. *)
Theorem handleRowChangedEvents_rows_and_size
    (ApproximateBytes : RowChangedEvent -> Z)
    (events : list (option PolymorphicEvent)) :
  let rows := omap emittedRow events in
  fst (handleRowChangedEvents ApproximateBytes events) = rows
  /\ (forall e r, emittedRow e = Some r <->
        exists pe, e = Some pe /\ Row pe = Some r
                   /\ (Columns r <> [] \/ PreColumns r <> []))
  /\ snd (handleRowChangedEvents ApproximateBytes events)
     = to_uint64 (sumBytes ApproximateBytes rows)
  /\ (is_uint64 (sumBytes ApproximateBytes rows) ->
      snd (handleRowChangedEvents ApproximateBytes events)
      = sumBytes ApproximateBytes rows)
  /\ ((forall e, e ∈ events -> emittedRow e = None) ->
      handleRowChangedEvents ApproximateBytes events = ([], 0)).
Proof.
  intros rows. unfold handleRowChangedEvents.
  change 0 with (to_int64 0) at 1 2 3 4.
  rewrite handleRowChangedEventsLoop_spec. fold rows. simpl.
  rewrite to_uint64_to_int64.
  split; [reflexivity|].
  split; [apply emittedRow_Some|].
  split; [reflexivity|].
  split; [apply to_uint64_small|].
  intros Hnone.
  assert (Hrows : rows = []).
  { unfold rows. clear rows. induction events as [|e events IH]; [reflexivity|].
    simpl. rewrite (Hnone e) by (apply elem_of_cons; now left).
    apply IH. intros e' He'. apply Hnone. apply elem_of_cons. now right. }
  rewrite Hrows. reflexivity.
Qed.

(** C9 on five events, two of which carry a row with columns; and on the
    three others alone. *)
Lemma handleRowChangedEvents_rows_and_size_witness :
  let bytes := fun r : RowChangedEvent =>
                 8 * Z.of_nat (length (Columns r) + length (PreColumns r)) in
  let inserted := mkRowChangedEvent 1 5 7 ["id"; "name"] [] in
  let deleted := mkRowChangedEvent 2 6 7 [] ["id"] in
  let empty := mkRowChangedEvent 3 6 7 [] [] in
  handleRowChangedEvents bytes
    [ None; Some (mkPolymorphicEvent 5 (Some inserted));
      Some (mkPolymorphicEvent 6 None); Some (mkPolymorphicEvent 6 (Some empty));
      Some (mkPolymorphicEvent 6 (Some deleted)) ]
  = ([inserted; deleted], 24)
  /\ handleRowChangedEvents bytes
       [ None; Some (mkPolymorphicEvent 6 None); Some (mkPolymorphicEvent 6 (Some empty)) ]
     = ([], 0).
Proof.
  intros bytes inserted deleted empty. split.
  - destruct (handleRowChangedEvents_rows_and_size bytes
                [ None; Some (mkPolymorphicEvent 5 (Some inserted));
                  Some (mkPolymorphicEvent 6 None);
                  Some (mkPolymorphicEvent 6 (Some empty));
                  Some (mkPolymorphicEvent 6 (Some deleted)) ])
      as (Hrows & _ & _ & Hsize & _).
    rewrite (surjective_pairing (handleRowChangedEvents _ _)), Hrows, Hsize.
    + reflexivity.
    + vm_compute. split; [discriminate | reflexivity].
  - destruct (handleRowChangedEvents_rows_and_size bytes
                [ None; Some (mkPolymorphicEvent 6 None);
                  Some (mkPolymorphicEvent 6 (Some empty)) ])
      as (_ & _ & _ & _ & Hnone).
    apply Hnone. intros e He.
    repeat (apply elem_of_cons in He as [->|He]; [reflexivity|]).
    inversion He.
Defined.

(** ** Event groups *)

Import consumer.

Lemma reversingSort_Permutation (A : Type) (less : A -> A -> bool) (x : list A) :
  Permutation (reversingSort A less x) x.
Proof.
  unfold reversingSort. rewrite merge_sort_Permutation. apply reverse_Permutation.
Qed.

Lemma reversingSort_Sorted (A : Type) (key : A -> Z) (x : list A) :
  Sorted (fun a b => key a <= key b)
         (reversingSort A (fun a b => key a <? key b) x).
Proof.
  unfold reversingSort.
  assert (Htotal : Total (fun a b : A => (key b <? key a) = false)).
  { intros a b. destruct (Z.le_ge_cases (key a) (key b)); [left|right];
      apply Z.ltb_ge; lia. }
  pose proof (@Sorted_merge_sort A (fun a b : A => (key b <? key a) = false)
                (fun a b => bool_eq_dec (key b <? key a) false) Htotal (reverse x)) as H.
  induction H as [|a l Hs IH Hhd]; constructor; auto.
  destruct Hhd; constructor. now apply Z.ltb_ge.
Qed.

#[local] Instance reversingSorter : SliceSorter :=
  {| sortSlice := reversingSort;
     sortSlice_Permutation := reversingSort_Permutation;
     sortSlice_Sorted := reversingSort_Sorted |}.

(** A list in commit-ts order splits at some index into the events up to
    [resolveTs] and the events beyond. *)
Lemma sorted_split_at (l : list RowChangedEvent) (resolveTs : Z) :
  Sorted (fun a b => CommitTs a <= CommitTs b) l ->
  exists m, (m <= length l)%nat
            /\ Forall (fun e => CommitTs e <= resolveTs) (take m l)
            /\ Forall (fun e => resolveTs < CommitTs e) (drop m l).
Proof.
  intros Hs. apply Sorted_StronglySorted in Hs; [|intros a b c; lia].
  induction Hs as [|e l Hs IH Hall].
  - exists 0%nat. simpl. repeat split; auto.
  - destruct (Z.le_gt_cases (CommitTs e) resolveTs) as [Hle|Hgt].
    + destruct IH as (m & Hm & Hlo & Hhi).
      exists (S m). simpl. repeat split; auto; lia.
    + exists 0%nat. simpl. repeat split; auto; try lia.
      constructor; [lia|].
      eapply Forall_impl; [exact Hall|]. simpl. intros; lia.
Qed.

Lemma filter_take_drop {A} (P : A -> Prop) `{!forall x, Decision (P x)}
    (l : list A) (m : nat) :
  Forall P (take m l) -> Forall (fun x => ~ P x) (drop m l) ->
  filter P l = take m l /\ filter (fun x => ~ P x) l = drop m l.
Proof.
  revert m. induction l as [|x l IH]; intros m Hlo Hhi.
  - now rewrite take_nil, drop_nil.
  - destruct m as [|m]; simpl in *.
    + inversion Hhi as [|? ? Hx Hrest]; subst.
      destruct (IH 0%nat) as [IH1 IH2]; [constructor | now rewrite drop_0 |].
      rewrite take_0 in IH1. rewrite drop_0 in IH2.
      rewrite filter_cons_False, filter_cons_True by auto.
      now rewrite IH1, IH2.
    + inversion Hlo as [|? ? Hx Hrest]; subst.
      destruct (IH m) as [IH1 IH2]; auto.
      rewrite filter_cons_True, filter_cons_False by auto.
      now rewrite IH1, IH2.
Qed.

Lemma Sorted_take_drop {A} (R : A -> A -> Prop) (l : list A) (m : nat) :
  Sorted R l -> Sorted R (take m l) /\ Sorted R (drop m l).
Proof.
  revert m. induction l as [|x l IH]; intros m Hs.
  - rewrite take_nil, drop_nil. auto.
  - destruct m as [|m]; simpl; [auto|].
    apply Sorted_inv in Hs as [Hs Hhd].
    destruct (IH m Hs) as [IH1 IH2]. split; [|exact IH2].
    constructor; [exact IH1|].
    destruct Hhd; destruct m; simpl; constructor; auto.
Qed.

(** After sorting, [sort.Search] finds the split index. *)
Lemma Resolve_search (l : list RowChangedEvent) (resolveTs : Z) (m : nat) :
  (m <= length l)%nat ->
  Forall (fun e => CommitTs e <= resolveTs) (take m l) ->
  Forall (fun e => resolveTs < CommitTs e) (drop m l) ->
  Search (length l)
    (fun i => match l !! i with
              | Some e => CommitTs e >? resolveTs
              | None => false
              end) = m.
Proof.
  intros Hm Hlo Hhi. apply Search_first; [exact Hm| |].
  - intros k Hk.
    destruct (l !! k) as [e|] eqn:He; [|reflexivity].
    assert (CommitTs e <= resolveTs).
    { eapply (Forall_lookup_1 _ _ k e Hlo). now rewrite lookup_take_lt. }
    destruct (Z.gtb_spec (CommitTs e) resolveTs); [lia|reflexivity].
  - intros k [Hk1 Hk2].
    destruct (lookup_lt_is_Some_2 l k Hk2) as [e He]. rewrite He.
    assert (resolveTs < CommitTs e).
    { eapply (Forall_lookup_1 _ _ (k - m)%nat e Hhi).
      rewrite lookup_drop. now replace (m + (k - m))%nat with k by lia. }
    destruct (Z.gtb_spec (CommitTs e) resolveTs); [reflexivity|lia].
Qed.

(** That events of the same commit-ts keep their arrival order does not
    follow from the contract of [sort.Slice]: with [reversingSorter], which
    meets the contract, two buffered events of commit-ts 5 come back from
    [Resolve 5] in the reverse of their arrival order.  What Go's own
    [sort.Slice] does with them is not decided here: package [sort] is not
    among the sources. *)
Lemma Resolve_not_stable :
  let first := mkRowChangedEvent 1 5 7 ["id"] [] in
  let second := mkRowChangedEvent 2 5 7 ["id"] [] in
  let g := Append (Append newEventsGroup first) second in
  events g = [first; second]
  /\ CommitTs first = CommitTs second
  /\ fst (@Resolve reversingSorter g 5) = [second; first]
  /\ fst (@Resolve reversingSorter g 5) <> [first; second].
Proof. vm_compute. repeat split; discriminate. Qed.

(** X25. Whatever sorting function of the contract of [sort.Slice] is used,
    [Resolve ts] returns exactly the buffered events whose commit-ts is at
    most [ts] (each as often as it is buffered), in non-decreasing commit-ts
    order, and keeps in the buffer exactly the events whose commit-ts exceeds
    [ts], in non-decreasing commit-ts order; no event is lost or added. *)
Theorem Resolve_splits_at_resolveTs `{SliceSorter} (g : eventsGroup) (resolveTs : Z) :
  fst (Resolve g resolveTs)
    ≡ₚ filter (fun e => CommitTs e <= resolveTs) (events g)
  /\ Sorted (fun a b => CommitTs a <= CommitTs b) (fst (Resolve g resolveTs))
  /\ events (snd (Resolve g resolveTs))
    ≡ₚ filter (fun e => resolveTs < CommitTs e) (events g)
  /\ Sorted (fun a b => CommitTs a <= CommitTs b) (events (snd (Resolve g resolveTs)))
  /\ fst (Resolve g resolveTs) ++ events (snd (Resolve g resolveTs)) ≡ₚ events g.
Proof.
  unfold Resolve. simpl.
  set (sorted := sortSlice RowChangedEvent (fun a b => CommitTs a <? CommitTs b) (events g)).
  assert (Hperm : sorted ≡ₚ events g) by apply sortSlice_Permutation.
  assert (Hsorted : Sorted (fun a b => CommitTs a <= CommitTs b) sorted)
    by apply (sortSlice_Sorted RowChangedEvent CommitTs).
  destruct (sorted_split_at sorted resolveTs Hsorted) as (m & Hm & Hlo & Hhi).
  rewrite (Resolve_search sorted resolveTs m Hm Hlo Hhi).
  assert (Hhi' : Forall (fun e => ~ CommitTs e <= resolveTs) (drop m sorted)).
  { eapply Forall_impl; [exact Hhi|]. simpl. intros; lia. }
  destruct (filter_take_drop (fun e => CommitTs e <= resolveTs) sorted m Hlo Hhi')
    as [Htake Hdrop].
  destruct (Sorted_take_drop _ sorted m Hsorted) as [Hs1 Hs2].
  repeat split; auto.
  - rewrite <- Htake. now rewrite Hperm.
  - rewrite <- Hdrop.
    rewrite (list_filter_iff (fun e => ~ CommitTs e <= resolveTs)
                             (fun e => resolveTs < CommitTs e)) by (intros; lia).
    now rewrite Hperm.
  - now rewrite take_drop.
Qed.

(** ** [syncFlushRowChangedEvents] *)

Lemma flushRange_handed (resolvedTs : Z) (entries : list (Z * Z)) :
  forall sinks flushed sinks' flushed',
    flushRange entries sinks resolvedTs flushed = Done (sinks', flushed') ->
    (flushed' = true -> flushed = true)
    /\ forall tableID s,
         sinks !! tableID = Some s ->
         exists s', sinks' !! tableID = Some s'
                    /\ (s' = s \/ (frontier s' = Some (NewResolvedTs resolvedTs)
                                   /\ checkpointTs s' = checkpointTs s
                                   /\ updateResolvedTsErr s' = updateResolvedTsErr s)).
Proof.
  induction entries as [|[tableID cts] entries IH];
    intros sinks flushed sinks' flushed' Hrun; simpl in Hrun.
  - injection Hrun as <- <-. split; [auto|]. intros id s Hs. eauto.
  - destruct (sinks !! tableID) as [s0|] eqn:E0; [|discriminate].
    set (s1 := {| appended := appended s0;
                  frontier := Some (NewResolvedTs resolvedTs);
                  updateResolvedTsErr := updateResolvedTsErr s0;
                  checkpointTs := checkpointTs s0;
                  lastSyncedTs := lastSyncedTs s0;
                  asyncClosed := asyncClosed s0 |}) in *.
    assert (Hstep : forall id s, sinks !! id = Some s ->
              exists s', <[tableID := s1]> sinks !! id = Some s'
                /\ (s' = s \/ (frontier s' = Some (NewResolvedTs resolvedTs)
                               /\ checkpointTs s' = checkpointTs s
                               /\ updateResolvedTsErr s' = updateResolvedTsErr s))).
    { intros id s Hs. destruct (decide (tableID = id)) as [->|Hne].
      - rewrite lookup_insert_eq. exists s1. split; [reflexivity|].
        right. rewrite E0 in Hs. injection Hs as <-. auto.
      - rewrite lookup_insert_ne by exact Hne. eauto. }
    destruct (updateResolvedTsErr s0) as [err|] eqn:Eerr.
    + injection Hrun as <- <-. split; [auto|]. exact Hstep.
    + apply IH in Hrun as [Hflag Hrest]. split.
      * intros Hf. specialize (Hflag Hf).
        destruct (negb (EqualOrGreater (checkpointTs s0) (NewResolvedTs resolvedTs)));
          [discriminate | exact Hflag].
      * intros id s Hs.
        destruct (Hstep id s Hs) as (s' & Hs' & Hrel).
        destruct (Hrest id s' Hs') as (s'' & Hs'' & Hrel').
        exists s''. split; [exact Hs''|].
        destruct Hrel as [->|(Hf & Hc & He)], Hrel' as [->|(Hf' & Hc' & He')]; auto;
          right; repeat split; congruence.
Qed.

(** A range that ends with [flushedResolvedTs] still true, none of whose
    table sinks refuses the target, has handed the target to the table sink
    of every entry and has read from each a checkpoint that is equal or
    greater. *)
Lemma flushRange_flushed (resolvedTs : Z) (entries : list (Z * Z)) :
  forall sinks flushed sinks',
    flushRange entries sinks resolvedTs flushed = Done (sinks', true) ->
    (forall tableID s, sinks' !! tableID = Some s -> updateResolvedTsErr s = None) ->
    forall tableID cts, (tableID, cts) ∈ entries ->
      exists s, sinks' !! tableID = Some s
                /\ frontier s = Some (NewResolvedTs resolvedTs)
                /\ EqualOrGreater (GetCheckpointTs s) (NewResolvedTs resolvedTs) = true.
Proof.
  induction entries as [|[tableID0 cts0] entries IH];
    intros sinks flushed sinks' Hrun Hok tableID cts Hin; simpl in Hrun.
  - inversion Hin.
  - destruct (sinks !! tableID0) as [s0|] eqn:E0; [|discriminate].
    set (s1 := {| appended := appended s0;
                  frontier := Some (NewResolvedTs resolvedTs);
                  updateResolvedTsErr := updateResolvedTsErr s0;
                  checkpointTs := checkpointTs s0;
                  lastSyncedTs := lastSyncedTs s0;
                  asyncClosed := asyncClosed s0 |}) in *.
    destruct (updateResolvedTsErr s0) as [err|] eqn:Eerr.
    + injection Hrun as <-.
      specialize (Hok tableID0 s1). rewrite lookup_insert_eq in Hok.
      specialize (Hok eq_refl). simpl in Hok. congruence.
    + pose proof (flushRange_handed _ _ _ _ _ _ Hrun) as [Hflag Hrest].
      apply elem_of_cons in Hin as [[= -> ->]|Hin].
      * destruct (Hrest tableID0 s1) as (s' & Hs' & Hrel);
          [apply lookup_insert_eq|].
        exists s'. split; [exact Hs'|].
        assert (Hchk : EqualOrGreater (GetCheckpointTs s1) (NewResolvedTs resolvedTs) = true).
        { specialize (Hflag eq_refl). unfold GetCheckpointTs. simpl.
          destruct (EqualOrGreater (checkpointTs s0) (NewResolvedTs resolvedTs));
            [reflexivity | discriminate]. }
        destruct Hrel as [->|(Hf & Hc & _)]; [split; [reflexivity | exact Hchk]|].
        split; [exact Hf|]. unfold GetCheckpointTs in *. now rewrite Hc.
      * eapply IH; eauto.
Qed.

Lemma syncFlushRowChangedEventsFrom_nil (resolvedTs : Z) ctxDone progress :
  forall fuel k sink sink',
    syncFlushRowChangedEventsFrom fuel k ctxDone progress sink resolvedTs
      = Some (Done (sink', None)) ->
    tablesCommitTsMap sink' = tablesCommitTsMap sink
    /\ exists sinks flushed,
         flushRange (tablesCommitTsMap sink) sinks resolvedTs flushed
           = Done (tableSinksMap sink', true).
Proof.
  induction fuel as [|fuel IH]; intros k sink sink' Hrun; simpl in Hrun;
    [discriminate|].
  destruct (ctxDone k); [discriminate|].
  destruct (flushRange _ _ _ _) as [[sinks flushed]|msg] eqn:Erange; [|discriminate].
  destruct flushed.
  - injection Hrun as <-. simpl. split; [reflexivity|]. eauto.
  - apply IH in Hrun as [Hmap Hex]. simpl in *. split; [exact Hmap|exact Hex].
Qed.

(** One entry with last-committed-ts 50 and a table sink whose checkpoint is
    at 100, flushed to 100: the table sink is handed 100, not
    [min 100 50]. *)
Lemma syncFlushRowChangedEvents_hands_target :
  let sink := {| tablesCommitTsMap := [(7, 50)];
                 tableSinksMap := {[ 7 := sinkmanager.freshSink 100 ]};
                 resolvedTs := 100 |} in
  exists sink',
    syncFlushRowChangedEvents 1 (fun _ => None) (fun _ sinks => sinks) sink 100
      = Some (Done (sink', None))
    /\ (frontier <$> tableSinksMap sink' !! 7) = Some (Some (NewResolvedTs 100))
    /\ (frontier <$> tableSinksMap sink' !! 7)
       <> Some (Some (NewResolvedTs (Z.min 100 50))).
Proof.
  intros sink. eexists. split; [reflexivity|].
  split; [vm_compute; reflexivity | vm_compute; discriminate].
Qed.

(** A range none of whose table sinks refuses the target hands the target
    to the table sink of every entry. *)
Lemma flushRange_hands_all (resolvedTs : Z) (entries : list (Z * Z)) :
  forall sinks flushed sinks' flushed',
    flushRange entries sinks resolvedTs flushed = Done (sinks', flushed') ->
    (forall tableID s, sinks' !! tableID = Some s -> updateResolvedTsErr s = None) ->
    forall tableID cts, (tableID, cts) ∈ entries ->
      exists s, sinks' !! tableID = Some s
                /\ frontier s = Some (NewResolvedTs resolvedTs).
Proof.
  induction entries as [|[tableID0 cts0] entries IH];
    intros sinks flushed sinks' flushed' Hrun Hok tableID cts Hin; simpl in Hrun.
  - inversion Hin.
  - destruct (sinks !! tableID0) as [s0|] eqn:E0; [|discriminate].
    set (s1 := {| appended := appended s0;
                  frontier := Some (NewResolvedTs resolvedTs);
                  updateResolvedTsErr := updateResolvedTsErr s0;
                  checkpointTs := checkpointTs s0;
                  lastSyncedTs := lastSyncedTs s0;
                  asyncClosed := asyncClosed s0 |}) in *.
    destruct (updateResolvedTsErr s0) as [err|] eqn:Eerr.
    + injection Hrun as <- <-.
      specialize (Hok tableID0 s1). rewrite lookup_insert_eq in Hok.
      specialize (Hok eq_refl). simpl in Hok. congruence.
    + apply elem_of_cons in Hin as [[= -> ->]|Hin].
      * pose proof (flushRange_handed _ _ _ _ _ _ Hrun) as [_ Hrest].
        destruct (Hrest tableID0 s1) as (s' & Hs' & Hrel);
          [apply lookup_insert_eq|].
        exists s'. split; [exact Hs'|].
        destruct Hrel as [->|(Hf & _)]; [reflexivity | exact Hf].
      * eapply IH; eauto.
Qed.

(** C2, amended. In a range of a flush in which no table sink refuses the
    resolved-ts, the table sink of every (table-id, last-committed-ts) entry
    is handed [NewResolvedTs resolvedTs]: the target itself, the
    last-committed-ts is not read.  When [syncFlushRowChangedEvents] returns
    nil and no table sink of the partition refuses a resolved-ts, the table
    sink of every entry has been handed the target and has shown in the last
    round a checkpoint equal to or greater than the target. *)
Theorem syncFlushRowChangedEvents_flushed
    (fuel : nat) (ctxDone : nat -> option error)
    (progress : nat -> gmap Z TableSink -> gmap Z TableSink)
    (sink sink' : partitionSinks) (resolvedTs : Z) :
  (forall sinks flushed sinks' flushed',
     flushRange (tablesCommitTsMap sink) sinks resolvedTs flushed
       = Done (sinks', flushed') ->
     (forall tableID s, sinks' !! tableID = Some s -> updateResolvedTsErr s = None) ->
     forall tableID cts, (tableID, cts) ∈ tablesCommitTsMap sink ->
       exists s, sinks' !! tableID = Some s
                 /\ frontier s = Some (NewResolvedTs resolvedTs))
  /\ (syncFlushRowChangedEvents fuel ctxDone progress sink resolvedTs
        = Some (Done (sink', None)) ->
      (forall tableID s, tableSinksMap sink' !! tableID = Some s ->
                         updateResolvedTsErr s = None) ->
      forall tableID cts, (tableID, cts) ∈ tablesCommitTsMap sink ->
        exists s, tableSinksMap sink' !! tableID = Some s
                  /\ frontier s = Some (NewResolvedTs resolvedTs)
                  /\ EqualOrGreater (GetCheckpointTs s) (NewResolvedTs resolvedTs) = true).
Proof.
  split.
  - intros sinks flushed sinks' flushed'. apply flushRange_hands_all.
  - intros Hrun Hok tableID cts Hin.
    apply syncFlushRowChangedEventsFrom_nil in Hrun as (_ & sinks & flushed & Hrange).
    eapply flushRange_flushed; eauto.
Qed.

(** The table sink of table 7 reaches checkpoint 100 in the third round;
    in the first range it is handed 100 and shows 60. *)
Lemma syncFlushRowChangedEvents_flushed_witness :
  let sink := {| tablesCommitTsMap := [(7, 50)];
                 tableSinksMap := {[ 7 := sinkmanager.freshSink 60 ]};
                 resolvedTs := 100 |} in
  let progress := fun (k : nat) (sinks : gmap Z TableSink) =>
                    if Nat.ltb k 2 then sinks
                    else <[ 7 := sinkmanager.freshSink 100 ]> sinks in
  (exists sinks' s,
      flushRange (tablesCommitTsMap sink) (tableSinksMap sink) 100 true
        = Done (sinks', false)
      /\ sinks' !! 7 = Some s
      /\ frontier s = Some (NewResolvedTs 100))
  /\ exists sink' s,
      syncFlushRowChangedEvents 5 (fun _ => None) progress sink 100
        = Some (Done (sink', None))
      /\ tableSinksMap sink' !! 7 = Some s
      /\ frontier s = Some (NewResolvedTs 100)
      /\ EqualOrGreater (GetCheckpointTs s) (NewResolvedTs 100) = true.
Proof.
  intros sink progress.
  assert (Hrun : exists sink',
             syncFlushRowChangedEvents 5 (fun _ => None) progress sink 100
             = Some (Done (sink', None))
             /\ forall tableID s, tableSinksMap sink' !! tableID = Some s ->
                                  updateResolvedTsErr s = None).
  { eexists. split; [reflexivity|].
    intros tableID s. simpl. unfold progress. simpl.
    destruct (decide (tableID = 7)) as [->|Hne].
    - rewrite lookup_insert_eq. intros [= <-]. reflexivity.
    - repeat rewrite lookup_insert_ne by congruence.
      rewrite lookup_singleton_ne by congruence. discriminate. }
  destruct Hrun as (sink' & Hrun & Hok).
  destruct (syncFlushRowChangedEvents_flushed 5 (fun _ => None) progress sink sink' 100)
    as [Hrange Hflush].
  split.
  - assert (Hfirst : exists sinks',
               flushRange (tablesCommitTsMap sink) (tableSinksMap sink) 100 true
               = Done (sinks', false)
               /\ forall tableID s, sinks' !! tableID = Some s ->
                                    updateResolvedTsErr s = None).
    { eexists. split; [reflexivity|].
      intros tableID s. simpl.
      destruct (decide (tableID = 7)) as [->|Hne].
      - rewrite lookup_insert_eq. intros [= <-]. reflexivity.
      - rewrite lookup_insert_ne by congruence.
        rewrite lookup_singleton_ne by congruence. discriminate. }
    destruct Hfirst as (sinks' & Hfirst & Hok').
    destruct (Hrange _ _ _ _ Hfirst Hok' 7 50) as (s & Hs & Hf).
    + simpl. apply elem_of_cons. now left.
    + exists sinks', s. auto.
  - destruct (Hflush Hrun Hok 7 50) as (s & Hs & Hf & Hc).
    + simpl. apply elem_of_cons. now left.
    + exists sink', s. auto.
Defined.

(** A range over table sinks that have caught up leaves [flushedResolvedTs]
    true. *)
Lemma flushRange_caughtUp (resolvedTs : Z) (entries : list (Z * Z)) :
  forall sinks, caughtUp entries sinks resolvedTs ->
    exists sinks', flushRange entries sinks resolvedTs true = Done (sinks', true).
Proof.
  induction entries as [|[tableID cts] entries IH]; intros sinks Hup; simpl.
  - eauto.
  - destruct (Hup tableID cts) as (s & Hs & Herr & Hchk);
      [apply elem_of_cons; now left|].
    rewrite Hs, Herr. unfold GetCheckpointTs. simpl. rewrite Hchk. simpl.
    apply IH. intros id c Hin.
    destruct (Hup id c) as (s' & Hs' & Herr' & Hchk');
      [apply elem_of_cons; now right|].
    destruct (decide (tableID = id)) as [->|Hne].
    + rewrite lookup_insert_eq. eexists. split; [reflexivity|]. simpl.
      rewrite Hs in Hs'. injection Hs' as <-. auto.
    + rewrite lookup_insert_ne by exact Hne. eauto.
Qed.

(** The flush returns once the downstream has caught up: if that happens in
    round [K], [K + 1] rounds are enough (the result may be an earlier
    cancellation or panic). *)
Lemma syncFlushRowChangedEvents_returns
    (ctxDone : nat -> option error)
    (progress : nat -> gmap Z TableSink -> gmap Z TableSink)
    (entries : list (Z * Z)) (resolvedTs : Z) (K : nat) :
  (forall sinks, caughtUp entries (progress K sinks) resolvedTs) ->
  forall n k sink,
    (k + n = K)%nat -> tablesCommitTsMap sink = entries ->
    exists r, syncFlushRowChangedEventsFrom (S n) k ctxDone progress sink resolvedTs
              = Some r.
Proof.
  intros Hup. induction n as [|n IH]; intros k sink Hk Hentries.
  - simpl. destruct (ctxDone k); [eauto|].
    replace k with K by lia. rewrite Hentries.
    destruct (flushRange_caughtUp resolvedTs entries _ (Hup (tableSinksMap sink)))
      as [sinks' ->]. eauto.
  - cbn [syncFlushRowChangedEventsFrom]. destruct (ctxDone k); [eauto|].
    destruct (flushRange _ _ _ _) as [[sinks' [|]]|msg]; eauto.
    apply IH; [lia | exact Hentries].
Qed.

(** ** The driver loop *)

Lemma minResolvedTs_bounds (l : list partitionSinks) : forall init,
  minResolvedTs l init <= init
  /\ (forall sink, sink ∈ l -> minResolvedTs l init <= resolvedTs sink)
  /\ (minResolvedTs l init = init
      \/ exists sink, sink ∈ l /\ minResolvedTs l init = resolvedTs sink).
Proof.
  induction l as [|s l IH]; intros init; simpl.
  - split; [lia|]. split; [|now left]. intros sink Hin. inversion Hin.
  - destruct (IH (if resolvedTs s <? init then resolvedTs s else init))
      as (Hle & Hall & Hatt).
    fold (minResolvedTs l (if resolvedTs s <? init then resolvedTs s else init)) in *.
    destruct (Z.ltb_spec (resolvedTs s) init) as [Hlt|Hge].
    + split; [lia|]. split.
      * intros sink Hin. apply elem_of_cons in Hin as [->|Hin]; [lia | auto].
      * right. destruct Hatt as [->|(sink & Hin & ->)].
        -- exists s. split; [apply elem_of_cons; now left | reflexivity].
        -- exists sink. split; [apply elem_of_cons; now right | reflexivity].
    + split; [lia|]. split.
      * intros sink Hin. apply elem_of_cons in Hin as [->|Hin]; [lia | auto].
      * destruct Hatt as [->|(sink & Hin & ->)]; [now left|].
        right. exists sink. split; [apply elem_of_cons; now right | reflexivity].
Qed.

Lemma minResolvedTs_mono (l l' : list partitionSinks) :
  Forall2 (fun s s' => resolvedTs s <= resolvedTs s') l l' ->
  forall init init', init <= init' ->
    minResolvedTs l init <= minResolvedTs l' init'.
Proof.
  induction 1 as [|s s' l l' Hs Hl IH]; intros init init' Hinit; simpl.
  - exact Hinit.
  - apply IH.
    destruct (Z.ltb_spec (resolvedTs s) init), (Z.ltb_spec (resolvedTs s') init'); lia.
Qed.

Lemma storeResolvedTs_Forall2 (c : Consumer) (partition : nat) (ts : Z) :
  (forall sink, sinks c !! partition = Some sink -> resolvedTs sink <= ts) ->
  Forall2 (fun s s' => resolvedTs s <= resolvedTs s')
          (sinks c) (sinks (storeResolvedTs c partition ts)).
Proof.
  intros Hmono. unfold storeResolvedTs.
  destruct (sinks c !! partition) as [sink|] eqn:E; simpl.
  - apply Forall2_same_length_lookup. split.
    + now rewrite length_insert.
    + intros i s s' Hi Hi'.
      destruct (decide (partition = i)) as [->|Hne].
      * rewrite list_lookup_insert_eq in Hi' by (eapply lookup_lt_Some; eauto).
        injection Hi' as <-. simpl. rewrite E in Hi. injection Hi as <-. auto.
      * rewrite list_lookup_insert_ne in Hi' by exact Hne.
        rewrite Hi in Hi'. injection Hi' as <-. lia.
  - apply Forall2_same_length_lookup. split; [reflexivity|].
    intros i s s' Hi Hi'. rewrite Hi in Hi'. injection Hi' as <-. lia.
Qed.

Lemma storeResolvedTs_min (c : Consumer) (partition : nat) (ts : Z) :
  (forall sink, sinks c !! partition = Some sink -> resolvedTs sink <= ts) ->
  getMinPartitionResolvedTs c
  <= getMinPartitionResolvedTs (storeResolvedTs c partition ts).
Proof.
  intros Hmono. unfold getMinPartitionResolvedTs, storeResolvedTs.
  destruct (sinks c !! partition) as [sink|] eqn:E; [|lia].
  simpl. apply (minResolvedTs_mono (sinks c)); [|lia].
  apply Forall2_same_length_lookup. split.
  - now rewrite length_insert.
  - intros i s s' Hi Hi'.
    destruct (decide (partition = i)) as [->|Hne].
    + rewrite list_lookup_insert_eq in Hi' by (eapply lookup_lt_Some; eauto).
      injection Hi' as <-. simpl. rewrite E in Hi. injection Hi as <-. auto.
    + rewrite list_lookup_insert_ne in Hi' by exact Hne.
      rewrite Hi in Hi'. injection Hi' as <-. lia.
Qed.

(** How one round of the loop treats [globalResolvedTs]. *)
Lemma runRound_globalResolvedTs (c : Consumer)
    (ctx flushDDL writeDDL flushGlobal : option error) :
  match fst (runRound c ctx flushDDL writeDDL flushGlobal) with
  | NextRound c' =>
      globalResolvedTs c <= adjustedMinPartitionResolvedTs c
      /\ globalResolvedTs c'
         = Z.max (globalResolvedTs c) (adjustedMinPartitionResolvedTs c)
      /\ sinks c' = sinks c
      /\ ddlWithMaxCommitTs c' = ddlWithMaxCommitTs c
      /\ ddlList c' =
           match getFrontDDL c with
           | Some ddl =>
               if DDL_CommitTs ddl <=? getMinPartitionResolvedTs c
               then tail (ddlList c) else ddlList c
           | None => ddlList c
           end
  | Return c' err => globalResolvedTs c <= globalResolvedTs c'
  | Panicked msg =>
      msg = "global ResolvedTs fallback"
      /\ adjustedMinPartitionResolvedTs c < globalResolvedTs c
  end.
Proof.
  unfold runRound, adjustedMinPartitionResolvedTs, getFrontDDL, popDDL.
  destruct ctx; simpl; [lia|].
  destruct (ddlList c) as [|ddl rest] eqn:El; simpl.
  - destruct (Z.gtb_spec (globalResolvedTs c) (getMinPartitionResolvedTs c)); simpl;
      [split; [reflexivity | lia]|].
    destruct (Z.ltb_spec (globalResolvedTs c) (getMinPartitionResolvedTs c));
      destruct flushGlobal; simpl; rewrite ?El; repeat split; auto; lia.
  - destruct (Z.leb_spec (DDL_CommitTs ddl) (getMinPartitionResolvedTs c)); simpl.
    + destruct flushDDL; simpl; [lia|].
      destruct writeDDL; simpl; [lia|].
      destruct (Z.gtb_spec (globalResolvedTs c) (DDL_CommitTs ddl)); simpl;
        [split; [reflexivity | lia]|].
      destruct (Z.ltb_spec (globalResolvedTs c) (DDL_CommitTs ddl));
        destruct flushGlobal; simpl; repeat split; auto; lia.
    + destruct (Z.gtb_spec (globalResolvedTs c) (getMinPartitionResolvedTs c)); simpl;
        [split; [reflexivity | lia]|].
      destruct (Z.ltb_spec (globalResolvedTs c) (getMinPartitionResolvedTs c));
        destruct flushGlobal; simpl; rewrite ?El; repeat split; auto; lia.
Qed.

Lemma runRound_fallback (c : Consumer) (flushGlobal : option error) :
  adjustedMinPartitionResolvedTs c < globalResolvedTs c ->
  fst (runRound c None None None flushGlobal) = Panicked "global ResolvedTs fallback".
Proof.
  unfold runRound, adjustedMinPartitionResolvedTs, getFrontDDL, popDDL.
  destruct (ddlList c) as [|ddl rest] eqn:El; simpl.
  - intros Hlt.
    destruct (Z.gtb_spec (globalResolvedTs c) (getMinPartitionResolvedTs c));
      [reflexivity | lia].
  - destruct (Z.leb_spec (DDL_CommitTs ddl) (getMinPartitionResolvedTs c)); simpl;
      intros Hlt.
    + destruct (Z.gtb_spec (globalResolvedTs c) (DDL_CommitTs ddl)); [reflexivity | lia].
    + destruct (Z.gtb_spec (globalResolvedTs c) (getMinPartitionResolvedTs c));
        [reflexivity | lia].
Qed.

Lemma driverInv_newConsumer (partitionNum : nat) : driverInv (newConsumer partitionNum).
Proof.
  unfold driverInv, newConsumer, getMinPartitionResolvedTs. simpl.
  split; [|repeat split; constructor].
  assert (H : forall n init, 0 <= init ->
            0 <= fold_left (fun result sink =>
                              if resolvedTs sink <? result then resolvedTs sink else result)
                   (replicate n {| tablesCommitTsMap := []; tableSinksMap := ∅;
                                   resolvedTs := 0 |}) init).
  { induction n as [|n IH]; intros init Hinit; simpl; [exact Hinit|].
    apply IH. destruct (0 <? init); lia. }
  apply H. unfold two64. lia.
Qed.

Lemma getMinPartitionResolvedTs_sinks (c c' : Consumer) :
  sinks c' = sinks c -> getMinPartitionResolvedTs c' = getMinPartitionResolvedTs c.
Proof. unfold getMinPartitionResolvedTs. now intros ->. Qed.

Lemma storeResolvedTs_fields (c : Consumer) (partition : nat) (ts : Z) :
  globalResolvedTs (storeResolvedTs c partition ts) = globalResolvedTs c
  /\ ddlList (storeResolvedTs c partition ts) = ddlList c
  /\ ddlWithMaxCommitTs (storeResolvedTs c partition ts) = ddlWithMaxCommitTs c.
Proof. unfold storeResolvedTs. destruct (sinks c !! partition); auto. Qed.

(** [appendDDL] keeps the invariant of the consumer when the DDL is not
    behind [globalResolvedTs]; it touches the queue at the back only. *)
Lemma appendDDL_driverInv (c c' : Consumer) (ddl : DDLEvent) :
  driverInv c ->
  globalResolvedTs c <= DDL_CommitTs ddl ->
  appendDDL c ddl = Done c' ->
  driverInv c'
  /\ sinks c' = sinks c
  /\ globalResolvedTs c' = globalResolvedTs c
  /\ (ddlList c' = ddlList c \/ ddlList c' = ddlList c ++ [ddl])
  /\ (forall todoDDL, head (ddlList c) = Some todoDDL ->
                      head (ddlList c') = Some todoDDL).
Proof.
  intros (Hmin & Hddl & Hsorted & Hmax) Hpre. unfold appendDDL.
  destruct (ddlWithMaxCommitTs c) as [m|] eqn:Em.
  - destruct (Z.ltb_spec (DDL_CommitTs ddl) (DDL_CommitTs m)); [discriminate|].
    destruct (ptr ddl =? ptr m); intros [= <-].
    + unfold driverInv. rewrite Em. repeat split; auto.
    + unfold driverInv. simpl. repeat split; auto.
      * apply Forall_app. split; [exact Hddl|]. constructor; [exact Hpre|constructor].
      * apply StronglySorted_app_2; auto; [|repeat constructor].
        intros a b Ha Hb. apply list_elem_of_singleton in Hb as ->.
        rewrite Forall_forall in Hmax. specialize (Hmax a Ha). lia.
      * apply Forall_app. split.
        -- eapply Forall_impl; [exact Hmax|]. simpl. intros; lia.
        -- constructor; [lia|constructor].
      * intros todoDDL. now destruct (ddlList c).
  - intros [= <-]. unfold driverInv. simpl. rewrite Hmax. simpl.
    split; [|split; [reflexivity|split; [reflexivity|split; [now right|discriminate]]]].
    repeat split; auto; repeat constructor; auto; lia.
Qed.

(** No step moves [globalResolvedTs] backward; only the comparison of [Run]
    writes it: it panics when it finds [globalResolvedTs] above
    [minPartitionResolvedTs], and leaves the larger of the two otherwise. *)
Lemma stepDriver_globalResolvedTs (d : driver) (e : driverEvent) :
  match stepDriver d e with
  | Goes d' =>
      globalResolvedTs (shared d) <= globalResolvedTs (shared d')
      /\ (globalResolvedTs (shared d') = globalResolvedTs (shared d)
          \/ exists m answer,
               pos d = AtCompare m /\ e = Drive answer
               /\ globalResolvedTs (shared d) <= m
               /\ globalResolvedTs (shared d') = Z.max (globalResolvedTs (shared d)) m)
  | Returns c err => globalResolvedTs c = globalResolvedTs (shared d)
  | Panics msg =>
      msg = "global ResolvedTs fallback" ->
      exists m answer, pos d = AtCompare m /\ e = Drive answer
                       /\ m < globalResolvedTs (shared d)
  end.
Proof.
  destruct d as [c p]. destruct e as [partition ts|ddl|answer]; simpl.
  - destruct (storeResolvedTs_fields c partition ts) as (-> & _). split; [lia|auto].
  - unfold appendDDL.
    destruct (match ddlWithMaxCommitTs c with Some m => _ | None => false end);
      [discriminate|].
    destruct (match ddlWithMaxCommitTs c with Some m => _ | None => false end);
      simpl; split; auto; lia.
  - unfold drive. simpl.
    destruct p as [|i result|m|todo|todo|todo|m|]; simpl;
      try (destruct answer; simpl; (reflexivity || (split; [lia|auto])));
      try (split; [lia|auto]).
    + destruct (sinks c !! i); simpl; (split; [lia|auto]).
    + destruct (getFrontDDL c) as [todo|]; [destruct (_ <=? _)|]; simpl;
        (split; [lia|auto]).
    + unfold popDDL. destruct (ddlList c); simpl; (split; [lia|auto]).
    + destruct (Z.gtb_spec (globalResolvedTs c) m) as [Hgt|Hle].
      * intros _. exists m, answer. auto.
      * destruct (Z.ltb_spec (globalResolvedTs c) m); simpl; (split; [lia|]);
          right; exists m, answer; repeat split; auto; lia.
Qed.

Lemma interleaving_above_start (events : list driverEvent) : forall d d',
  d' ∈ fst (interleaving d events) ->
  globalResolvedTs (shared d) <= globalResolvedTs (shared d').
Proof.
  induction events as [|e events IH]; intros d d' Hin; simpl in Hin.
  - apply list_elem_of_singleton in Hin as ->. lia.
  - pose proof (stepDriver_globalResolvedTs d e) as Hstep.
    destruct (stepDriver d e) as [d1|c1 err|msg] eqn:E; simpl in Hin;
      try (apply list_elem_of_singleton in Hin as ->; lia).
    destruct (interleaving d1 events) as [ds ending] eqn:Eexec. simpl in Hin.
    apply elem_of_cons in Hin as [->|Hin]; [lia|].
    specialize (IH d1 d'). rewrite Eexec in IH. specialize (IH Hin). lia.
Qed.

Lemma interleaving_monotonic (events : list driverEvent) : forall d i j a b,
  (i < j)%nat ->
  fst (interleaving d events) !! i = Some a ->
  fst (interleaving d events) !! j = Some b ->
  globalResolvedTs (shared a) <= globalResolvedTs (shared b).
Proof.
  induction events as [|e events IH]; intros d i j a b Hij Hi Hj; simpl in *.
  - destruct j; [lia|]. simpl in Hj. rewrite lookup_nil in Hj. discriminate.
  - pose proof (stepDriver_globalResolvedTs d e) as Hstep.
    destruct (stepDriver d e) as [d1|c1 err|msg] eqn:E; simpl in *;
      try (destruct j; [lia|]; simpl in Hj; rewrite lookup_nil in Hj; discriminate).
    destruct (interleaving d1 events) as [ds ending] eqn:Eexec. simpl in *.
    destruct j as [|j]; [lia|]. simpl in Hj.
    destruct i as [|i]; simpl in Hi.
    + injection Hi as <-.
      pose proof (interleaving_above_start events d1 b) as Hb.
      rewrite Eexec in Hb. simpl in Hb.
      specialize (Hb (list_elem_of_lookup_2 _ _ _ Hj)). lia.
    + specialize (IH d1 i j a b). rewrite Eexec in IH. simpl in IH.
      apply IH; auto. lia.
Qed.

(** Every step keeps what the driver relies on, when stores move partitions
    forward and DDLs are not received behind the partitions. *)
Lemma driverSafe_step (d d' : driver) (e : driverEvent) :
  driverSafe d ->
  match e with
  | Store partition ts =>
      forall sink, sinks (shared d) !! partition = Some sink -> resolvedTs sink <= ts
  | Receive ddl => getMinPartitionResolvedTs (shared d) <= DDL_CommitTs ddl
  | Drive _ => True
  end ->
  stepDriver d e = Goes d' ->
  driverSafe d'.
Proof.
  destruct d as [c p]. unfold driverSafe. simpl. intros [Hinv Hpos] Hpre.
  destruct e as [partition ts|ddl|answer]; simpl.
  - intros [= <-]. simpl.
    pose proof (storeResolvedTs_min c partition ts Hpre) as Hle.
    destruct (storeResolvedTs_fields c partition ts) as (Hg & Hl & Hm).
    split.
    + destruct Hinv as (H1 & H2 & H3 & H4). unfold driverInv.
      rewrite Hg, Hl, Hm. repeat split; auto. lia.
    + rewrite Hg, Hl.
      destruct p as [|i result|m|todo|todo|todo|m|]; auto; try (intuition lia).
      destruct Hpos as [H1 H2]. split; [exact H1|].
      etransitivity; [exact H2|].
      apply minResolvedTs_mono; [|lia].
      apply Forall2_take, storeResolvedTs_Forall2, Hpre.
  - destruct (appendDDL c ddl) as [c1|msg] eqn:E; [|discriminate].
    intros [= <-]. simpl.
    assert (HG : globalResolvedTs c <= DDL_CommitTs ddl) by (destruct Hinv; lia).
    destruct (appendDDL_driverInv _ _ _ Hinv HG E) as (Hinv1 & Hs & Hg & Hlist & Hhead).
    split; [exact Hinv1|].
    rewrite (getMinPartitionResolvedTs_sinks _ _ Hs), Hg.
    destruct p as [|i result|m|todo|todo|todo|m|]; auto;
      try (destruct Hpos; split; auto; fail).
    { rewrite Hs. exact Hpos. }
    destruct Hpos as (H1 & H2 & H3). repeat split; auto.
    destruct Hlist as [->| ->]; [exact H3|].
    apply Forall_app. split; [exact H3|]. constructor; [lia|constructor].
  - unfold drive. simpl.
    destruct p as [|i result|m|todo|todo|todo|m|]; simpl.
    + destruct answer; [discriminate|]. intros [= <-]. simpl.
      split; [exact Hinv|].
      destruct Hinv as (Hmin & _).
      pose proof (minResolvedTs_bounds (sinks c) (two64 - 1)) as (Hle & _).
      unfold getMinPartitionResolvedTs in Hmin. fold (minResolvedTs (sinks c) (two64 - 1)) in Hmin.
      split; [lia | simpl; lia].
    + destruct Hpos as [Hg Hres].
      destruct (sinks c !! i) as [sink|] eqn:Ei; intros [= <-]; simpl.
      * split; [exact Hinv|].
        assert (Ha : globalResolvedTs c <= resolvedTs sink).
        { destruct Hinv as (Hmin & _).
          pose proof (minResolvedTs_bounds (sinks c) (two64 - 1)) as (_ & Hall & _).
          unfold getMinPartitionResolvedTs in Hmin.
          fold (minResolvedTs (sinks c) (two64 - 1)) in Hmin.
          specialize (Hall sink (list_elem_of_lookup_2 _ _ _ Ei)). lia. }
        rewrite (take_S_r _ _ _ Ei). unfold minResolvedTs at 1.
        rewrite fold_left_app. simpl.
        fold (minResolvedTs (take i (sinks c)) (two64 - 1)).
        destruct (Z.ltb_spec (resolvedTs sink) result),
                 (Z.ltb_spec (resolvedTs sink) (minResolvedTs (take i (sinks c)) (two64 - 1)));
          split; lia.
      * split; [exact Hinv|]. split; [exact Hg|].
        apply lookup_ge_None in Ei. rewrite take_ge in Hres by exact Ei.
        exact Hres.
    + destruct Hpos as [Hg Hm]. unfold getFrontDDL.
      pose proof Hinv as (_ & _ & Hsorted & _).
      destruct (ddlList c) as [|todo rest] eqn:El.
      * intros [= <-]. simpl. split; [exact Hinv|]. rewrite El. repeat split; auto.
      * destruct (Z.leb_spec (DDL_CommitTs todo) m); intros [= <-]; simpl; rewrite El.
        -- split; [exact Hinv|]. split; [reflexivity|lia].
        -- split; [exact Hinv|]. repeat split; auto.
           apply StronglySorted_inv in Hsorted as [_ Hall].
           constructor; [lia|].
           eapply Forall_impl; [exact Hall|]. simpl. intros; lia.
    + destruct answer; [discriminate|]. intros [= <-]. simpl.
      split; [exact Hinv | exact Hpos].
    + destruct answer; [discriminate|]. intros [= <-]. simpl.
      split; [exact Hinv | exact Hpos].
    + destruct Hpos as [Hhead Htodo].
      destruct Hinv as (Hmin & Hddl & Hsorted & Hmax). unfold popDDL.
      destruct (ddlList c) as [|todo' rest] eqn:El; [discriminate|].
      simpl in Hhead. injection Hhead as ->.
      intros [= <-]. simpl.
      apply StronglySorted_inv in Hsorted as [Hrest Hall].
      inversion Hddl as [|? ? Hg Hddl']; subst.
      split.
      * unfold driverInv, getMinPartitionResolvedTs. simpl. repeat split; auto.
        destruct (ddlWithMaxCommitTs c); [now inversion Hmax | discriminate].
      * unfold getMinPartitionResolvedTs. simpl. repeat split; auto.
    + destruct Hpos as (Hg & Hm & Hall).
      destruct Hinv as (Hmin & Hddl & Hsorted & Hmax).
      destruct (Z.gtb_spec (globalResolvedTs c) m); [discriminate|].
      destruct (Z.ltb_spec (globalResolvedTs c) m); intros [= <-]; simpl.
      * split; [|exact I].
        unfold driverInv, getMinPartitionResolvedTs. simpl. repeat split; auto.
      * split; [|exact I]. repeat split; auto.
    + destruct answer; [discriminate|]. intros [= <-]. simpl.
      split; [exact Hinv | exact I].
Qed.

Lemma driverSafe_no_fallback (d : driver) (e : driverEvent) :
  driverSafe d -> stepDriver d e <> Panics "global ResolvedTs fallback".
Proof.
  intros [Hinv Hpos] Hpanic.
  pose proof (stepDriver_globalResolvedTs d e) as Hstep.
  rewrite Hpanic in Hstep.
  destruct (Hstep eq_refl) as (m & answer & Hp & _ & Hlt).
  rewrite Hp in Hpos. lia.
Qed.

Lemma interleaving_no_fallback (events : list driverEvent) : forall d,
  driverSafe d ->
  partitionsMonotonic d events ->
  ddlsNotBehind d events ->
  snd (interleaving d events) <> Some (Panics "global ResolvedTs fallback").
Proof.
  induction events as [|e events IH]; intros d Hsafe Hmono Hddl; simpl.
  - discriminate.
  - destruct Hmono as [Hm1 Hm2], Hddl as [Hd1 Hd2].
    pose proof (driverSafe_no_fallback d e Hsafe) as Hno.
    destruct (stepDriver d e) as [d1|c1 err|msg] eqn:E.
    + assert (Hsafe1 : driverSafe d1).
      { eapply (driverSafe_step d d1 e); eauto. destruct e; auto. }
      specialize (IH d1 Hsafe1 Hm2 Hd2).
      destruct (interleaving d1 events). exact IH.
    + simpl. discriminate.
    + simpl. congruence.
Qed.

(** The readings of the partitions, with no store in between, compute the
    minimum over the partitions that are left. *)
Lemma driveRoundFrom_reading (c : Consumer)
    (ctx flushDDL writeDDL flushGlobal : option error) (fuel : nat) :
  forall k i result,
    length (sinks c) = (i + k)%nat ->
    driveRoundFrom (k + 1 + fuel) {| shared := c; pos := AtGetMin i result |}
      ctx flushDDL writeDDL flushGlobal
    = driveRoundFrom fuel
        {| shared := c;
           pos := AtGetFrontDDL (minResolvedTs (drop i (sinks c)) result) |}
        ctx flushDDL writeDDL flushGlobal.
Proof.
  induction k as [|k IH]; intros i result Hlen.
  - assert (Hnone : sinks c !! i = None) by (apply lookup_ge_None; lia).
    simpl. unfold drive. simpl. rewrite Hnone. simpl.
    rewrite drop_ge by lia. reflexivity.
  - destruct (lookup_lt_is_Some_2 (sinks c) i ltac:(lia)) as [sink Hsink].
    change (S k + 1 + fuel)%nat with (S (k + 1 + fuel)).
    cbn [driveRoundFrom]. unfold drive at 1. cbn [pos shared answerAt].
    rewrite Hsink. cbn [pos].
    rewrite (IH (S i)) by lia.
    rewrite (drop_S _ _ _ Hsink). reflexivity.
Qed.

(** A round during which no message is consumed is [runRound]. *)
Lemma driveRound_runRound (c : Consumer)
    (ctx flushDDL writeDDL flushGlobal : option error) :
  driveRound c ctx flushDDL writeDDL flushGlobal
  = fst (runRound c ctx flushDDL writeDDL flushGlobal).
Proof.
  unfold driveRound, startDriver.
  replace (length (sinks c) + 8)%nat with (S (length (sinks c) + 1 + 6)) by lia.
  cbn [driveRoundFrom]. unfold drive at 1. cbn [pos shared answerAt].
  unfold runRound.
  destruct ctx; [reflexivity|]. cbn [pos].
  rewrite (driveRoundFrom_reading c None flushDDL writeDDL flushGlobal 6
             (length (sinks c)) 0 (two64 - 1)) by reflexivity.
  rewrite drop_0.
  change (minResolvedTs (sinks c) (two64 - 1)) with (getMinPartitionResolvedTs c).
  simpl.
  unfold drive at 1. simpl.
  destruct (getFrontDDL c) as [todo|]; simpl.
  - destruct (DDL_CommitTs todo <=? getMinPartitionResolvedTs c); simpl.
    + destruct flushDDL; [reflexivity|]. simpl.
      destruct writeDDL; [reflexivity|]. simpl.
      unfold drive. simpl.
      destruct (_ >? _); [reflexivity|]. simpl.
      destruct flushGlobal; reflexivity.
    + unfold drive. simpl.
      destruct (_ >? _); [reflexivity|]. simpl.
      destruct flushGlobal; reflexivity.
  - unfold drive. simpl.
    destruct (_ >? _); [reflexivity|]. simpl.
    destruct flushGlobal; reflexivity.
Qed.

(** Scenario S5 takes two rounds: the first one flushes to 400, writes the
    DDL and moves the global resolved-ts to 400, the second one moves it to
    500. *)
Example ddl_interleave_scenario :
  map globalResolvedTs (fst (execution (newConsumer 2) interleaveEvents))
    = [0; 0; 0; 0; 400; 500]
  /\ snd (execution (newConsumer 2) interleaveEvents) = None
  /\ snd (runRound
            (storeResolvedTs (storeResolvedTs
               (with_ddl (newConsumer 2) [ddl400] (Some ddl400)) 0 500) 1 500)
            None None None None)
     = [FlushEverySink 400; WriteDDLEvent ddl400; FlushEverySink 400].
Proof. vm_compute. repeat split. Qed.

(** Per-partition monotonicity does not keep the panic away: a DDL may
    arrive behind the global resolved-ts. *)
Lemma fallback_with_monotonic_partitions :
  partitionsMonotonic (startDriver (newConsumer 1)) lateDDLEvents
  /\ snd (interleaving (startDriver (newConsumer 1)) lateDDLEvents)
     = Some (Panics "global ResolvedTs fallback").
Proof.
  split; [|vm_compute; reflexivity].
  simpl. repeat split; auto.
  intros sink [= <-]. simpl. lia.
Qed.

(** Nor does it help that the DDL is not behind the global resolved-ts when
    it is received: received while a round runs that has already read the
    partition at 500 and the empty queue, the DDL of commit-ts 450 finds
    [globalResolvedTs] still at 0 and is accepted, and the next round
    panics. *)
Example fallback_with_ddl_inside_round :
  let start := startDriver (newConsumer 1) in
  partitionsMonotonic start ddlInsideRoundEvents
  /\ (forall d, fst (interleaving start ddlInsideRoundEvents) !! 5%nat = Some d ->
                pos d = AtCompare 500
                /\ globalResolvedTs (shared d) = 0
                /\ stepDriver d (Receive ddl450) <> Panics "DDL CommitTs < maxCommitTsDDL.CommitTs")
  /\ snd (interleaving start ddlInsideRoundEvents)
     = Some (Panics "global ResolvedTs fallback").
Proof.
  intros start. split; [|split].
  - simpl. repeat split; auto. intros sink [= <-]. simpl. lia.
  - intros d. vm_compute. intros [= <-].
    split; [reflexivity|]. split; [reflexivity|discriminate].
  - vm_compute. reflexivity.
Qed.

(** C7, amended. [globalResolvedTs] never decreases along an execution,
    whatever is consumed between the statements of [Run]: only the
    comparison of [Run] writes it, setting it to the larger of its old value
    and [minPartitionResolvedTs], and panicking when it finds it above
    [minPartitionResolvedTs]; in a round during which no message is consumed,
    [minPartitionResolvedTs] is there the minimum of the partitions'
    resolved-ts, lowered to the commit-ts of the front DDL when that DDL is
    executed.  From the consumer [NewConsumer] builds, the panic is out of
    reach when every partition's resolved-ts only moves forward and no DDL is
    received with a commit-ts below the minimum of the partitions'
    resolved-ts of that moment. *)
Theorem globalResolvedTs_never_decreases (partitionNum : nat)
    (events : list driverEvent) :
  (forall d i j a b,
     (i < j)%nat ->
     fst (interleaving d events) !! i = Some a ->
     fst (interleaving d events) !! j = Some b ->
     globalResolvedTs (shared a) <= globalResolvedTs (shared b))
  /\ (forall d e,
        match stepDriver d e with
        | Goes d' =>
            globalResolvedTs (shared d') = globalResolvedTs (shared d)
            \/ exists m answer,
                 pos d = AtCompare m /\ e = Drive answer
                 /\ globalResolvedTs (shared d) <= m
                 /\ globalResolvedTs (shared d')
                    = Z.max (globalResolvedTs (shared d)) m
        | Returns c err => globalResolvedTs c = globalResolvedTs (shared d)
        | Panics msg =>
            msg = "global ResolvedTs fallback" ->
            exists m answer, pos d = AtCompare m /\ e = Drive answer
                             /\ m < globalResolvedTs (shared d)
        end)
  /\ (forall c m answer,
        m < globalResolvedTs c ->
        stepDriver {| shared := c; pos := AtCompare m |} (Drive answer)
        = Panics "global ResolvedTs fallback")
  /\ (forall c ctx flushDDL writeDDL flushGlobal,
        match driveRound c ctx flushDDL writeDDL flushGlobal with
        | NextRound c' =>
            globalResolvedTs c <= adjustedMinPartitionResolvedTs c
            /\ globalResolvedTs c'
               = Z.max (globalResolvedTs c) (adjustedMinPartitionResolvedTs c)
        | Return c' err => True
        | Panicked msg =>
            msg = "global ResolvedTs fallback"
            /\ adjustedMinPartitionResolvedTs c < globalResolvedTs c
        end)
  /\ (partitionsMonotonic (startDriver (newConsumer partitionNum)) events ->
      ddlsNotBehind (startDriver (newConsumer partitionNum)) events ->
      snd (interleaving (startDriver (newConsumer partitionNum)) events)
      <> Some (Panics "global ResolvedTs fallback")).
Proof.
  split; [|split; [|split; [|split]]].
  - intros d i j a b. apply interleaving_monotonic.
  - intros d e. pose proof (stepDriver_globalResolvedTs d e) as H.
    destruct (stepDriver d e); tauto.
  - intros c m answer Hlt. simpl. unfold drive. simpl.
    destruct (Z.gtb_spec (globalResolvedTs c) m); [reflexivity|lia].
  - intros c ctx flushDDL writeDDL flushGlobal. rewrite driveRound_runRound.
    pose proof (runRound_globalResolvedTs c ctx flushDDL writeDDL flushGlobal) as H.
    destruct (fst (runRound c ctx flushDDL writeDDL flushGlobal)); tauto.
  - intros Hmono Hddl. apply interleaving_no_fallback; auto.
    split; [apply driverInv_newConsumer | exact I].
Qed.

(** C7 on scenario S5, with messages consumed while the rounds run. *)
Lemma globalResolvedTs_never_decreases_witness :
  map (fun d => globalResolvedTs (shared d))
      (fst (interleaving (startDriver (newConsumer 2)) interleavedEvents))
    = replicate 19 0 ++ replicate 7 400 ++ replicate 2 500
  /\ snd (interleaving (startDriver (newConsumer 2)) interleavedEvents)
     <> Some (Panics "global ResolvedTs fallback").
Proof.
  split; [vm_compute; reflexivity|].
  apply (globalResolvedTs_never_decreases 2 interleavedEvents).
  - simpl. repeat split; auto; intros sink [= <-]; simpl; lia.
  - simpl. repeat split; auto. vm_compute. discriminate.
Defined.

(** ** Fake table ids *)

Section FakeTableIDs.
Variable QuoteSchema : string -> string -> string.

Local Abbreviation key := (tableKey QuoteSchema).
Local Abbreviation generate := (generateFakeTableID QuoteSchema).

Lemma generateFakeTableID_lookup g schema table partition :
  tableIDs (snd (generate g schema table partition)) !! key schema table partition
  = Some (fst (generate g schema table partition)).
Proof.
  unfold generateFakeTableID.
  destruct (tableIDs g !! key schema table partition) eqn:E; simpl.
  - exact E.
  - apply lookup_insert_eq.
Qed.

Lemma generateFakeTableID_again g schema table partition :
  generate (snd (generate g schema table partition)) schema table partition
  = generate g schema table partition.
Proof.
  pose proof (generateFakeTableID_lookup g schema table partition) as H.
  unfold generateFakeTableID at 1. rewrite H.
  unfold generateFakeTableID.
  destruct (tableIDs g !! key schema table partition); reflexivity.
Qed.

Lemma generatorInv_new : generatorInv newFakeTableIDGenerator.
Proof.
  unfold generatorInv, newFakeTableIDGenerator.
  cbn [tableIDs currentTableID].
  split; [lia|]. split.
  - intros k id H. rewrite lookup_empty in H. discriminate.
  - intros k1 k2 id H. rewrite lookup_empty in H. discriminate.
Qed.

Lemma generatorInv_step g schema table partition :
  generatorInv g -> currentTableID g + 1 < two63 ->
  generatorInv (snd (generate g schema table partition))
  /\ currentTableID (snd (generate g schema table partition)) <= currentTableID g + 1
  /\ tableIDs g ⊆ tableIDs (snd (generate g schema table partition)).
Proof.
  intros (Hpos & Hrange & Hinj) Hbound. unfold generateFakeTableID.
  destruct (tableIDs g !! key schema table partition) eqn:E; simpl.
  - split; [|split]; [exact (conj Hpos (conj Hrange Hinj)) | lia | reflexivity].
  - assert (Hcur : to_int64 (currentTableID g + 1) = currentTableID g + 1).
    { apply to_int64_small. unfold is_int64, two63 in *. lia. }
    rewrite Hcur.
    split; [|split]; [split; [|split] | lia | ]; simpl; try lia.
    + intros k id Hk. apply lookup_insert_Some in Hk as [[_ <-]|[_ Hk]]; [lia|].
      specialize (Hrange k id Hk). lia.
    + intros k1 k2 id H1 H2.
      apply lookup_insert_Some in H1 as [[<- <-]|[Hne1 H1]];
        apply lookup_insert_Some in H2 as [[E2 E2']|[Hne2 H2]]; auto.
      * specialize (Hrange k2 _ H2). lia.
      * subst. specialize (Hrange k1 _ H1). lia.
      * eapply Hinj; eauto.
    + now apply insert_subseteq.
Qed.

Lemma generateAll_lookup (calls : list (string * string * Z)) : forall g,
  generatorInv g ->
  currentTableID g + Z.of_nat (length calls) < two63 ->
  generatorInv (snd (generateAll QuoteSchema g calls))
  /\ tableIDs g ⊆ tableIDs (snd (generateAll QuoteSchema g calls))
  /\ forall i schema table partition id,
       calls !! i = Some (schema, table, partition) ->
       fst (generateAll QuoteSchema g calls) !! i = Some id ->
       tableIDs (snd (generateAll QuoteSchema g calls)) !! key schema table partition
       = Some id.
Proof.
  induction calls as [|[[schema0 table0] partition0] calls IH]; intros g Hinv Hbound.
  - simpl. split; [exact Hinv|]. split; [reflexivity|].
    intros i schema table partition id Hcall. rewrite lookup_nil in Hcall.
    discriminate.
  - cbn [generateAll].
    pose proof (generateFakeTableID_lookup g schema0 table0 partition0) as Hlook.
    destruct (generatorInv_step g schema0 table0 partition0 Hinv) as (Hinv1 & Hcur1 & Hsub1).
    { simpl length in Hbound. lia. }
    destruct (generate g schema0 table0 partition0) as [id0 g1]. simpl in *.
    destruct (IH g1 Hinv1) as (Hinv' & Hsub' & Hids); [lia|].
    destruct (generateAll QuoteSchema g1 calls) as [ids g']. simpl in *.
    split; [exact Hinv'|]. split; [etrans; eauto|].
    intros [|i] schema table partition id Hcall Hid; simpl in *.
    + injection Hcall as -> -> ->. injection Hid as <-.
      eapply lookup_weaken; eauto.
    + eapply Hids; eauto.
Qed.

(** C10. Calling [generateFakeTableID] again with the same triple returns the
    same id and leaves the generator as it is.  When the key of a triple
    determines the triple (a property of [quotes.QuoteSchema]), the ids
    handed out by fewer than 2^63 calls on the generator of [NewConsumer] are
    strictly positive, and distinct triples receive distinct ids. *)
Theorem generateFakeTableID_idempotent_injective
    (calls : list (string * string * Z)) :
  (forall schema table partition schema' table' partition',
     key schema table partition = key schema' table' partition' ->
     (schema, table, partition) = (schema', table', partition')) ->
  Z.of_nat (length calls) < two63 ->
  (forall g schema table partition,
     generate (snd (generate g schema table partition)) schema table partition
     = (fst (generate g schema table partition),
        snd (generate g schema table partition)))
  /\ (forall i j triple triple' id id',
        calls !! i = Some triple -> calls !! j = Some triple' ->
        fst (generateAll QuoteSchema newFakeTableIDGenerator calls) !! i = Some id ->
        fst (generateAll QuoteSchema newFakeTableIDGenerator calls) !! j = Some id' ->
        0 < id /\ (triple = triple' -> id = id') /\ (triple <> triple' -> id <> id')).
Proof.
  intros Hkey Hlen. split.
  - intros g schema table partition. rewrite generateFakeTableID_again.
    apply surjective_pairing.
  - intros i j [[s t] p] [[s' t'] p'] id id' Hi Hj Hid Hid'.
    destruct (generateAll_lookup calls newFakeTableIDGenerator generatorInv_new)
      as ((_ & Hrange & Hinj) & _ & Hids); [simpl; lia|].
    pose proof (Hids i s t p id Hi Hid) as H1.
    pose proof (Hids j s' t' p' id' Hj Hid') as H2.
    split; [specialize (Hrange _ _ H1); lia|]. split.
    + intros [= -> -> ->]. congruence.
    + intros Hne ->. apply Hne. apply Hkey. eapply Hinj; eauto.
Qed.

End FakeTableIDs.

(** *** Backquoted keys determine the triple *)

#[local] Arguments String.append !_ _ / : simpl nomatch.

Lemma string_app_assoc (a b c : string) : (a +:+ b) +:+ c = a +:+ (b +:+ c).
Proof. induction a as [|x a IH]; simpl; [reflexivity | now rewrite IH]. Qed.

Lemma string_app_last_inj (c : ascii) (a : string) : forall b,
  a +:+ String c "" = b +:+ String c "" -> a = b.
Proof.
  induction a as [|x a IH]; intros [|y b] H; simpl in H.
  - reflexivity.
  - injection H as _ H. destruct b; discriminate.
  - injection H as _ H. destruct a; discriminate.
  - injection H as -> H. f_equal. now apply IH.
Qed.

(** An escaped name followed by a closing backquote can be read back. *)
Lemma escapeName_closed_inj (s : string) : forall s' r r',
  noBackquoteAhead r -> noBackquoteAhead r' ->
  escapeName s +:+ String backquote r = escapeName s' +:+ String backquote r' ->
  s = s' /\ r = r'.
Proof.
  induction s as [|c s IH]; intros [|c' s'] r r' Hr Hr' H; simpl in H.
  - injection H as ->. auto.
  - destruct (Ascii.eqb_spec c' backquote) as [->|Hc'].
    + simpl in H. injection H as ->. simpl in Hr. congruence.
    + simpl in H. injection H as E. congruence.
  - destruct (Ascii.eqb_spec c backquote) as [->|Hc].
    + simpl in H. injection H as <-. simpl in Hr'. congruence.
    + simpl in H. injection H as E. congruence.
  - destruct (Ascii.eqb_spec c backquote) as [->|Hc],
             (Ascii.eqb_spec c' backquote) as [->|Hc']; simpl in H.
    + injection H as H. destruct (IH s' r r' Hr Hr' H) as [-> ->]. auto.
    + injection H as E. congruence.
    + injection H as E. congruence.
    + injection H as -> H. destruct (IH s' r r' Hr Hr' H) as [-> ->]. auto.
Qed.

Lemma partitionSuffix_inj (p p' : Z) :
  partitionSuffix p = partitionSuffix p' -> p = p'.
Proof.
  unfold partitionSuffix.
  destruct (Z.eqb_spec p 0) as [->|Hp], (Z.eqb_spec p' 0) as [->|Hp']; simpl;
    try discriminate; auto.
  intros H. injection H as H.
  apply string_app_last_inj in H. now apply (inj pretty).
Qed.

Lemma tableKey_backquoteSchema (schema table : string) (partition : Z) :
  tableKey backquoteSchema schema table partition
  = String backquote
      (escapeName schema +:+
         String backquote (String "." (String backquote
           (escapeName table +:+ String backquote (partitionSuffix partition))))).
Proof.
  unfold tableKey, backquoteSchema, partitionSuffix.
  destruct (negb (partition =? 0)); simpl.
  - rewrite string_app_assoc. simpl. rewrite string_app_assoc. reflexivity.
  - reflexivity.
Qed.

Lemma tableKey_backquoteSchema_inj schema table partition schema' table' partition' :
  tableKey backquoteSchema schema table partition
  = tableKey backquoteSchema schema' table' partition' ->
  (schema, table, partition) = (schema', table', partition').
Proof.
  rewrite !tableKey_backquoteSchema. intros H. injection H as H.
  apply escapeName_closed_inj in H as [-> H]; [|simpl; discriminate..].
  injection H as H.
  apply escapeName_closed_inj in H as [-> H].
  - now apply partitionSuffix_inj in H as ->.
  - unfold partitionSuffix. destruct (negb _); simpl; [discriminate|exact I].
  - unfold partitionSuffix. destruct (negb _); simpl; [discriminate|exact I].
Qed.

(** C10 with backquoted keys: a table, another table, a partition of the
    first, and the first again. *)
Lemma generateFakeTableID_idempotent_injective_witness :
  let calls := [ ("test", "t1", 0); ("test", "t2", 0); ("test", "t1", 3);
                 ("test", "t1", 0) ] in
  fst (generateAll backquoteSchema newFakeTableIDGenerator calls) = [1; 2; 3; 1]
  /\ (1 : Z) <> 3.
Proof.
  intros calls. split; [vm_compute; reflexivity|].
  destruct (generateFakeTableID_idempotent_injective backquoteSchema calls)
    as [_ H].
  - apply tableKey_backquoteSchema_inj.
  - vm_compute. reflexivity.
  - destruct (H 0%nat 2%nat ("test", "t1", 0) ("test", "t1", 3) 1 3)
      as (_ & _ & Hne); try (vm_compute; reflexivity).
    apply Hne. discriminate.
Defined.

(** * Further properties *)

(** ** The ledger as the wrapper builds and trims it *)

Lemma to_int64_idem x : to_int64 (to_int64 x) = to_int64 x.
Proof.
  apply to_int64_small. unfold is_int64, to_int64, two63, two64.
  pose proof (Z.mod_pos_bound (x + 2 ^ 63) (2 ^ 64) ltac:(lia)). lia.
Qed.

Lemma ascending_tail (r : rangeEventCount) (c : list rangeEventCount) :
  ascending (r :: c) -> ascending c.
Proof.
  intros Hasc i j ri rj Hi Hj Hij. apply (Hasc (S i) (S j)); auto. lia.
Qed.

(** On an ascending ledger the records up to an upper bound come first. *)
Lemma ascending_first_index (upperBound : Position) (c : list rangeEventCount) :
  ascending c ->
  exists idx, (idx <= length c)%nat
    /\ (forall i ri, (i < idx)%nat -> c !! i = Some ri ->
                     Compare (lastPos ri) upperBound <= 0)
    /\ (forall i ri, (idx <= i)%nat -> c !! i = Some ri ->
                     Compare (lastPos ri) upperBound > 0).
Proof.
  induction c as [|r c IH]; intros Hasc.
  - exists 0%nat. simpl. repeat split; auto; intros i ri _ Hi;
      rewrite lookup_nil in Hi; discriminate.
  - destruct (Z_le_gt_dec (Compare (lastPos r) upperBound) 0) as [Hle|Hgt].
    + destruct (IH (ascending_tail _ _ Hasc)) as (idx & Hidx & Hlo & Hhi).
      exists (S idx). simpl. split; [lia|]. split.
      * intros [|i] ri Hi Hl; simpl in Hl.
        -- injection Hl as <-. exact Hle.
        -- apply (Hlo i); auto. lia.
      * intros [|i] ri Hi Hl; [lia|]. simpl in Hl. apply (Hhi i); auto. lia.
    + exists 0%nat. simpl. split; [lia|]. split; [intros; lia|].
      intros [|i] ri _ Hl; simpl in Hl.
      * injection Hl as <-. exact Hgt.
      * apply (Compare_gt_mono (lastPos r)); [|exact Hgt].
        apply (Hasc 0%nat (S i)); auto. lia.
Qed.

(** What [cleanRangeEventCounts] computes once the split index is known. *)
Lemma cleanRangeEventCounts_at
    (c : list rangeEventCount) (upperBound : Position) (minEvents : Z) (idx : nat) :
  (idx <= length c)%nat ->
  (forall i ri, (i < idx)%nat -> c !! i = Some ri ->
                Compare (lastPos ri) upperBound <= 0) ->
  (forall i ri, (idx <= i)%nat -> c !! i = Some ri ->
                Compare (lastPos ri) upperBound > 0) ->
  let total := to_int64 (sumEvents (take idx c)) in
  cleanRangeEventCounts c upperBound minEvents =
    match c !! (idx - 1)%nat with
    | Some r =>
        if Nat.eqb idx 0 then (c, false)
        else if total >=? minEvents then (drop idx c, true)
        else ({| firstPos := firstPos r; lastPos := lastPos r; Ledger.events := total |}
                :: drop idx c, false)
    | None => (c, false)
    end.
Proof.
  intros Hidx Hlo Hhi total. unfold cleanRangeEventCounts.
  assert (Hsearch :
    Search (length c)
      (fun i => match c !! i with
                | Some r => Compare (lastPos r) upperBound >? 0
                | None => false
                end) = idx).
  { apply Search_first; [exact Hidx| |].
    - intros k Hk. destruct (c !! k) as [r|] eqn:Hr; [|reflexivity].
      specialize (Hlo k r Hk Hr).
      destruct (Z.gtb_spec (Compare (lastPos r) upperBound) 0); [lia|reflexivity].
    - intros k [Hk1 Hk2].
      destruct (lookup_lt_is_Some_2 c k Hk2) as [rk Hrk]. rewrite Hrk.
      specialize (Hhi k rk Hk1 Hrk).
      destruct (Z.gtb_spec (Compare (lastPos rk) upperBound) 0); [reflexivity|lia]. }
  rewrite Hsearch, countEvents_sum. fold total.
  destruct idx as [|idx].
  - rewrite orb_true_r. now destruct (c !! (0 - 1)%nat).
  - replace (Nat.eqb (length c) 0) with false
      by (symmetry; apply Nat.eqb_neq; lia).
    replace (S idx - 1)%nat with idx by lia.
    destruct (lookup_lt_is_Some_2 c idx ltac:(lia)) as [r Hr].
    rewrite Hr. simpl.
    destruct (total >=? minEvents); simpl; [reflexivity|].
    now rewrite drop_insert_here by lia.
Qed.

Lemma sumEvents_app (a b : list rangeEventCount) :
  sumEvents (a ++ b) = sumEvents a + sumEvents b.
Proof. induction a as [|r a IH]; simpl; [reflexivity | rewrite IH; lia]. Qed.

Lemma ascending_drop (n : nat) (c : list rangeEventCount) :
  ascending c -> ascending (drop n c).
Proof.
  intros Hasc i j ri rj Hi Hj Hij. rewrite lookup_drop in Hi, Hj.
  apply (Hasc (n + i)%nat (n + j)%nat); auto. lia.
Qed.

Lemma ascending_same_lastPos (c c' : list rangeEventCount) :
  map lastPos c = map lastPos c' -> ascending c -> ascending c'.
Proof.
  intros Hmap Hasc i j ri rj Hi Hj Hij.
  assert (Hl : forall k r, c' !! k = Some r ->
                 exists r0, c !! k = Some r0 /\ lastPos r0 = lastPos r).
  { intros k r Hk.
    assert (Hm : map lastPos c !! k = Some (lastPos r)).
    { rewrite Hmap. change (map lastPos c') with (lastPos <$> c').
      now rewrite list_lookup_fmap, Hk. }
    change (map lastPos c) with (lastPos <$> c) in Hm.
    rewrite list_lookup_fmap in Hm.
    destruct (c !! k) as [r0|]; [|discriminate].
    injection Hm as Hm. eauto. }
  destruct (Hl i ri Hi) as (ri0 & Hi0 & <-).
  destruct (Hl j rj Hj) as (rj0 & Hj0 & <-).
  eapply Hasc; eauto.
Qed.

Lemma cleanRangeEventCounts_ascending
    (c : list rangeEventCount) (upperBound : Position) (minEvents : Z) :
  ascending c -> ascending (fst (cleanRangeEventCounts c upperBound minEvents)).
Proof.
  intros Hasc.
  destruct (ascending_first_index upperBound c Hasc) as (idx & Hidx & Hlo & Hhi).
  rewrite (cleanRangeEventCounts_at c upperBound minEvents idx Hidx Hlo Hhi).
  destruct (c !! (idx - 1)%nat) as [r|] eqn:Hr; [|exact Hasc].
  destruct idx as [|idx]; [exact Hasc|]. simpl Nat.eqb. cbv iota.
  destruct (_ >=? minEvents); simpl.
  - now apply ascending_drop.
  - apply (ascending_same_lastPos (drop idx c)); [|now apply ascending_drop].
    replace (S idx - 1)%nat with idx in Hr by lia.
    rewrite (drop_S c r idx Hr). reflexivity.
Qed.

(** X1. Whatever updates and cleanups the wrapper makes, in whatever order,
    on the ledger it starts with (an empty one), the last positions of the
    ledger are strictly ascending: the binary search of the cleanup always
    runs on a sorted slice. *)
Theorem ledger_always_ascending (calls : list ledgerCall) :
  ascending (ledgerAfter calls []).
Proof.
  unfold ledgerAfter.
  assert (H : forall c, ascending c -> ascending (fold_left ledgerStep calls c)).
  { induction calls as [|call calls IH]; intros c Hc; simpl; [exact Hc|].
    apply IH. destruct call; simpl.
    - now apply updateRangeEventCounts_ascending.
    - now apply cleanRangeEventCounts_ascending. }
  apply H. intros i j ri rj Hi. rewrite lookup_nil in Hi. discriminate.
Qed.

(** X2. [updateRangeEventCounts] loses no count: when it takes the record
    (empty ledger, or a last position beyond the ledger's) the events of the
    ledger, added in Go's [int], grow by the events of the record, whether the
    record is appended or merged; otherwise the ledger is left as it is and
    the record's events are not counted. *)
Theorem updateRangeEventCounts_counts
    (c : list rangeEventCount) (eventCount : rangeEventCount) :
  (advancesLedger c eventCount = true ->
     to_int64 (sumEvents (updateRangeEventCounts c eventCount))
     = to_int64 (sumEvents c + Ledger.events eventCount))
  /\ (advancesLedger c eventCount = false ->
        updateRangeEventCounts c eventCount = c).
Proof.
  unfold advancesLedger.
  destruct c as [|lastRec init _] using rev_ind.
  - simpl. split; [intros _; f_equal; lia | discriminate].
  - rewrite last_snoc.
    set (c := init ++ [lastRec]).
    assert (Hlen : length c = S (length init)).
    { unfold c. rewrite length_app. simpl. lia. }
    assert (Hlook : c !! (length c - 1)%nat = Some lastRec).
    { rewrite Hlen. replace (S (length init) - 1)%nat with (length init) by lia.
      unfold c. now rewrite list_lookup_middle. }
    unfold updateRangeEventCounts. rewrite Hlook.
    replace (Nat.eqb (length c) 0) with false by (rewrite Hlen; reflexivity).
    destruct (Compare (lastPos lastRec) (lastPos eventCount) <? 0);
      split; try discriminate; try reflexivity. intros _.
    match goal with |- context [?d >=? 1000] => destruct (d >=? 1000) end.
    + rewrite sumEvents_app. simpl. f_equal. lia.
    + rewrite Hlen. replace (S (length init) - 1)%nat with (length init + 0)%nat by lia.
      unfold c. rewrite insert_app_r. simpl.
      rewrite !sumEvents_app. simpl. unfold add_int.
      rewrite !Z.add_0_r.
      replace (sumEvents init
               + to_int64 (Ledger.events lastRec + Ledger.events eventCount))
        with (to_int64 (Ledger.events lastRec + Ledger.events eventCount)
              + sumEvents init) by lia.
      rewrite to_int64_add_l. f_equal. lia.
Qed.

Lemma updateRangeEventCounts_counts_witness :
  let c := [newRangeEventCount (posAtMs 1000000000) 5] in
  to_int64 (sumEvents (updateRangeEventCounts c (newRangeEventCount (posAtMs 1000000500) 3)))
    = 8
  /\ updateRangeEventCounts c (newRangeEventCount (posAtMs 999999000) 3) = c.
Proof.
  intros c. split.
  - destruct (updateRangeEventCounts_counts c (newRangeEventCount (posAtMs 1000000500) 3))
      as [H _].
    rewrite H; vm_compute; reflexivity.
  - destruct (updateRangeEventCounts_counts c (newRangeEventCount (posAtMs 999999000) 3))
      as [_ H].
    apply H. vm_compute. reflexivity.
Defined.

Lemma ascendingb_ascending (c : list rangeEventCount) :
  ascendingb c = true -> ascending c.
Proof.
  induction c as [|r c IH]; simpl; intros H i j ri rj Hi Hj Hij.
  - rewrite lookup_nil in Hi. discriminate.
  - apply andb_true_iff in H as [Hall Hrest].
    destruct j as [|j]; [lia|]. simpl in Hj.
    destruct i as [|i]; simpl in Hi.
    + injection Hi as <-. rewrite forallb_forall in Hall.
      apply Z.ltb_lt, Hall, list_elem_of_In. eapply list_elem_of_lookup_2; eauto.
    + apply (IH Hrest i j); auto. lia.
Qed.

(** X3. On an ascending ledger, a cleanup that returns true removes exactly
    the records whose last position is at or before the upper bound (every
    record beyond it is kept, in order), and these removed records count, in
    Go's [int], at least [minEvents] events. *)
Theorem cleanRangeEventCounts_true
    (c : list rangeEventCount) (upperBound : Position) (minEvents : Z) :
  ascending c ->
  snd (cleanRangeEventCounts c upperBound minEvents) = true ->
  fst (cleanRangeEventCounts c upperBound minEvents)
    = filter (fun r => ~ Compare (lastPos r) upperBound <= 0) c
  /\ minEvents
     <= to_int64 (sumEvents (filter (fun r => Compare (lastPos r) upperBound <= 0) c)).
Proof.
  intros Hasc.
  destruct (ascending_first_index upperBound c Hasc) as (idx & Hidx & Hlo & Hhi).
  rewrite (cleanRangeEventCounts_at c upperBound minEvents idx Hidx Hlo Hhi).
  assert (Htake : Forall (fun r => Compare (lastPos r) upperBound <= 0) (take idx c)).
  { apply Forall_lookup. intros i r Hi.
    apply lookup_take_Some in Hi as [Hi Hlt]. eapply Hlo; eauto. }
  assert (Hdrop : Forall (fun r => ~ Compare (lastPos r) upperBound <= 0) (drop idx c)).
  { apply Forall_lookup. intros i r Hi. rewrite lookup_drop in Hi.
    specialize (Hhi (idx + i)%nat r ltac:(lia) Hi). lia. }
  destruct (filter_take_drop (fun r => Compare (lastPos r) upperBound <= 0) c idx
              Htake Hdrop) as [-> ->].
  destruct (c !! (idx - 1)%nat); [|discriminate].
  destruct (Nat.eqb idx 0); [discriminate|].
  destruct (Z.geb_spec (to_int64 (sumEvents (take idx c))) minEvents); simpl;
    [|discriminate].
  intros _. split; [reflexivity | lia].
Qed.

Lemma cleanRangeEventCounts_true_witness :
  let rec0 := {| firstPos := posAtMs 1000000000; lastPos := posAtMs 1000000500;
                 Ledger.events := 8 |} in
  let rec1 := newRangeEventCount (posAtMs 1000001500) 2 in
  fst (cleanRangeEventCounts [rec0; rec1] (posAtMs 1000001000) 5) = [rec1].
Proof.
  intros rec0 rec1.
  destruct (cleanRangeEventCounts_true [rec0; rec1] (posAtMs 1000001000) 5) as [H _].
  - apply ascendingb_ascending. vm_compute. reflexivity.
  - vm_compute. reflexivity.
  - rewrite H. vm_compute. reflexivity.
Defined.

(** X4. On an ascending ledger, a cleanup that returns false changes no
    count and settles: the events of the ledger, added in Go's [int], are what
    they were, the ledger is not longer, and the same cleanup made again
    returns false and leaves the ledger as the first one left it. *)
Theorem cleanRangeEventCounts_false
    (c : list rangeEventCount) (upperBound : Position) (minEvents : Z) :
  ascending c ->
  snd (cleanRangeEventCounts c upperBound minEvents) = false ->
  let c' := fst (cleanRangeEventCounts c upperBound minEvents) in
  to_int64 (sumEvents c') = to_int64 (sumEvents c)
  /\ (length c' <= length c)%nat
  /\ cleanRangeEventCounts c' upperBound minEvents = (c', false).
Proof.
  intros Hasc.
  destruct (ascending_first_index upperBound c Hasc) as (idx & Hidx & Hlo & Hhi).
  pose proof (cleanRangeEventCounts_at c upperBound minEvents idx Hidx Hlo Hhi) as Hc.
  simpl in Hc.
  destruct (c !! (idx - 1)%nat) as [r|] eqn:Hr;
    [|rewrite Hc; simpl; intros _; rewrite Hc; auto].
  destruct idx as [|idx]; [rewrite Hc; simpl; intros _; rewrite Hc; auto|].
  simpl Nat.eqb in Hc. cbv iota in Hc.
  replace (S idx - 1)%nat with idx in Hr by lia.
  set (total := to_int64 (sumEvents (take (S idx) c))) in *.
  destruct (Z.geb_spec total minEvents) as [Hge|Hlt];
    rewrite Hc; simpl; [discriminate|]. intros _.
  set (folded := {| firstPos := firstPos r; lastPos := lastPos r;
                    Ledger.events := total |}).
  split; [|split].
  - unfold total. rewrite to_int64_add_l.
    rewrite <- sumEvents_app, take_drop. reflexivity.
  - rewrite length_drop. lia.
  - pose proof (cleanRangeEventCounts_at (folded :: drop (S idx) c)
                  upperBound minEvents 1) as H1.
    simpl in H1. rewrite H1; clear H1.
    + rewrite Z.add_0_r.
      replace (to_int64 total) with total by (symmetry; apply to_int64_idem).
      destruct (Z.geb_spec total minEvents); [lia|]. rewrite drop_0. reflexivity.
    + lia.
    + intros i ri Hi Hl. destruct i; [|lia]. injection Hl as <-. simpl.
      apply (Hlo idx r); [lia | exact Hr].
    + intros i ri Hi Hl. destruct i as [|i]; [lia|]. simpl in Hl.
      rewrite lookup_drop in Hl. apply (Hhi (S idx + i)%nat ri); [lia | exact Hl].
Qed.

Lemma cleanRangeEventCounts_false_witness :
  let rec0 := newRangeEventCount (posAtMs 1000000000) 5 in
  let rec1 := newRangeEventCount (posAtMs 1000001500) 3 in
  let rec2 := newRangeEventCount (posAtMs 1000003000) 2 in
  let c' := fst (cleanRangeEventCounts [rec0; rec1; rec2] (posAtMs 1000002000) 10) in
  c' = [ {| firstPos := posAtMs 1000001500; lastPos := posAtMs 1000001500;
            Ledger.events := 8 |}; rec2 ]
  /\ cleanRangeEventCounts c' (posAtMs 1000002000) 10 = (c', false).
Proof.
  intros rec0 rec1 rec2 c'. split; [vm_compute; reflexivity|].
  apply (cleanRangeEventCounts_false [rec0; rec1; rec2] (posAtMs 1000002000) 10).
  - apply ascendingb_ascending. vm_compute. reflexivity.
  - vm_compute. reflexivity.
Defined.

(** ** The wrapper's timestamps and states *)

Import sinkmanager.

Lemma clear_timestamps t now : timestamps (clear t now) = timestamps t.
Proof.
  unfold clear. destruct (tableSink_s t); [|reflexivity].
  now destruct (Less _ _).
Qed.

Lemma getCheckpointTs_timestamps t now :
  timestamps (fst (getCheckpointTs t now)) = timestamps t.
Proof.
  unfold getCheckpointTs. simpl. destruct (tableSink_s t); [|reflexivity].
  destruct (Less _ _); [reflexivity|]. now destruct (negb _).
Qed.

Lemma markAsClosing_timestamps t : timestamps (markAsClosing t) = timestamps t.
Proof. unfold markAsClosing. now destruct (TableState_eqb _ _). Qed.

Lemma asyncClose_timestamps t now :
  timestamps (fst (asyncClose t now)) = timestamps t.
Proof.
  unfold asyncClose. destruct (tableSink_s t) as [s|]; [|reflexivity].
  destruct (AsyncClose s); simpl; [apply clear_timestamps | reflexivity].
Qed.

Lemma Close_timestamps t closed : timestamps (Close t closed) = timestamps t.
Proof. unfold Close. now destruct (tableSink_s t). Qed.

Lemma step_timestamps (t t' : tableSinkWrapper) (c : call) (o : option ResolvedTs) :
  step t c = Some (t', o) ->
  barrierTs t <= barrierTs t'
  /\ receivedSorterResolvedTs t <= receivedSorterResolvedTs t'
  /\ startTs t' = startTs t.
Proof.
  assert (Hsame : forall t1, timestamps t1 = timestamps t ->
            barrierTs t <= barrierTs t1
            /\ receivedSorterResolvedTs t <= receivedSorterResolvedTs t1
            /\ startTs t1 = startTs t).
  { unfold timestamps. intros t1 [= -> -> ->]. lia. }
  destruct c as [ts gen now|events|ts|ts|ts|now| |now|created now|now|closed|now
                |closed now|gen|stuckCheck now since|s| ]; unfold step.
  - unfold start. destruct (negb _); [discriminate|].
    destruct (snd gen); [intros [= <- <-]; simpl; lia|].
    simpl. destruct (Z.leb_spec ts (receivedSorterResolvedTs t));
      destruct (Greater _ _); intros [= <- <-]; simpl; lia.
  - intros [= <- <-]. apply Hsame. unfold appendRowChangedEvents.
    now destruct (tableSink_s t).
  - intros [= <- <-]. unfold updateBarrierTs.
    destruct (Z.leb_spec ts (barrierTs t)); simpl; lia.
  - intros [= <- <-]. unfold updateReceivedSorterResolvedTs.
    destruct (Z.leb_spec ts (receivedSorterResolvedTs t)); [lia|].
    destruct (TableState_eqb _ _); simpl; lia.
  - intros [= <- <-]. apply Hsame. unfold updateResolvedTs.
    now destruct (tableSink_s t).
  - pose proof (getCheckpointTs_timestamps t now) as H.
    destruct (getCheckpointTs t now) as [t1 r]. intros [= <- <-]. now apply Hsame.
  - intros [= <- <-]. apply Hsame, markAsClosing_timestamps.
  - intros [= <- <-]. apply Hsame. unfold asyncStop.
    pose proof (asyncClose_timestamps (markAsClosing t) now) as H.
    rewrite markAsClosing_timestamps in H.
    destruct (asyncClose (markAsClosing t) now) as [t1 [|]]; exact H.
  - intros [= <- <-]. apply Hsame. unfold isReady.
    destruct (tableSink_s t); [reflexivity|]. simpl. now destruct (fst created).
  - intros [= <- <-]. apply Hsame, asyncClose_timestamps.
  - intros [= <- <-]. apply Hsame, Close_timestamps.
  - intros [= <- <-]. apply Hsame, clear_timestamps.
  - intros [= <- <-]. apply Hsame. unfold closeAndClear.
    now rewrite clear_timestamps, Close_timestamps.
  - intros [= <- <-]. now apply Hsame.
  - intros [= <- <-]. apply Hsame. exact (getCheckpointTs_timestamps t now).
  - destruct (tableSink_s t); intros [= <- <-]; now apply Hsame.
  - intros [= <- <-]. now apply Hsame.
Qed.

Lemma getUpperBoundTs_min (t : tableSinkWrapper) :
  getUpperBoundTs t = Z.min (receivedSorterResolvedTs t) (barrierTs t).
Proof.
  unfold getUpperBoundTs, getReceivedSorterResolvedTs.
  destruct (Z.gtb_spec (receivedSorterResolvedTs t) (barrierTs t)); lia.
Qed.

Lemma runCalls_timestamps (calls : list call) : forall t t',
  runCalls t calls = Some t' ->
  barrierTs t <= barrierTs t'
  /\ receivedSorterResolvedTs t <= receivedSorterResolvedTs t'
  /\ startTs t' = startTs t.
Proof.
  induction calls as [|c calls IH]; intros t t' Hrun; simpl in Hrun.
  - injection Hrun as <-. lia.
  - destruct (step t c) as [[t1 o]|] eqn:E; [|discriminate].
    destruct (step_timestamps _ _ _ _ E) as (H1 & H2 & H3).
    destruct (IH _ _ Hrun) as (H4 & H5 & H6). lia.
Qed.

(** X5. Along every execution of a wrapper, the barrier-ts, the
    sorter-resolved-ts and hence the upper bound (their minimum) never move
    backward, whatever is called and whatever the sinks do; on a wrapper
    built by [newTableSinkWrapper] the upper bound never falls below the
    start-ts. *)
Theorem upperBoundTs_never_decreases (t : tableSinkWrapper) (calls : list call)
    (st : TableState) (startTs0 now : Z) :
  match runCalls t calls with
  | Some t' =>
      barrierTs t <= barrierTs t'
      /\ receivedSorterResolvedTs t <= receivedSorterResolvedTs t'
      /\ getUpperBoundTs t <= getUpperBoundTs t'
      /\ getUpperBoundTs t' = Z.min (receivedSorterResolvedTs t') (barrierTs t')
  | None => True
  end
  /\ match runCalls (newTableSinkWrapper st startTs0 now) calls with
     | Some t' => startTs t' = startTs0 /\ startTs0 <= getUpperBoundTs t'
     | None => True
     end.
Proof.
  split.
  - destruct (runCalls t calls) as [t'|] eqn:E; [|exact I].
    destruct (runCalls_timestamps _ _ _ E) as (H1 & H2 & H3).
    rewrite !getUpperBoundTs_min. lia.
  - destruct (runCalls _ calls) as [t'|] eqn:E; [|exact I].
    destruct (runCalls_timestamps _ _ _ E) as (H1 & H2 & H3).
    rewrite getUpperBoundTs_min. simpl in *. lia.
Qed.

(** X6. The two compare-and-swap updates take a maximum: the stored value is
    the larger of the old one and the argument, so two updates in a row are
    one update with the larger argument, and an argument that is not larger
    than the stored value changes nothing (not even the table state). *)
Theorem updateTs_is_max (t : tableSinkWrapper) (a b : Z) :
  barrierTs (updateBarrierTs t a) = Z.max (barrierTs t) a
  /\ updateBarrierTs (updateBarrierTs t a) b = updateBarrierTs t (Z.max a b)
  /\ receivedSorterResolvedTs (updateReceivedSorterResolvedTs t a)
     = Z.max (receivedSorterResolvedTs t) a
  /\ updateReceivedSorterResolvedTs (updateReceivedSorterResolvedTs t a) b
     = updateReceivedSorterResolvedTs t (Z.max a b)
  /\ (a <= barrierTs t -> updateBarrierTs t a = t)
  /\ (a <= receivedSorterResolvedTs t -> updateReceivedSorterResolvedTs t a = t).
Proof.
  unfold updateBarrierTs, updateReceivedSorterResolvedTs.
  repeat split.
  - destruct (Z.leb_spec a (barrierTs t)); simpl; lia.
  - destruct (Z.leb_spec a (barrierTs t)); simpl.
    + destruct (Z.leb_spec b (barrierTs t)), (Z.leb_spec (Z.max a b) (barrierTs t));
        try lia; try reflexivity.
      unfold with_barrierTs. f_equal. lia.
    + destruct (Z.leb_spec b a), (Z.leb_spec (Z.max a b) (barrierTs t));
        try lia; unfold with_barrierTs; simpl; f_equal; lia.
  - destruct (Z.leb_spec a (receivedSorterResolvedTs t)); [lia|].
    destruct (TableState_eqb _ _); simpl; lia.
  - destruct (Z.leb_spec a (receivedSorterResolvedTs t)); simpl.
    + destruct (Z.leb_spec b (receivedSorterResolvedTs t)),
               (Z.leb_spec (Z.max a b) (receivedSorterResolvedTs t));
        try lia; try reflexivity.
      replace (Z.max a b) with b by lia. reflexivity.
    + destruct (Z.leb_spec (Z.max a b) (receivedSorterResolvedTs t)); [lia|].
      destruct (state t) eqn:Est; simpl;
        destruct (Z.leb_spec b a); simpl; rewrite ?Est; simpl;
        unfold with_state, with_receivedSorterResolvedTs; simpl;
        f_equal; lia.
  - intros H. destruct (Z.leb_spec a (barrierTs t)); [reflexivity|lia].
  - intros H. destruct (Z.leb_spec a (receivedSorterResolvedTs t)); [reflexivity|lia].
Qed.

Lemma updateTs_is_max_witness :
  let t := newTableSinkWrapper TableStatePreparing 10 0 in
  getUpperBoundTs (updateBarrierTs (updateReceivedSorterResolvedTs t 500) 300) = 300
  /\ updateBarrierTs (updateBarrierTs t 300) 200 = updateBarrierTs t 300.
Proof.
  intros t. split; [reflexivity|].
  destruct (updateTs_is_max (updateBarrierTs t 300) 200 0) as (_ & _ & _ & _ & H & _).
  apply H. simpl. lia.
Defined.








(** With [start] the stopped state is not final: a wrapper that was stopped
    before it was ever started is replicating after [start]. *)
Example start_reopens_stopped_table :
  let t := fst (asyncStop (newTableSinkWrapper TableStatePreparing 10 0) 1) in
  state t = TableStateStopped
  /\ (state ∘ fst <$> start t 10 (7, None) 2) = Some TableStateReplicating.
Proof. vm_compute. split; reflexivity. Qed.







(** An [isReady] that runs between [clear] and the store of the state
    attaches a new sink: [asyncStop] returns true on a stopped table that
    holds a sink and takes events. *)
Example asyncStop_isReady_between :
  let t := fst (isReady (newTableSinkWrapper TableStatePreparing 100 0)
                        (Some (freshSink 100), 1) 1) in
  exists t',
    asyncStopAmong t 5 [] [] [CallIsReady (Some (freshSink 100), 2) 6] = Some (t', true)
    /\ state t' = TableStateStopped
    /\ tableSink_s t' = Some (freshSink 100)
    /\ snd (appendRowChangedEvents t' []) = None.
Proof. intros t. eexists. split; [reflexivity|]. vm_compute. auto. Qed.

(** The value [getCheckpointTs] returns does not depend on the clock. *)
Lemma getCheckpointTs_value (t : tableSinkWrapper) (now : Z) :
  snd (getCheckpointTs t now)
  = match tableSink_s t with
    | Some s =>
        if Less (state_checkpointTs t) (GetCheckpointTs s)
        then GetCheckpointTs s else state_checkpointTs t
    | None => state_checkpointTs t
    end.
Proof.
  unfold getCheckpointTs. simpl. destruct (tableSink_s t); [|reflexivity].
  destruct (Less _ _); [reflexivity|]. now destruct (negb _).
Qed.

(** X9. Clearing the sink is invisible to the readers: whenever they run,
    [getCheckpointTs] and [getLastSyncedTs] return after [clear] (and after
    an [asyncClose], which clears when the sink is closed) what they would
    have returned before it. *)
Theorem clear_is_transparent (t : tableSinkWrapper) (clearedAt before after : Z) :
  snd (getCheckpointTs (clear t clearedAt) after) = snd (getCheckpointTs t before)
  /\ getLastSyncedTs (clear t clearedAt) = getLastSyncedTs t
  /\ snd (getCheckpointTs (fst (asyncClose t clearedAt)) after)
     = snd (getCheckpointTs t before)
  /\ getLastSyncedTs (fst (asyncClose t clearedAt)) = getLastSyncedTs t.
Proof.
  assert (H : snd (getCheckpointTs (clear t clearedAt) after)
              = snd (getCheckpointTs t before)
              /\ getLastSyncedTs (clear t clearedAt) = getLastSyncedTs t).
  { rewrite !getCheckpointTs_value. unfold getLastSyncedTs, clear.
    destruct (tableSink_s t) as [s|] eqn:Es; simpl; [|rewrite Es; auto].
    destruct (Less (state_checkpointTs t) (GetCheckpointTs s)); simpl; auto. }
  destruct H as [H1 H2]. repeat split; auto.
  - unfold asyncClose. destruct (tableSink_s t) as [s|] eqn:Es; cbn [fst].
    + destruct (AsyncClose s); cbn [fst]; [exact H1|].
      now rewrite !getCheckpointTs_value.
    + now rewrite !getCheckpointTs_value.
  - unfold asyncClose. destruct (tableSink_s t) as [s|] eqn:Es; simpl; [|reflexivity].
    destruct (AsyncClose s); simpl; [exact H2 | reflexivity].
Qed.

(** X10. [isReady] asks the creator only while no sink is attached: once a
    call has returned true, a further call returns true and changes nothing,
    whatever the creator would hand out; and no call touches the cached
    checkpoint. *)
Theorem isReady_attaches_once (t : tableSinkWrapper)
    (created created' : option TableSink * Z) (now now' : Z) :
  state_checkpointTs (fst (isReady t created now)) = state_checkpointTs t
  /\ (snd (isReady t created now) = true ->
      isReady (fst (isReady t created now)) created' now'
      = (fst (isReady t created now), true)).
Proof.
  unfold isReady.
  destruct (tableSink_s t) as [s|] eqn:Es; simpl.
  - rewrite Es. auto.
  - destruct created as [[s|] v]; simpl; split; auto; discriminate.
Qed.

Lemma isReady_attaches_once_witness :
  let t := newTableSinkWrapper TableStatePreparing 100 0 in
  let t1 := fst (isReady t (Some (freshSink 100), 1) 1) in
  isReady t1 (Some (freshSink 300), 2) 2 = (t1, true).
Proof.
  intros t t1.
  destruct (isReady_attaches_once t (Some (freshSink 100), 1)
              (Some (freshSink 300), 2) 1 2) as [_ H].
  apply H. reflexivity.
Defined.

(** X11. What [sinkMaybeStuck] reports; [now] is the clock read inside
    [getCheckpointTs] and [since] the later one read by [time.Since].
    Whatever calls run between its two critical sections, a sink is reported
    stuck only with the version the wrapper holds in the second section,
    which is positive, and with an advance recorded there that is older than
    the threshold at [since].  With no call in between: a wrapper whose sink
    has just been cleared is not stuck; when the sink's checkpoint has
    advanced beyond the cache, or has reached the cached resolved-ts, the
    call records the advance at [now] and reports the sink stuck exactly
    when its version is positive and more than the threshold lies between
    the two readings of the clock; and the advance a stuck report rests on
    is the one recorded before the call, or [now]. *)
Theorem sinkMaybeStuck_reports (t : tableSinkWrapper) (s : TableSink)
    (stuckCheck now since clearedAt : Z) (between : list call) :
  tableSink_s t = Some s ->
  (forall t' version,
     sinkMaybeStuckAmong t stuckCheck now between since = Some (t', (true, version)) ->
     version = tableSink_version t' /\ 0 < version
     /\ stuckCheck < since - state_advanced t')
  /\ sinkMaybeStuckAmong t stuckCheck now [] since
     = Some (sinkMaybeStuck t stuckCheck now since)
  /\ snd (sinkMaybeStuck (clear t clearedAt) stuckCheck now since) = (false, 0)
  /\ (Less (state_checkpointTs t) (GetCheckpointTs s) = true
      \/ Less (GetCheckpointTs s) (state_resolvedTs t) = false ->
      state_advanced (fst (sinkMaybeStuck t stuckCheck now since)) = now
      /\ snd (sinkMaybeStuck t stuckCheck now since)
         = if (tableSink_version t >? 0) && (since - now >? stuckCheck)
           then (true, tableSink_version t) else (false, 0))
  /\ (forall version,
        snd (sinkMaybeStuck t stuckCheck now since) = (true, version) ->
        let advanced := state_advanced (fst (sinkMaybeStuck t stuckCheck now since)) in
        version = tableSink_version t /\ 0 < version
        /\ stuckCheck < since - advanced
        /\ (advanced = state_advanced t \/ advanced = now)).
Proof.
  intros Es. split; [|split; [|split; [|split]]].
  - intros t' version. unfold sinkMaybeStuckAmong.
    destruct (runCalls _ between) as [t2|]; [|discriminate].
    unfold stuckSince.
    destruct (Z.gtb_spec (tableSink_version t2) 0); simpl; [|discriminate].
    destruct (Z.gtb_spec (since - state_advanced t2) stuckCheck); [|discriminate].
    intros [= <- <-]. auto.
  - unfold sinkMaybeStuckAmong, sinkMaybeStuck. simpl.
    now destruct (getCheckpointTs t now).
  - unfold sinkMaybeStuck, stuckSince, getCheckpointTs, clear. rewrite Es.
    destruct (Less _ _); reflexivity.
  - intros Hadv. unfold sinkMaybeStuck, stuckSince, getCheckpointTs. rewrite Es.
    destruct (Less (state_checkpointTs t) (GetCheckpointTs s)); simpl.
    + split; reflexivity.
    + destruct Hadv as [Hadv|Hadv]; [discriminate|]. rewrite Hadv. simpl.
      split; reflexivity.
  - intros version. unfold sinkMaybeStuck, stuckSince, getCheckpointTs. rewrite Es.
    destruct (Less (state_checkpointTs t) (GetCheckpointTs s)); simpl;
      [|destruct (negb _); simpl];
      destruct (Z.gtb_spec (tableSink_version t) 0); simpl; try discriminate;
      match goal with
      | |- context [?a >? stuckCheck] => destruct (Z.gtb_spec a stuckCheck)
      end; try discriminate; intros [= <-]; repeat split; auto; lia.
Qed.

(** A sink of version 3 that lags behind the resolved-ts 200 is reported
    stuck after 1000 with threshold 50, also when the barrier is moved
    between the two critical sections; so is, with threshold 0, a sink that
    has reached the resolved-ts and whose advance [getCheckpointTs] has just
    recorded at 1000, when [time.Since] reads the clock at 1001. *)
Lemma sinkMaybeStuck_reports_witness :
  let t := fst (isReady (newTableSinkWrapper TableStatePreparing 100 0)
                        (Some (freshSink 100), 3) 1) in
  let lagging := fst (updateResolvedTs t (NewResolvedTs 200)) in
  snd (sinkMaybeStuck lagging 50 1000 1000) = (true, 3)
  /\ 50 < 1000 - state_advanced lagging
  /\ (exists t', sinkMaybeStuckAmong lagging 50 1000 [CallUpdateBarrierTs 7] 1000
                 = Some (t', (true, 3))
                 /\ 50 < 1000 - state_advanced t')
  /\ snd (sinkMaybeStuck (clear lagging 2) 50 1000 1000) = (false, 0)
  /\ snd (sinkMaybeStuck t 0 1000 1001) = (true, 3)
  /\ snd (sinkMaybeStuck t 0 1000 1000) = (false, 0).
Proof.
  intros t lagging.
  destruct (sinkMaybeStuck_reports lagging
              (fst (UpdateResolvedTs (freshSink 100) (NewResolvedTs 200))) 50 1000 1000 2
              [CallUpdateBarrierTs 7])
    as (Hamong & _ & Hclear & _ & Hstuck); [reflexivity|].
  destruct (sinkMaybeStuck_reports t (freshSink 100) 0 1000 1001 2 [])
    as (_ & _ & _ & Hlate & _); [reflexivity|].
  destruct (sinkMaybeStuck_reports t (freshSink 100) 0 1000 1000 2 [])
    as (_ & _ & _ & Hsoon & _); [reflexivity|].
  split; [reflexivity|].
  split; [destruct (Hstuck 3 eq_refl) as (_ & _ & Hold & _); exact Hold|].
  split.
  { eexists. split; [reflexivity|].
    destruct (Hamong _ 3 eq_refl) as (_ & _ & Hold). exact Hold. }
  split; [exact Hclear|].
  split; [apply Hlate | apply Hsoon]; right; reflexivity.
Defined.

Lemma with_replicateTs_same (t : tableSinkWrapper) :
  with_replicateTs t (replicateTs t) = t.
Proof. now destruct t. Qed.

(** X12. [start] is once-only and retryable: on a wrapper that holds a
    replicate-ts it panics; on a wrapper that holds none, a failure of
    [genReplicateTs] is returned and leaves the wrapper exactly as it was (the
    failed call hands back replicate-ts 0), so that [start] can be called
    again; a success moves the table to Replicating, lifts the
    sorter-resolved-ts to the start-ts if that is larger, and, when the
    replicate-ts obtained is not 0, makes every further [start] panic. *)
Theorem start_once_or_retry (t : tableSinkWrapper) (startTs0 now : Z)
    (gen : Z * option error) :
  (replicateTs t <> 0 -> start t startTs0 gen now = None)
  /\ (replicateTs t = 0 ->
      forall attempts err,
        start t startTs0 (genReplicateTs attempts (Some err)) now = Some (t, Some err))
  /\ (replicateTs t = 0 -> snd gen = None ->
      exists t', start t startTs0 gen now = Some (t', None)
        /\ state t' = TableStateReplicating
        /\ replicateTs t' = fst gen
        /\ receivedSorterResolvedTs t' = Z.max (receivedSorterResolvedTs t) startTs0
        /\ (fst gen <> 0 ->
            forall startTs1 gen1 now1, start t' startTs1 gen1 now1 = None)).
Proof.
  repeat split.
  - intros Hr. unfold start.
    destruct (Z.eqb_spec (replicateTs t) 0); [contradiction | reflexivity].
  - intros Hr attempts err. unfold start, genReplicateTs. rewrite Hr. simpl.
    rewrite <- Hr at 1. now rewrite with_replicateTs_same.
  - intros Hr Hgen. unfold start. rewrite Hr, Hgen. simpl.
    eexists. split; [reflexivity|].
    destruct (Z.leb_spec startTs0 (receivedSorterResolvedTs t));
      destruct (Greater _ _); simpl;
      (repeat split; try lia;
       intros Hne startTs1 gen1 now1;
       destruct (Z.eqb_spec (fst gen) 0); [contradiction | reflexivity]).
Qed.

Lemma start_once_or_retry_witness :
  let t := newTableSinkWrapper TableStatePreparing 100 0 in
  start t 120 (genReplicateTs [(0, 0, Some (OtherError "pd unavailable"))]
                              (Some (OtherError "pd unavailable"))) 1
  = Some (t, Some (OtherError "pd unavailable"))
  /\ exists t', start t 120 (genReplicateTs [(5, 1, None)] None) 2 = Some (t', None)
                /\ state t' = TableStateReplicating
                /\ start t' 120 (genReplicateTs [(6, 0, None)] None) 3 = None.
Proof.
  intros t.
  destruct (start_once_or_retry t 120 1 (0, None)) as (_ & Hfail & _).
  split; [apply Hfail; reflexivity|].
  destruct (start_once_or_retry t 120 2 (genReplicateTs [(5, 1, None)] None))
    as (_ & _ & Hok).
  destruct Hok as (t' & Hstart & Hstate & _ & _ & Hagain);
    [reflexivity | reflexivity |].
  exists t'. split; [exact Hstart|]. split; [exact Hstate|].
  apply Hagain. vm_compute. discriminate.
Defined.

(** ** The driver's view of partitions and DDLs *)

(** X24. [restart] replaces the replicate-ts and nothing else, and decides
    what a later [start] does: [start] panics after it exactly when the
    replicate-ts it stored is not 0.  A failed [restart] returns the error of
    [genReplicateTs] and stores 0, so a wrapper that had been started can be
    started again after it. *)
Theorem restart_then_start (t : tableSinkWrapper) (gen gen0 : Z * option error)
    (startTs0 now : Z) (attempts : list (Z * Z * option error)) (err : error) :
  let t' := fst (restart t gen) in
  let failed := restart t (genReplicateTs attempts (Some err)) in
  (start t' startTs0 gen0 now = None <-> fst gen <> 0)
  /\ snd failed = Some err
  /\ replicateTs (fst failed) = 0
  /\ start (fst failed) startTs0 gen0 now <> None
  /\ state t' = state t
  /\ tableSink_s t' = tableSink_s t
  /\ timestamps t' = timestamps t
  /\ state_checkpointTs t' = state_checkpointTs t.
Proof.
  intros t' failed. subst t' failed. unfold restart, genReplicateTs, start. simpl.
  split.
  - destruct (Z.eqb_spec (fst gen) 0) as [Hz|Hz]; simpl.
    + split; [|contradiction]. destruct (snd gen0); discriminate.
    + split; auto.
  - split; [reflexivity|]. split; [reflexivity|].
    split; [destruct (snd gen0); discriminate|].
    repeat split.
Qed.

Lemma restart_then_start_witness :
  let t := newTableSinkWrapper TableStatePreparing 100 0 in
  exists t1 t2,
    start t 120 (genReplicateTs [(5, 1, None)] None) 1 = Some (t1, None)
    /\ start t1 120 (genReplicateTs [(6, 0, None)] None) 2 = None
    /\ t2 = fst (restart t1 (genReplicateTs [] (Some (OtherError "pd unavailable"))))
    /\ start t2 120 (genReplicateTs [(6, 0, None)] None) 3 <> None.
Proof.
  intros t. eexists. eexists.
  split; [reflexivity|]. split; [reflexivity|]. split; [reflexivity|].
  apply (restart_then_start _ (0, None) _ 120 3 [] (OtherError "pd unavailable")).
Defined.

(** X13. [getMinPartitionResolvedTs] is a lower bound of the resolved-ts of
    every partition and never exceeds [math.MaxUint64]; it is
    [math.MaxUint64] when there is no partition; and when some partition
    holds a [uint64] it is the resolved-ts of one of the partitions. *)
Theorem getMinPartitionResolvedTs_is_min (c : Consumer) :
  (forall sink, sink ∈ sinks c -> getMinPartitionResolvedTs c <= resolvedTs sink)
  /\ getMinPartitionResolvedTs c <= two64 - 1
  /\ (sinks c = [] -> getMinPartitionResolvedTs c = two64 - 1)
  /\ ((exists sink, sink ∈ sinks c /\ resolvedTs sink <= two64 - 1) ->
      exists sink, sink ∈ sinks c /\ getMinPartitionResolvedTs c = resolvedTs sink).
Proof.
  destruct (minResolvedTs_bounds (sinks c) (two64 - 1)) as (Hle & Hall & Hatt).
  change (minResolvedTs (sinks c) (two64 - 1)) with (getMinPartitionResolvedTs c) in *.
  repeat split; auto.
  - intros Hnil. unfold getMinPartitionResolvedTs. now rewrite Hnil.
  - intros (sink & Hin & Hmax).
    destruct Hatt as [Heq|Hatt]; [|exact Hatt].
    exists sink. split; [exact Hin|]. specialize (Hall sink Hin). lia.
Qed.

Lemma getMinPartitionResolvedTs_is_min_witness :
  let c := storeResolvedTs (storeResolvedTs (newConsumer 2) 0 500) 1 300 in
  exists sink, sink ∈ sinks c /\ getMinPartitionResolvedTs c = resolvedTs sink
               /\ resolvedTs sink = 300.
Proof.
  intros c.
  destruct (getMinPartitionResolvedTs_is_min c) as (_ & _ & _ & H).
  destruct H as (sink & Hin & Hmin).
  - exists {| tablesCommitTsMap := []; tableSinksMap := ∅; resolvedTs := 300 |}.
    split; [|vm_compute; discriminate].
    apply list_elem_of_lookup. exists 1%nat. reflexivity.
  - exists sink. split; [exact Hin|]. split; [exact Hmin|].
    rewrite <- Hmin. vm_compute. reflexivity.
Defined.

Lemma appendDDL_ordered (c c' : Consumer) (ddl : DDLEvent) :
  ddlOrdered c -> appendDDL c ddl = Done c' -> ddlOrdered c'.
Proof.
  intros [Hsorted Hmax]. unfold appendDDL, ddlOrdered.
  destruct (ddlWithMaxCommitTs c) as [m|] eqn:Em.
  - destruct (Z.ltb_spec (DDL_CommitTs ddl) (DDL_CommitTs m)); [discriminate|].
    destruct (ptr ddl =? ptr m); intros [= <-]; [rewrite Em; auto|]. simpl. split.
    + apply StronglySorted_app_2; auto; [|repeat constructor].
      intros a b Ha Hb. apply list_elem_of_singleton in Hb as ->.
      rewrite Forall_forall in Hmax. specialize (Hmax a Ha). lia.
    + apply Forall_app. split.
      * eapply Forall_impl; [exact Hmax|]. simpl. intros; lia.
      * constructor; [lia|constructor].
  - intros [= <-]. simpl. rewrite Hmax. simpl.
    split; repeat constructor; lia.
Qed.

Lemma stepEvent_ordered (c c' : Consumer) (e : event) :
  ddlOrdered c -> stepEvent c e = NextRound c' -> ddlOrdered c'.
Proof.
  intros Hord.
  destruct e as [partition ts|ddl|ctx flushDDL writeDDL flushGlobal]; simpl.
  - intros [= <-]. unfold storeResolvedTs, ddlOrdered in *.
    destruct (sinks c !! partition); exact Hord.
  - destruct (appendDDL c ddl) as [c1|msg] eqn:E; [|discriminate].
    intros [= <-]. eapply appendDDL_ordered; eauto.
  - intros E.
    pose proof (runRound_globalResolvedTs c ctx flushDDL writeDDL flushGlobal) as H.
    rewrite E in H. destruct H as (_ & _ & _ & Hmaxddl & Hlist).
    destruct Hord as [Hsorted Hmax]. unfold ddlOrdered. rewrite Hmaxddl, Hlist.
    unfold getFrontDDL. destruct (ddlList c) as [|d rest] eqn:El; [auto|].
    destruct (_ <=? _); simpl; [|auto].
    apply StronglySorted_inv in Hsorted as [Hrest _]. split; [exact Hrest|].
    destruct (ddlWithMaxCommitTs c); [now inversion Hmax | discriminate].
Qed.

(** X14. Whatever is received and whenever the driver runs, the DDL queue
    of a consumer built by [NewConsumer] is in commit-ts order: the driver,
    which takes DDLs from the front, executes them in non-decreasing
    commit-ts order. *)
Theorem ddlList_always_ordered (partitionNum : nat) (events : list event)
    (c : Consumer) :
  c ∈ fst (execution (newConsumer partitionNum) events) ->
  StronglySorted (fun a b => DDL_CommitTs a <= DDL_CommitTs b) (ddlList c).
Proof.
  assert (H : forall evs c0, ddlOrdered c0 ->
            forall c, c ∈ fst (execution c0 evs) -> ddlOrdered c).
  { clear. intros evs.
    induction evs as [|e evs IH]; intros c0 Hord c Hin; simpl in Hin.
    - apply list_elem_of_singleton in Hin as ->. exact Hord.
    - destruct (stepEvent c0 e) as [c1|c1 err|msg] eqn:E; simpl in Hin;
        try (apply list_elem_of_singleton in Hin as ->; exact Hord).
      pose proof (stepEvent_ordered _ _ _ Hord E) as Hord1.
      specialize (IH c1 Hord1 c).
      destruct (execution c1 evs) as [cs ending]. simpl in *.
      apply elem_of_cons in Hin as [->|Hin]; auto. }
  intros Hin. apply (H events (newConsumer partitionNum)); [|exact Hin].
  split; [constructor | reflexivity].
Qed.

Lemma ddlList_always_ordered_witness :
  exists c, c ∈ fst (execution (newConsumer 2) interleaveEvents)
            /\ ddlList c = [ddl400]
            /\ StronglySorted (fun a b => DDL_CommitTs a <= DDL_CommitTs b) (ddlList c).
Proof.
  exists (storeResolvedTs (storeResolvedTs
            (with_ddl (newConsumer 2) [ddl400] (Some ddl400)) 0 500) 1 500).
  assert (Hin : storeResolvedTs (storeResolvedTs
                  (with_ddl (newConsumer 2) [ddl400] (Some ddl400)) 0 500) 1 500
                ∈ fst (execution (newConsumer 2) interleaveEvents)).
  { apply list_elem_of_lookup. exists 3%nat. vm_compute. reflexivity. }
  split; [exact Hin|]. split; [reflexivity|].
  exact (ddlList_always_ordered 2 interleaveEvents _ Hin).
Defined.

(** X15. [appendDDL] panics exactly on a DDL whose commit-ts is below that
    of the DDL of maximal commit-ts.  Otherwise it leaves the queue as it is
    or adds the DDL at its back, and the DDL of maximal commit-ts is
    afterwards at the address of the one handed in and not above it in
    commit-ts.  Duplicates are recognised by address only: handing the same
    event (the same pointer) again changes nothing, while another event of
    the same commit-ts at another address, such as a second decoding of the
    same DDL message, is queued again. *)
Theorem appendDDL_accepts (c : Consumer) (ddl : DDLEvent) :
  ((exists msg, appendDDL c ddl = Panic msg) <->
     exists m, ddlWithMaxCommitTs c = Some m
               /\ DDL_CommitTs ddl < DDL_CommitTs m)
  /\ (forall c', appendDDL c ddl = Done c' ->
       (ddlList c' = ddlList c \/ ddlList c' = ddlList c ++ [ddl])
       /\ (exists m', ddlWithMaxCommitTs c' = Some m' /\ ptr m' = ptr ddl
                      /\ DDL_CommitTs m' <= DDL_CommitTs ddl)
       /\ appendDDL c' ddl = Done c')
  /\ (forall c' copy, appendDDL c ddl = Done c' ->
       ptr copy <> ptr ddl ->
       DDL_CommitTs copy = DDL_CommitTs ddl ->
       appendDDL c' copy = Done (with_ddl c' (ddlList c' ++ [copy]) (Some copy))).
Proof.
  assert (Hdone : forall c', appendDDL c ddl = Done c' ->
       (ddlList c' = ddlList c \/ ddlList c' = ddlList c ++ [ddl])
       /\ (exists m', ddlWithMaxCommitTs c' = Some m' /\ ptr m' = ptr ddl
                      /\ DDL_CommitTs m' <= DDL_CommitTs ddl)
       /\ appendDDL c' ddl = Done c').
  { unfold appendDDL. intros c'. destruct (ddlWithMaxCommitTs c) as [m|] eqn:Em.
    + destruct (Z.ltb_spec (DDL_CommitTs ddl) (DDL_CommitTs m)) as [|Hge];
        [discriminate|].
      destruct (Z.eqb_spec (ptr ddl) (ptr m)) as [Hp|Hp]; intros [= <-]; simpl.
      * rewrite Em. split; [auto|]. split; [exists m; auto|].
        destruct (Z.ltb_spec (DDL_CommitTs ddl) (DDL_CommitTs m)); [lia|].
        destruct (Z.eqb_spec (ptr ddl) (ptr m)); [reflexivity|contradiction].
      * split; [auto|]. split; [exists ddl; split; [reflexivity|split; [reflexivity|lia]]|].
        rewrite Z.ltb_irrefl, Z.eqb_refl. reflexivity.
    + intros [= <-]. simpl. split; [auto|].
      split; [exists ddl; split; [reflexivity|split; [reflexivity|lia]]|].
      rewrite Z.ltb_irrefl, Z.eqb_refl. reflexivity. }
  split; [|split; [exact Hdone|]].
  - unfold appendDDL. destruct (ddlWithMaxCommitTs c) as [m|] eqn:Em.
    + destruct (Z.ltb_spec (DDL_CommitTs ddl) (DDL_CommitTs m)) as [Hlt|Hge].
      * split; eauto.
      * split.
        -- intros [msg Hp]. destruct (_ =? _); discriminate.
        -- intros (m' & [= <-] & Hlt). lia.
    + split.
      * intros [msg Hp]. discriminate.
      * intros (m' & Hm' & _). discriminate.
  - intros c' copy Hrun Hptr Hts.
    destruct (Hdone c' Hrun) as (_ & (m' & Hm' & Hp' & Hle) & _).
    unfold appendDDL. rewrite Hm'.
    destruct (Z.ltb_spec (DDL_CommitTs copy) (DDL_CommitTs m')); [lia|].
    destruct (Z.eqb_spec (ptr copy) (ptr m')); [congruence|reflexivity].
Qed.

(** The DDL of commit-ts 400 handed in twice is queued once; decoded a
    second time, at another address, it is queued twice. *)
Lemma appendDDL_accepts_witness :
  let copy := {| ptr := 7; DDL_CommitTs := 400; Query := "create table t" |} in
  exists c', appendDDL (newConsumer 1) ddl400 = Done c'
             /\ ddlList c' = [ddl400]
             /\ appendDDL c' ddl400 = Done c'
             /\ exists c'', appendDDL c' copy = Done c''
                            /\ ddlList c'' = [ddl400; copy].
Proof.
  intros copy.
  destruct (appendDDL_accepts (newConsumer 1) ddl400) as (_ & Hsame & Hcopy).
  eexists. split; [reflexivity|]. split; [reflexivity|].
  split; [eapply Hsame; reflexivity|].
  eexists. split; [apply Hcopy; [reflexivity | simpl; lia | reflexivity]|].
  reflexivity.
Defined.

(** X16. In one round of [Run], a DDL is written only if it is the front DDL
    and no partition's resolved-ts is below its commit-ts, and the round has
    then begun by flushing every sink to that commit-ts; and a round that
    goes on leaves a global resolved-ts that no partition's resolved-ts is
    below, having last flushed every sink to it. *)
Theorem runRound_order (c : Consumer)
    (ctx flushDDL writeDDL flushGlobal : option error) :
  let '(ending, log) := runRound c ctx flushDDL writeDDL flushGlobal in
  (forall ddl, WriteDDLEvent ddl ∈ log ->
     getFrontDDL c = Some ddl
     /\ (forall sink, sink ∈ sinks c -> DDL_CommitTs ddl <= resolvedTs sink)
     /\ exists rest, log = FlushEverySink (DDL_CommitTs ddl) :: WriteDDLEvent ddl :: rest
                     /\ WriteDDLEvent ddl ∉ rest)
  /\ (forall c', ending = NextRound c' ->
        (forall sink, sink ∈ sinks c' -> globalResolvedTs c' <= resolvedTs sink)
        /\ last log = Some (FlushEverySink (globalResolvedTs c'))).
Proof.
  destruct (minResolvedTs_bounds (sinks c) (two64 - 1)) as (_ & Hall & _).
  change (minResolvedTs (sinks c) (two64 - 1)) with (getMinPartitionResolvedTs c) in *.
  assert (Hno : forall ts ddl, WriteDDLEvent ddl ∉ [FlushEverySink ts]).
  { intros ts ddl Hin. apply list_elem_of_singleton in Hin. discriminate. }
  assert (Hfront : forall ts ddl rest,
            WriteDDLEvent ddl ∈ FlushEverySink ts :: rest -> WriteDDLEvent ddl ∈ rest).
  { intros ts ddl rest Hin. apply elem_of_cons in Hin as [Hin|Hin];
      [discriminate | exact Hin]. }
  unfold runRound, getFrontDDL, popDDL.
  destruct ctx; [split; [intros ddl Hin; inversion Hin | discriminate]|].
  destruct (ddlList c) as [|d rest] eqn:El.
  - destruct (Z.gtb_spec (globalResolvedTs c) (getMinPartitionResolvedTs c));
      [split; [intros ddl Hin; inversion Hin | discriminate]|].
    destruct (Z.ltb_spec (globalResolvedTs c) (getMinPartitionResolvedTs c));
      destruct flushGlobal; simpl;
      (split; [intros ddl Hin; exfalso; eapply Hno; eauto|]);
      try discriminate; intros c' [= <-]; simpl; split; auto;
      intros sink Hin; specialize (Hall sink Hin); lia.
  - destruct (Z.leb_spec (DDL_CommitTs d) (getMinPartitionResolvedTs c)) as [Hle|Hgt].
    + assert (Hd : forall ddl log', WriteDDLEvent ddl ∈ WriteDDLEvent d :: log' ->
                 WriteDDLEvent ddl ∉ log' ->
                 Some d = Some ddl
                 /\ (forall sink, sink ∈ sinks c -> DDL_CommitTs ddl <= resolvedTs sink)
                 /\ exists rest0,
                      FlushEverySink (DDL_CommitTs d) :: WriteDDLEvent d :: log'
                      = FlushEverySink (DDL_CommitTs ddl) :: WriteDDLEvent ddl :: rest0
                      /\ WriteDDLEvent ddl ∉ rest0).
      { intros ddl log' Hin Hnot.
        apply elem_of_cons in Hin as [[= <-]|Hin]; [|contradiction].
        split; [reflexivity|]. split; [|eauto].
        intros sink Hs. specialize (Hall sink Hs). lia. }
      destruct flushDDL; simpl;
        [split; [intros ddl Hin; exfalso; eapply Hno; eauto | discriminate]|].
      destruct writeDDL; simpl.
      * split; [|discriminate]. intros ddl Hin. apply Hfront in Hin.
        apply Hd; [exact Hin | intros Hx; inversion Hx].
      * destruct (Z.gtb_spec (globalResolvedTs c) (DDL_CommitTs d)).
        -- split; [|discriminate]. intros ddl Hin. apply Hfront in Hin.
           apply Hd; [exact Hin | intros Hx; inversion Hx].
        -- destruct (Z.ltb_spec (globalResolvedTs c) (DDL_CommitTs d));
             destruct flushGlobal; simpl;
             (split; [intros ddl Hin; apply Hfront in Hin;
                      apply Hd; [exact Hin | apply Hno]|]);
             try discriminate; intros c' [= <-]; simpl; split; auto;
             intros sink Hin; specialize (Hall sink Hin); lia.
    + destruct (Z.gtb_spec (globalResolvedTs c) (getMinPartitionResolvedTs c));
        [split; [intros ddl Hin; inversion Hin | discriminate]|].
      destruct (Z.ltb_spec (globalResolvedTs c) (getMinPartitionResolvedTs c));
        destruct flushGlobal; simpl;
        (split; [intros ddl Hin; exfalso; eapply Hno; eauto|]);
        try discriminate; intros c' [= <-]; simpl; split; auto;
        intros sink Hin; specialize (Hall sink Hin); lia.
Qed.

Lemma runRound_order_witness :
  let c := storeResolvedTs (storeResolvedTs
             (with_ddl (newConsumer 2) [ddl400] (Some ddl400)) 0 500) 1 500 in
  snd (runRound c None None None None)
    = [FlushEverySink 400; WriteDDLEvent ddl400; FlushEverySink 400]
  /\ getFrontDDL c = Some ddl400.
Proof.
  intros c. split; [vm_compute; reflexivity|].
  pose proof (runRound_order c None None None None) as H.
  destruct (runRound c None None None None) as [ending log] eqn:E.
  destruct H as [H _].
  apply (H ddl400).
  assert (Hlog : log = [FlushEverySink 400; WriteDDLEvent ddl400; FlushEverySink 400]).
  { change log with (snd (ending, log)). rewrite <- E. vm_compute. reflexivity. }
  rewrite Hlog. apply elem_of_cons. right. apply elem_of_cons. now left.
Defined.

(** ** Event groups, fake table ids and flushes *)

(** [Resolve] filters the sorted buffer. *)
Lemma Resolve_filter `{SliceSorter} (g : eventsGroup) (resolveTs : Z) :
  let sorted := sortSlice RowChangedEvent
                  (fun a b => CommitTs a <? CommitTs b) (events g) in
  fst (Resolve g resolveTs) = filter (fun e => CommitTs e <= resolveTs) sorted
  /\ events (snd (Resolve g resolveTs))
     = filter (fun e => ~ CommitTs e <= resolveTs) sorted
  /\ sorted ≡ₚ events g.
Proof.
  intros sorted. unfold Resolve. fold sorted. simpl.
  assert (Hsorted : Sorted (fun a b => CommitTs a <= CommitTs b) sorted)
    by apply (sortSlice_Sorted RowChangedEvent CommitTs).
  destruct (sorted_split_at sorted resolveTs Hsorted) as (m & Hm & Hlo & Hhi).
  rewrite (Resolve_search sorted resolveTs m Hm Hlo Hhi).
  assert (Hhi' : Forall (fun e => ~ CommitTs e <= resolveTs) (drop m sorted)).
  { eapply Forall_impl; [exact Hhi|]. simpl. intros; lia. }
  destruct (filter_take_drop (fun e => CommitTs e <= resolveTs) sorted m Hlo Hhi')
    as [-> ->].
  repeat split. apply sortSlice_Permutation.
Qed.

Lemma filter_none {A} (P : A -> Prop) `{!forall x, Decision (P x)} (l : list A) :
  (forall x, ~ P x) -> filter P l = [].
Proof.
  intros Hno. induction l as [|x l IH]; [reflexivity|].
  now rewrite filter_cons_False by apply Hno.
Qed.

(** X17. Successive resolves cut the buffered events into windows: after
    [Resolve ts], a [Resolve ts'] with [ts <= ts'] returns exactly the events
    buffered at first whose commit-ts is above [ts] and at most [ts'] (each as
    often as it is buffered); in particular the same [Resolve] made again
    returns nothing. *)
Theorem Resolve_windows `{SliceSorter} (g : eventsGroup) (ts ts' : Z) :
  ts <= ts' ->
  fst (Resolve (snd (Resolve g ts)) ts')
    ≡ₚ filter (fun e => ts < CommitTs e <= ts') (events g)
  /\ fst (Resolve (snd (Resolve g ts)) ts) = [].
Proof.
  intros Hts.
  destruct (Resolve_filter g ts) as (_ & Hrest & Hperm).
  destruct (Resolve_filter (snd (Resolve g ts)) ts') as (Hfst' & _ & Hperm').
  destruct (Resolve_filter (snd (Resolve g ts)) ts) as (Hfst & _ & Hperm0).
  split.
  - rewrite Hfst', Hperm', Hrest, Hperm.
    rewrite list_filter_filter.
    erewrite list_filter_iff; [reflexivity|]. intros e. simpl. lia.
  - rewrite Hfst.
    apply Permutation_nil_r.
    rewrite Hperm0, Hrest, list_filter_filter.
    rewrite filter_none; [reflexivity|]. intros e. simpl. lia.
Qed.

Lemma Resolve_windows_witness :
  let g := Append (Append (Append newEventsGroup
                     (mkRowChangedEvent 1 9 7 ["id"] []))
                     (mkRowChangedEvent 2 5 7 ["id"] []))
                     (mkRowChangedEvent 3 7 7 ["id"] []) in
  fst (@Resolve reversingSorter (snd (@Resolve reversingSorter g 5)) 8)
    ≡ₚ [mkRowChangedEvent 3 7 7 ["id"] []].
Proof.
  intros g.
  destruct (@Resolve_windows reversingSorter g 5 8) as [Hw _]; [lia|].
  rewrite Hw. vm_compute. reflexivity.
Defined.

Lemma generateAll_dense (QuoteSchema : string -> string -> string)
    (calls : list (string * string * Z)) : forall g,
  generatorDense g ->
  currentTableID g + Z.of_nat (length calls) < two63 ->
  generatorDense (snd (generateAll QuoteSchema g calls))
  /\ currentTableID (snd (generateAll QuoteSchema g calls))
     <= currentTableID g + Z.of_nat (length calls).
Proof.
  induction calls as [|[[schema table] partition] calls IH]; intros g Hd Hbound.
  - simpl. split; [exact Hd | lia].
  - cbn [generateAll].
    assert (Hstep : generatorDense (snd (generateFakeTableID QuoteSchema g schema table partition))
                    /\ currentTableID (snd (generateFakeTableID QuoteSchema g schema table partition))
                       <= currentTableID g + 1).
    { destruct Hd as [Hsize Hdense]. unfold generateFakeTableID.
      destruct (tableIDs g !! tableKey QuoteSchema schema table partition) eqn:E; simpl.
      - split; [split; assumption | lia].
      - assert (Hcur : to_int64 (currentTableID g + 1) = currentTableID g + 1).
        { apply to_int64_small. simpl length in Hbound.
          unfold is_int64, two63 in *. lia. }
        rewrite Hcur. split; [|lia]. split; simpl.
        + rewrite map_size_insert_None by exact E. lia.
        + intros id Hid.
          destruct (decide (id = currentTableID g + 1)) as [->|Hne].
          * eexists. apply lookup_insert_eq.
          * destruct (Hdense id ltac:(lia)) as [k Hk].
            exists k. rewrite lookup_insert_ne; [exact Hk|].
            intros <-. congruence. }
    destruct Hstep as [Hd1 Hcur1].
    destruct (generateFakeTableID QuoteSchema g schema table partition) as [id0 g1].
    simpl in *.
    destruct (IH g1 Hd1 ltac:(lia)) as [Hd' Hcur'].
    destruct (generateAll QuoteSchema g1 calls) as [ids g']. simpl in *.
    split; [exact Hd' | lia].
Qed.

(** X18. The fake table ids are the integers from 1 on, without a gap: after
    fewer than 2^63 calls on the generator of [NewConsumer], the counter is
    the number of keys seen and the ids in use are exactly the integers from
    1 to the counter. *)
Theorem fakeTableIDs_consecutive (QuoteSchema : string -> string -> string)
    (calls : list (string * string * Z)) :
  Z.of_nat (length calls) < two63 ->
  let g := snd (generateAll QuoteSchema newFakeTableIDGenerator calls) in
  currentTableID g = Z.of_nat (size (tableIDs g))
  /\ currentTableID g <= Z.of_nat (length calls)
  /\ forall id, (exists k, tableIDs g !! k = Some id) <-> 1 <= id <= currentTableID g.
Proof.
  intros Hlen g.
  assert (Hnew : generatorDense newFakeTableIDGenerator).
  { split; [reflexivity|]. simpl. intros id Hid. lia. }
  destruct (generateAll_dense QuoteSchema calls newFakeTableIDGenerator Hnew)
    as [[Hsize Hdense] Hcur]; [simpl; lia|].
  destruct (generateAll_lookup QuoteSchema calls newFakeTableIDGenerator
              generatorInv_new) as ((_ & Hrange & _) & _); [simpl; lia|].
  fold g in Hsize, Hdense, Hcur, Hrange. simpl in Hcur.
  split; [exact Hsize|]. split; [lia|].
  intros id. split; [intros [k Hk]; eapply Hrange; eauto | apply Hdense].
Qed.

Lemma fakeTableIDs_consecutive_witness :
  let calls := [ ("test", "t1", 0); ("test", "t2", 0); ("test", "t1", 3);
                 ("test", "t1", 0) ] in
  currentTableID (snd (generateAll backquoteSchema newFakeTableIDGenerator calls)) = 3
  /\ exists k, tableIDs (snd (generateAll backquoteSchema newFakeTableIDGenerator calls))
               !! k = Some 2.
Proof.
  intros calls.
  destruct (fakeTableIDs_consecutive backquoteSchema calls) as (_ & _ & H).
  - vm_compute. reflexivity.
  - split; [vm_compute; reflexivity|].
    apply H. vm_compute. split; discriminate.
Defined.

(** ** Consuming decoded messages *)

Lemma appendDDL_sinks (c c' : Consumer) (ddl : DDLEvent) :
  appendDDL c ddl = Done c' ->
  sinks c' = sinks c /\ globalResolvedTs c' = globalResolvedTs c.
Proof.
  unfold appendDDL. intros Hrun.
  repeat match type of Hrun with
         | (if ?b then _ else _) = _ => destruct b
         end; inversion Hrun; subst; auto.
Qed.

Lemma storeCommitTs_elem (m : list (Z * Z)) (tableID commitTs k v : Z) :
  (k, v) ∈ storeCommitTs m tableID commitTs ->
  (k, v) ∈ m \/ (k = tableID /\ v = commitTs).
Proof.
  induction m as [|[k0 v0] m IH]; simpl.
  - intros Hin. apply list_elem_of_singleton in Hin. inversion Hin; auto.
  - destruct (k0 =? tableID) eqn:E.
    + apply Z.eqb_eq in E. subst k0. intros Hin.
      apply elem_of_cons in Hin as [Hin|Hin].
      * inversion Hin; auto.
      * left. apply elem_of_cons. auto.
    + intros Hin. apply elem_of_cons in Hin as [Hin|Hin].
      * left. apply elem_of_cons. auto.
      * destruct (IH Hin) as [?|?]; [left; apply elem_of_cons|]; auto.
Qed.

Section ConsumeMsgProperties.
Context `{SliceSorter}.
Variable QuoteSchema : string -> string -> string.
Variable CreateTableSinkForConsumer : Z -> Z -> TableSink.
Variable partition : Z.

Local Abbreviation resolveTable' := (resolveTable CreateTableSinkForConsumer).
Local Abbreviation consumeMessage' :=
  (consumeMessage QuoteSchema CreateTableSinkForConsumer partition).
Local Abbreviation consumeMessages' :=
  (consumeMessages QuoteSchema CreateTableSinkForConsumer partition).

Lemma Resolve_below (g : eventsGroup) (ts : Z) (e : RowChangedEvent) :
  e ∈ fst (Resolve g ts) -> CommitTs e <= ts /\ e ∈ events g.
Proof.
  destruct (Resolve_filter g ts) as (-> & _ & Hperm).
  intros Hin. apply list_elem_of_filter in Hin as [Hle Hin].
  split; [exact Hle|]. now rewrite <- Hperm.
Qed.

Lemma Resolve_above (g : eventsGroup) (ts : Z) (e : RowChangedEvent) :
  e ∈ events (snd (Resolve g ts)) -> ts < CommitTs e /\ e ∈ events g.
Proof.
  destruct (Resolve_filter g ts) as (_ & -> & Hperm).
  intros Hin. apply list_elem_of_filter in Hin as [Hle Hin].
  split; [lia|]. now rewrite <- Hperm.
Qed.

Lemma resolveTable_resolvedTs (ts : Z) (sink : partitionSinks) entry :
  resolvedTs (resolveTable' ts sink entry) = resolvedTs sink.
Proof.
  destruct entry as [tableID group]. unfold resolveTable.
  destruct (head _); [|reflexivity]. destruct (last _); reflexivity.
Qed.

Lemma resolveTables_resolvedTs (ts : Z) entries : forall sink,
  resolvedTs (fold_left (resolveTable' ts) entries sink) = resolvedTs sink.
Proof.
  induction entries as [|entry entries IH]; intros sink; [reflexivity|].
  simpl. now rewrite IH, resolveTable_resolvedTs.
Qed.

Lemma resolveTable_flushableAt (ts : Z) (sink : partitionSinks) entry :
  flushableAt ts sink -> flushableAt ts (resolveTable' ts sink entry).
Proof.
  destruct entry as [tableID group]. unfold resolveTable. intros Hinv.
  destruct (head _) as [first|] eqn:Ehead; [|exact Hinv].
  destruct (last _) as [lastEvent|] eqn:Elast; [|exact Hinv].
  apply last_Some_elem_of, Resolve_below in Elast as [Hle _].
  set (created := match tableSinksMap sink !! tableID with
                  | Some _ => tableSinksMap sink
                  | None => <[tableID := CreateTableSinkForConsumer tableID (CommitTs first)]>
                              (tableSinksMap sink)
                  end).
  assert (Hcreated : is_Some (created !! tableID)
                     /\ forall k, is_Some (tableSinksMap sink !! k) -> is_Some (created !! k)).
  { subst created. destruct (tableSinksMap sink !! tableID) eqn:E.
    - split; [rewrite E; eauto | auto].
    - split; [rewrite lookup_insert_eq; eauto|].
      intros k Hk. destruct (decide (k = tableID)) as [->|Hne].
      + rewrite lookup_insert_eq; eauto.
      + now rewrite lookup_insert_ne by congruence. }
  destruct Hcreated as [[s Hs] Hkeep]. rewrite Hs.
  assert (Hsinks : forall k, k = tableID \/ is_Some (tableSinksMap sink !! k) ->
            is_Some (<[tableID := AppendRowChangedEvents s (fst (Resolve group ts))]> created !! k)).
  { intros k Hk. destruct (decide (k = tableID)) as [->|Hne].
    - rewrite lookup_insert_eq; eauto.
    - rewrite lookup_insert_ne by congruence. destruct Hk; [contradiction|auto]. }
  intros k v. simpl. intros Hin.
  assert (Hcases : (k, v) ∈ tablesCommitTsMap sink
                   \/ (k = tableID /\ v = CommitTs lastEvent)).
  { destruct (loadCommitTs (tablesCommitTsMap sink) tableID) as [lastCommitTs|].
    - destruct (lastCommitTs <? CommitTs lastEvent); [|auto].
      now apply storeCommitTs_elem.
    - now apply storeCommitTs_elem. }
  destruct Hcases as [Hold|[-> ->]].
  - destruct (Hinv k v Hold). split; [apply Hsinks|]; auto.
  - split; [apply Hsinks; auto | exact Hle].
Qed.

Lemma resolveTables_flushableAt (ts : Z) entries : forall sink,
  flushableAt ts sink -> flushableAt ts (fold_left (resolveTable' ts) entries sink).
Proof.
  induction entries as [|entry entries IH]; intros sink Hinv; [exact Hinv|].
  simpl. apply IH, resolveTable_flushableAt, Hinv.
Qed.

(** What one message does to the consumer's sinks and resolved-ts. *)
Lemma consumeMessage_sinks (st st' : consuming) (m : decodedMessage) :
  consumeMessage' st m = Done st' ->
  globalResolvedTs (consumer st') = globalResolvedTs (consumer st)
  /\ exists sink sink',
       sinks (consumer st) !! 0%nat = Some sink
       /\ sinks (consumer st') = <[0%nat := sink']> (sinks (consumer st))
       /\ resolvedTs sink <= resolvedTs sink'
       /\ (flushable sink -> flushable sink').
Proof.
  unfold consumeMessage. intros Hrun.
  destruct (sinks (consumer st) !! 0%nat) as [sink|] eqn:Esink; [|discriminate].
  assert (Hsame : globalResolvedTs (consumer st) = globalResolvedTs (consumer st)
                  /\ exists sink0 sink',
                       Some sink = Some sink0
                       /\ sinks (consumer st) = <[0%nat := sink']> (sinks (consumer st))
                       /\ resolvedTs sink0 <= resolvedTs sink'
                       /\ (flushable sink0 -> flushable sink')).
  { split; [reflexivity|]. exists sink, sink.
    split; [reflexivity|]. split; [now rewrite list_insert_id|]. split; [lia|auto]. }
  destruct m as [ddl|row target|ts].
  - destruct (partition =? 0).
    + destruct (appendDDL (consumer st) ddl) as [c|msg] eqn:Eddl; [|discriminate].
      inversion Hrun; subst st'; simpl.
      apply appendDDL_sinks in Eddl as [-> ->]. exact Hsame.
    + inversion Hrun; subst st'. exact Hsame.
  - destruct (match target with Some t => negb (partition =? t) | None => false end);
      [discriminate|].
    cbv zeta in Hrun.
    destruct (_ || _).
    + inversion Hrun; subst st'. exact Hsame.
    + destruct (generateFakeTableID _ _ _ _ _) as [tableID g].
      inversion Hrun; subst st'; simpl. exact Hsame.
  - cbv zeta in Hrun.
    destruct (_ || _) eqn:Eskip.
    + inversion Hrun; subst st'. exact Hsame.
    + apply orb_false_iff in Eskip as [_ Hpart]. apply Z.ltb_ge in Hpart.
      inversion Hrun; subst st'; simpl. split; [reflexivity|].
      eexists sink, _. split; [reflexivity|]. split; [reflexivity|].
      split; [simpl; exact Hpart|].
      intros Hinv k v. simpl. intros Hin.
      eapply (resolveTables_flushableAt ts); [|exact Hin].
      intros k0 v0 Hin0. destruct (Hinv k0 v0 Hin0). split; [auto|lia].
Qed.

Lemma consumeMessages_sinks (ms : list decodedMessage) : forall st st',
  consumeMessages' st ms = Done st' ->
  globalResolvedTs (consumer st') = globalResolvedTs (consumer st)
  /\ (ms = [] \/ exists sink sink',
       sinks (consumer st) !! 0%nat = Some sink
       /\ sinks (consumer st') = <[0%nat := sink']> (sinks (consumer st))
       /\ resolvedTs sink <= resolvedTs sink'
       /\ (flushable sink -> flushable sink')).
Proof.
  induction ms as [|m ms IH]; intros st st' Hrun; simpl in Hrun.
  - inversion Hrun; subst st'. auto.
  - destruct (consumeMessage' st m) as [st1|msg] eqn:E1; [|discriminate].
    apply consumeMessage_sinks in E1 as (Hg1 & sink & sink1 & Hs & Hs1 & Hle1 & Hf1).
    destruct (IH _ _ Hrun) as (Hg & Hrest). split; [congruence|]. right.
    destruct Hrest as [->|(sink1' & sink' & Hs1' & Hs' & Hle & Hf)].
    + inversion Hrun; subst st'. exists sink, sink1. auto.
    + assert (sink1' = sink1) as ->.
      { rewrite Hs1, list_lookup_insert_eq in Hs1'; [congruence|].
        apply lookup_lt_Some in Hs. exact Hs. }
      exists sink, sink'. split; [exact Hs|].
      split; [rewrite Hs', Hs1; apply list_insert_insert_eq|].
      split; [lia|auto].
Qed.

End ConsumeMsgProperties.

(** X19. [ConsumeMsg] never lowers a partition's resolved-ts: over any
    messages it consumes without a panic, the resolved-ts of [c.sinks[0]] only
    grows, the other partitions' sinks are as they were, [c.sinks] keeps its
    length, and [globalResolvedTs] is not written. *)
Theorem consumeMessages_resolvedTs `{SliceSorter}
    (QuoteSchema : string -> string -> string)
    (CreateTableSinkForConsumer : Z -> Z -> TableSink) (partition : Z)
    (ms : list decodedMessage) (st st' : consuming) :
  consumeMessages QuoteSchema CreateTableSinkForConsumer partition st ms = Done st' ->
  globalResolvedTs (consumer st') = globalResolvedTs (consumer st)
  /\ length (sinks (consumer st')) = length (sinks (consumer st))
  /\ forall i sink, sinks (consumer st) !! i = Some sink ->
       exists sink', sinks (consumer st') !! i = Some sink'
                     /\ resolvedTs sink <= resolvedTs sink'
                     /\ (i <> 0%nat -> sink' = sink).
Proof.
  intros Hrun.
  destruct (consumeMessages_sinks _ _ _ _ _ _ Hrun) as [Hg Hrest].
  split; [exact Hg|].
  destruct Hrest as [->|(sink0 & sink0' & Hs & Hs' & Hle & _)].
  - inversion Hrun; subst st'. split; [reflexivity|].
    intros i sink Hi. exists sink. split; [exact Hi|]. split; [lia|auto].
  - rewrite Hs'. split; [apply length_insert|].
    intros i sink Hi. destruct (decide (i = 0%nat)) as [->|Hne].
    + exists sink0'. rewrite list_lookup_insert_eq by (eapply lookup_lt_Some; eauto).
      split; [reflexivity|]. split; [congruence|contradiction].
    + exists sink. rewrite list_lookup_insert_ne by congruence.
      split; [exact Hi|]. split; [lia|auto].
Qed.

Lemma consumeMessage_bufferedAbove `{SliceSorter}
    (QuoteSchema : string -> string -> string)
    (CreateTableSinkForConsumer : Z -> Z -> TableSink) (partition : Z)
    (st st' : consuming) (m : decodedMessage) :
  consumeMessage QuoteSchema CreateTableSinkForConsumer partition st m = Done st' ->
  bufferedAbove st -> bufferedAbove st'.
Proof.
  unfold consumeMessage. intros Hrun Hinv.
  destruct (sinks (consumer st) !! 0%nat) as [sink|] eqn:Esink; [|discriminate].
  destruct m as [ddl|row target|ts].
  - destruct (partition =? 0).
    + destruct (appendDDL (consumer st) ddl) as [c|msg] eqn:Eddl; [|discriminate].
      inversion Hrun; subst st'.
      apply appendDDL_sinks in Eddl as [Hsinks _].
      intros sink' tableID group e. simpl. rewrite Hsinks. apply Hinv.
    + inversion Hrun; subst st'. exact Hinv.
  - destruct (match target with Some t => negb (partition =? t) | None => false end);
      [discriminate|].
    cbv zeta in Hrun.
    destruct (_ || _) eqn:Eskip.
    + inversion Hrun; subst st'. exact Hinv.
    + apply orb_false_iff in Eskip as [_ Hpart]. apply Z.leb_gt in Hpart.
      destruct (generateFakeTableID _ _ _ _ _) as [tableID g].
      inversion Hrun; subst st'.
      intros sink' k group e. simpl. intros Hs Hgroup He.
      assert (sink' = sink) as -> by congruence.
      destruct (decide (k = tableID)) as [->|Hne].
      * rewrite lookup_insert_eq in Hgroup. inversion Hgroup; subst group.
        unfold Append in He. simpl in He.
        apply elem_of_app in He as [He|He].
        -- destruct (eventGroups st !! tableID) as [group|] eqn:Eg.
           ++ eapply Hinv; eauto.
           ++ simpl in He. inversion He.
        -- apply list_elem_of_singleton in He. subst e. simpl. split; [lia|reflexivity].
      * rewrite lookup_insert_ne in Hgroup by congruence. eapply Hinv; eauto.
  - cbv zeta in Hrun.
    destruct (_ || _) eqn:Eskip.
    + inversion Hrun; subst st'. exact Hinv.
    + inversion Hrun; subst st'.
      intros sink' k group e. simpl. intros Hs Hgroup He.
      rewrite list_lookup_insert_eq in Hs by (eapply lookup_lt_Some; eauto).
      inversion Hs; subst sink'. simpl.
      rewrite lookup_fmap in Hgroup.
      destruct (eventGroups st !! k) as [group0|] eqn:Eg; [|discriminate].
      simpl in Hgroup. inversion Hgroup; subst group.
      apply Resolve_above in He as [Hts He]. split; [exact Hts|].
      eapply Hinv; eauto.
Qed.

(** X20. While [ConsumeMsg] runs, its buffer [eventGroups] holds only rows
    above the partition's resolved-ts, each under the table id it carries:
    this holds after any messages consumed without a panic, starting from the
    empty buffer. *)
Theorem eventGroups_above_resolvedTs `{SliceSorter}
    (QuoteSchema : string -> string -> string)
    (CreateTableSinkForConsumer : Z -> Z -> TableSink) (partition : Z)
    (c : Consumer) (g : fakeTableIDGenerator)
    (ms : list decodedMessage) (st : consuming) :
  consumeMessages QuoteSchema CreateTableSinkForConsumer partition
    (startConsuming c g) ms = Done st ->
  forall sink tableID group e,
    sinks (consumer st) !! 0%nat = Some sink ->
    eventGroups st !! tableID = Some group ->
    e ∈ events group ->
    resolvedTs sink < CommitTs e /\ TableID e = tableID.
Proof.
  assert (Hstart : bufferedAbove (startConsuming c g)).
  { intros sink tableID group e _ Hgroup. simpl in Hgroup.
    rewrite lookup_empty in Hgroup. discriminate. }
  revert Hstart. generalize (startConsuming c g). intros st0 Hinv Hrun.
  revert st0 Hinv Hrun.
  induction ms as [|m ms IH]; intros st0 Hinv Hrun; simpl in Hrun.
  - inversion Hrun; subst st. exact Hinv.
  - destruct (consumeMessage _ _ _ st0 m) as [st1|msg] eqn:E1; [|discriminate].
    eapply IH; [|exact Hrun].
    eapply consumeMessage_bufferedAbove; eauto.
Qed.

Lemma flushRange_finds (resolvedTs : Z) (entries : list (Z * Z)) :
  forall (sinks : gmap Z TableSink) (flushed : bool),
    (forall tableID commitTs, (tableID, commitTs) ∈ entries ->
       is_Some (sinks !! tableID)) ->
    exists sinks' flushed',
      flushRange entries sinks resolvedTs flushed = Done (sinks', flushed')
      /\ forall tableID, is_Some (sinks !! tableID) -> is_Some (sinks' !! tableID).
Proof.
  induction entries as [|[tableID commitTs] entries IH]; intros sinks flushed Hall.
  - simpl. eauto.
  - cbn [flushRange].
    destruct (Hall tableID commitTs) as [tableSink Hsink]; [apply elem_of_cons; auto|].
    rewrite Hsink.
    destruct (UpdateResolvedTs tableSink (NewResolvedTs resolvedTs)) as [tableSink' err].
    assert (Hkeep : forall k, is_Some (sinks !! k) ->
                      is_Some (<[tableID := tableSink']> sinks !! k)).
    { intros k Hk. destruct (decide (k = tableID)) as [->|Hne].
      - rewrite lookup_insert_eq; eauto.
      - now rewrite lookup_insert_ne by congruence. }
    destruct err as [e|]; [eauto|].
    edestruct (IH (<[tableID := tableSink']> sinks)) as (sinks' & flushed' & Hrun & Hkeep').
    { intros k v Hin. apply Hkeep. eapply Hall. apply elem_of_cons. eauto. }
    exists sinks', flushed'. split; [exact Hrun|]. auto.
Qed.

Lemma syncFlushRowChangedEventsFrom_finds (resolvedTs : Z)
    (ctxDone : nat -> option error)
    (progress : nat -> gmap Z TableSink -> gmap Z TableSink) :
  (forall k m tableID, is_Some (m !! tableID) -> is_Some (progress k m !! tableID)) ->
  forall fuel k sink msg,
    (forall tableID commitTs, (tableID, commitTs) ∈ tablesCommitTsMap sink ->
       is_Some (tableSinksMap sink !! tableID)) ->
    syncFlushRowChangedEventsFrom fuel k ctxDone progress sink resolvedTs
      <> Some (Panic msg).
Proof.
  intros Hprogress. induction fuel as [|fuel IH]; intros k sink msg Hall; [discriminate|].
  cbn [syncFlushRowChangedEventsFrom].
  destruct (ctxDone k); [discriminate|].
  destruct (flushRange_finds resolvedTs (tablesCommitTsMap sink)
              (progress k (tableSinksMap sink)) true)
    as (sinks' & flushed' & -> & Hkeep).
  { intros tableID commitTs Hin. apply Hprogress. eapply Hall; eauto. }
  destruct flushed'; [discriminate|].
  apply IH. simpl. intros tableID commitTs Hin.
  apply Hkeep, Hprogress. eapply Hall; eauto.
Qed.

(** X21. [ConsumeMsg] keeps the partition ready for the flushes of [Run]:
    after any messages consumed without a panic, every table that has a
    last-committed-ts in [tablesCommitTsMap] has a table sink and no
    last-committed-ts is above the partition's resolved-ts, given that this
    held before (it does for the sinks of [NewConsumer]); so
    [syncFlushRowChangedEvents] on the partition never panics with
    "Table sink not found", at any resolved-ts, as long as the downstream
    removes no table sink. *)
Theorem consumeMessages_flushable `{SliceSorter}
    (QuoteSchema : string -> string -> string)
    (CreateTableSinkForConsumer : Z -> Z -> TableSink) (partition : Z)
    (ms : list decodedMessage) (st st' : consuming) (sink : partitionSinks) :
  sinks (consumer st) !! 0%nat = Some sink ->
  flushable sink ->
  consumeMessages QuoteSchema CreateTableSinkForConsumer partition st ms = Done st' ->
  exists sink',
    sinks (consumer st') !! 0%nat = Some sink'
    /\ flushable sink'
    /\ forall fuel ctxDone progress ts msg,
         (forall k m tableID, is_Some (m !! tableID) ->
            is_Some (progress k m !! tableID)) ->
         syncFlushRowChangedEvents fuel ctxDone progress sink' ts <> Some (Panic msg).
Proof.
  intros Hsink Hinv Hrun.
  assert (Hready : exists sink', sinks (consumer st') !! 0%nat = Some sink'
                                 /\ flushable sink').
  { destruct (consumeMessages_sinks _ _ _ _ _ _ Hrun)
      as [_ [->|(sink0 & sink0' & Hs & Hs' & _ & Hf)]].
    - inversion Hrun; subst st'. eauto.
    - assert (sink0 = sink) as -> by congruence.
      exists sink0'. rewrite Hs'.
      rewrite list_lookup_insert_eq by (eapply lookup_lt_Some; eauto). auto. }
  destruct Hready as (sink' & Hsink' & Hinv').
  exists sink'. split; [exact Hsink'|]. split; [exact Hinv'|].
  intros fuel ctxDone progress ts msg Hprogress.
  apply syncFlushRowChangedEventsFrom_finds; [exact Hprogress|].
  intros tableID commitTs Hin. now destruct (Hinv' tableID commitTs Hin).
Qed.

Lemma consumeMessages_resolvedTs_witness :
  exists st' sink',
    @consumeMessages reversingSorter backquoteSchema (fun _ ts => sinkmanager.freshSink ts) 0
      (startConsuming (newConsumer 2) newFakeTableIDGenerator) consumedMessages = Done st'
    /\ sinks (consumer st') !! 0%nat = Some sink'
    /\ 0 <= resolvedTs sink'.
Proof.
  eexists.
  assert (Hrun : @consumeMessages reversingSorter backquoteSchema
                   (fun _ ts => sinkmanager.freshSink ts) 0
                   (startConsuming (newConsumer 2) newFakeTableIDGenerator)
                   consumedMessages = Done _) by (vm_compute; reflexivity).
  destruct (@consumeMessages_resolvedTs reversingSorter _ _ _ _ _ _ Hrun) as (_ & _ & Hall).
  destruct (Hall 0%nat _ eq_refl) as (sink' & Hs & Hle & _).
  exists sink'. split; [exact Hrun|]. split; [exact Hs|exact Hle].
Defined.

Lemma eventGroups_above_resolvedTs_witness :
  exists st,
    @consumeMessages reversingSorter backquoteSchema (fun _ ts => sinkmanager.freshSink ts) 0
      (startConsuming (newConsumer 2) newFakeTableIDGenerator) consumedMessages = Done st
    /\ eventGroups st !! 1 = Some {| events := [mkRowChangedEvent 2 7 1 ["id"] []] |}
    /\ forall sink, sinks (consumer st) !! 0%nat = Some sink -> resolvedTs sink < 7.
Proof.
  eexists.
  assert (Hrun : @consumeMessages reversingSorter backquoteSchema
                   (fun _ ts => sinkmanager.freshSink ts) 0
                   (startConsuming (newConsumer 2) newFakeTableIDGenerator)
                   consumedMessages = Done _) by (vm_compute; reflexivity).
  split; [exact Hrun|]. split; [vm_compute; reflexivity|].
  intros sink Hsink.
  apply (@eventGroups_above_resolvedTs reversingSorter _ _ _ _ _ _ _ Hrun sink 1
           {| events := [mkRowChangedEvent 2 7 1 ["id"] []] |}
           (mkRowChangedEvent 2 7 1 ["id"] []) Hsink).
  - vm_compute. reflexivity.
  - apply elem_of_cons. now left.
Defined.

Lemma consumeMessages_flushable_witness :
  exists st' sink',
    @consumeMessages reversingSorter backquoteSchema (fun _ ts => sinkmanager.freshSink ts) 0
      (startConsuming (newConsumer 2) newFakeTableIDGenerator) consumedMessages = Done st'
    /\ sinks (consumer st') !! 0%nat = Some sink'
    /\ tablesCommitTsMap sink' = [(1, 5)]
    /\ syncFlushRowChangedEvents 3 (fun _ => None) (fun _ sinks => sinks) sink' 6
       <> Some (Panic "Table sink not found").
Proof.
  eexists.
  assert (Hrun : @consumeMessages reversingSorter backquoteSchema
                   (fun _ ts => sinkmanager.freshSink ts) 0
                   (startConsuming (newConsumer 2) newFakeTableIDGenerator)
                   consumedMessages = Done _) by (vm_compute; reflexivity).
  assert (Hnew : flushable {| tablesCommitTsMap := []; tableSinksMap := ∅;
                              resolvedTs := 0 |}).
  { intros tableID commitTs Hin. inversion Hin. }
  destruct (@consumeMessages_flushable reversingSorter _ _ _ _
              (startConsuming (newConsumer 2) newFakeTableIDGenerator) _ _
              eq_refl Hnew Hrun) as (sink' & Hs & _ & Hflush).
  exists sink'. split; [exact Hrun|]. split; [exact Hs|].
  split; [vm_compute in Hs; now inversion Hs|].
  apply Hflush. auto.
Defined.

Lemma syncFlushRowChangedEventsFrom_bookkeeping (resolvedTs : Z)
    (ctxDone : nat -> option error)
    (progress : nat -> gmap Z TableSink -> gmap Z TableSink) :
  forall fuel k sink sink' err,
    syncFlushRowChangedEventsFrom fuel k ctxDone progress sink resolvedTs
      = Some (Done (sink', err)) ->
    tablesCommitTsMap sink' = tablesCommitTsMap sink
    /\ consumer.resolvedTs sink' = consumer.resolvedTs sink
    /\ exists j, (k <= j < k + fuel)%nat
         /\ ctxDone j = err
         /\ (forall i, (k <= i < j)%nat -> ctxDone i = None)
         /\ (err <> None -> tableSinksMap sink' = tableSinksMap sink \/ (k < j)%nat).
Proof.
  induction fuel as [|fuel IH]; intros k sink sink' err Hrun; [discriminate|].
  cbn [syncFlushRowChangedEventsFrom] in Hrun.
  destruct (ctxDone k) as [e|] eqn:Ectx.
  - inversion Hrun; subst. split; [reflexivity|]. split; [reflexivity|].
    exists k. split; [lia|]. split; [exact Ectx|]. split; [intros; lia|auto].
  - destruct (flushRange _ _ _ _) as [[sinks flushed]|msg]; [|discriminate].
    destruct flushed.
    + inversion Hrun; subst. split; [reflexivity|]. split; [reflexivity|].
      exists k. split; [lia|]. split; [exact Ectx|]. split; [intros; lia|].
      intros Hne. now contradiction Hne.
    + apply IH in Hrun as (Hmap & Hts & j & Hj & Hctx & Hbefore & _).
      split; [exact Hmap|]. split; [exact Hts|].
      exists j. split; [lia|]. split; [exact Hctx|].
      split; [|intros _; right; lia].
      intros i Hi. destruct (decide (i = k)) as [->|Hne]; [exact Ectx|].
      apply Hbefore. lia.
Qed.

(** X22. [syncFlushRowChangedEvents] returns the context's error or nil: what
    it returns is what the context answered at the start of its last round,
    every earlier round having found the context alive; an error of a table
    sink's [UpdateResolvedTs] is never returned.  The flush changes neither
    [tablesCommitTsMap] nor the partition's resolved-ts, and a context that is
    done at the first round leaves the table sinks as they were. *)
Theorem syncFlushRowChangedEvents_returns_context_error
    (fuel : nat) (ctxDone : nat -> option error)
    (progress : nat -> gmap Z TableSink -> gmap Z TableSink)
    (sink sink' : partitionSinks) (resolvedTs : Z) (err : option error) :
  syncFlushRowChangedEvents fuel ctxDone progress sink resolvedTs
    = Some (Done (sink', err)) ->
  tablesCommitTsMap sink' = tablesCommitTsMap sink
  /\ consumer.resolvedTs sink' = consumer.resolvedTs sink
  /\ (exists j, (j < fuel)%nat /\ ctxDone j = err
                /\ forall i, (i < j)%nat -> ctxDone i = None)
  /\ (ctxDone 0%nat <> None -> sink' = sink).
Proof.
  intros Hrun. pose proof Hrun as Hrun'.
  apply syncFlushRowChangedEventsFrom_bookkeeping
    in Hrun as (Hmap & Hts & j & Hj & Hctx & Hbefore & _).
  split; [exact Hmap|]. split; [exact Hts|]. split.
  - exists j. split; [lia|]. split; [exact Hctx|]. intros i Hi. apply Hbefore. lia.
  - intros Hdone. unfold syncFlushRowChangedEvents in Hrun'.
    destruct fuel; [discriminate|]. cbn [syncFlushRowChangedEventsFrom] in Hrun'.
    destruct (ctxDone 0%nat); [|now contradiction Hdone]. now inversion Hrun'.
Qed.

Lemma syncFlushRowChangedEvents_returns_context_error_witness :
  let sink := {| tablesCommitTsMap := [(7, 50)];
                 tableSinksMap := {[ 7 := sinkmanager.failingSink 60 ]};
                 resolvedTs := 100 |} in
  let ctxDone := fun k : nat => if Nat.ltb k 2 then None
                                else Some (OtherError "context canceled") in
  let progress := fun (k : nat) (sinks : gmap Z TableSink) =>
                    <[ 7 := sinkmanager.freshSink 60 ]> sinks in
  exists sink',
    syncFlushRowChangedEvents 5 ctxDone progress sink 100
      = Some (Done (sink', Some (OtherError "context canceled")))
    /\ tablesCommitTsMap sink' = [(7, 50)].
Proof.
  intros sink ctxDone progress. eexists.
  assert (Hrun : syncFlushRowChangedEvents 5 ctxDone progress sink 100
                 = Some (Done (_, Some (OtherError "context canceled"))))
    by (vm_compute; reflexivity).
  split; [exact Hrun|].
  destruct (syncFlushRowChangedEvents_returns_context_error _ _ _ _ _ _ _ Hrun)
    as (Hmap & _).
  exact Hmap.
Defined.

Lemma flushRange_failed_update (resolvedTs : Z) (tableID commitTs : Z)
    (rest : list (Z * Z)) (pre : list (Z * Z)) :
  forall (sinks : gmap Z TableSink) (flushed : bool),
    (forall k v, (k, v) ∈ pre ->
       exists s, sinks !! k = Some s /\ updateResolvedTsErr s = None
                 /\ EqualOrGreater (GetCheckpointTs s) (NewResolvedTs resolvedTs) = true) ->
    (exists s, sinks !! tableID = Some s /\ updateResolvedTsErr s <> None) ->
    exists sinks',
      flushRange (pre ++ (tableID, commitTs) :: rest) sinks resolvedTs flushed
        = Done (sinks', flushed)
      /\ forall k, k ∉ pre.*1 -> k <> tableID -> sinks' !! k = sinks !! k.
Proof.
  induction pre as [|[k0 v0] pre IH]; intros sinks flushed Hpre (s & Hs & Herr).
  - cbn [app flushRange]. rewrite Hs. unfold UpdateResolvedTs.
    destruct (updateResolvedTsErr s) as [e|] eqn:E; [|contradiction].
    eexists. split; [reflexivity|].
    intros k _ Hne. now rewrite lookup_insert_ne by congruence.
  - cbn [app flushRange].
    destruct (Hpre k0 v0) as (s0 & Hs0 & Herr0 & Hcp0); [apply elem_of_cons; auto|].
    rewrite Hs0. unfold UpdateResolvedTs at 1. rewrite Herr0. unfold GetCheckpointTs at 1.
    cbn [checkpointTs]. unfold GetCheckpointTs in Hcp0. rewrite Hcp0. cbn [negb].
    assert (Hne0 : k0 <> tableID).
    { intros ->. rewrite Hs in Hs0. inversion Hs0; subst s0. contradiction. }
    match goal with
    | |- context [flushRange _ ?m _ _] =>
        destruct (IH m flushed) as (sinks' & Hrun & Hkeep)
    end.
    + intros k v Hin. destruct (decide (k = k0)) as [->|Hne].
      * rewrite lookup_insert_eq. eexists. split; [reflexivity|].
        split; [reflexivity|exact Hcp0].
      * rewrite lookup_insert_ne by congruence. eapply Hpre. apply elem_of_cons. eauto.
    + exists s. rewrite lookup_insert_ne by congruence. auto.
    + exists sinks'. split; [exact Hrun|].
      intros k Hk Hne. rewrite fmap_cons, not_elem_of_cons in Hk. destruct Hk as [Hk0 Hk].
      rewrite Hkeep by assumption. simpl in Hk0. now rewrite lookup_insert_ne by congruence.
Qed.

(** X23. A table sink that refuses the resolved-ts ends the flush with nil:
    if, in a round that finds the context alive, the tables ranged over
    before the refusing one are caught up, [syncFlushRowChangedEvents]
    returns nil in that round, and the table sinks of the tables ranged over
    after it are not touched (they are not handed the resolved-ts, and their
    checkpoints are not read). *)
Theorem syncFlushRowChangedEvents_failed_update_returns_nil
    (fuel : nat) (ctxDone : nat -> option error)
    (progress : nat -> gmap Z TableSink -> gmap Z TableSink)
    (sink : partitionSinks) (resolvedTs : Z)
    (pre rest : list (Z * Z)) (tableID commitTs : Z) (s : TableSink) :
  ctxDone 0%nat = None ->
  tablesCommitTsMap sink = pre ++ (tableID, commitTs) :: rest ->
  (forall k v, (k, v) ∈ pre ->
     exists s, progress 0%nat (tableSinksMap sink) !! k = Some s
               /\ updateResolvedTsErr s = None
               /\ EqualOrGreater (GetCheckpointTs s) (NewResolvedTs resolvedTs) = true) ->
  progress 0%nat (tableSinksMap sink) !! tableID = Some s ->
  updateResolvedTsErr s <> None ->
  exists sink',
    syncFlushRowChangedEvents (S fuel) ctxDone progress sink resolvedTs
      = Some (Done (sink', None))
    /\ forall k, k ∉ pre.*1 -> k <> tableID ->
         tableSinksMap sink' !! k = progress 0%nat (tableSinksMap sink) !! k.
Proof.
  intros Hctx Hmap Hpre Hs Herr.
  unfold syncFlushRowChangedEvents. cbn [syncFlushRowChangedEventsFrom].
  rewrite Hctx, Hmap.
  destruct (flushRange_failed_update resolvedTs tableID commitTs rest pre
              (progress 0%nat (tableSinksMap sink)) true Hpre)
    as (sinks' & -> & Hkeep); [eauto|].
  eexists. split; [reflexivity|]. exact Hkeep.
Qed.

Lemma syncFlushRowChangedEvents_failed_update_returns_nil_witness :
  let sink := {| tablesCommitTsMap := [(7, 50); (8, 60); (9, 70)];
                 tableSinksMap := {[ 7 := sinkmanager.freshSink 100;
                                     8 := sinkmanager.failingSink 10;
                                     9 := sinkmanager.freshSink 20 ]};
                 resolvedTs := 100 |} in
  exists sink',
    syncFlushRowChangedEvents 1 (fun _ => None) (fun _ sinks => sinks) sink 100
      = Some (Done (sink', None))
    /\ tableSinksMap sink' !! 9 = Some (sinkmanager.freshSink 20).
Proof.
  intros sink.
  destruct (syncFlushRowChangedEvents_failed_update_returns_nil
              0 (fun _ => None) (fun _ sinks => sinks) sink 100
              [(7, 50)] [(9, 70)] 8 60 (sinkmanager.failingSink 10))
    as (sink' & Hrun & Hkeep).
  - reflexivity.
  - reflexivity.
  - intros k v Hin. apply list_elem_of_singleton in Hin. inversion Hin; subst.
    exists (sinkmanager.freshSink 100). split; [vm_compute; reflexivity|].
    split; vm_compute; reflexivity.
  - vm_compute. reflexivity.
  - simpl. discriminate.
  - exists sink'. split; [exact Hrun|].
    rewrite Hkeep; [vm_compute; reflexivity | | lia].
    simpl. intros Hin. apply list_elem_of_singleton in Hin. lia.
Defined.
